(** * The versioned observable store of react-data-table

    A shallow embedding of [src/utils/object.util.ts] (structural
    utilities), [src/providers/context.provider.tsx] (the context-scoped
    store with persistence) and the singleton data store with history
    ([createDataStore]), with [clsx] of [src/utils/string.util.ts] and
    the paging of the table over [fetchData].

    Part I holds the definitions, Part II the theorems on the stores,
    Part III further properties of the code. *)

From Stdlib Require Import ZArith Lia Floats.
From stdpp Require Import base option list strings pretty gmap.

Local Open Scope Z_scope.
Set Warnings "-register-all,-clear-no-such-hyp".

(* ===================================================================== *)
(** * Part I — definitions                                                 *)
(* ===================================================================== *)

(** ** Numbers

    A JavaScript number is an IEEE 754 binary64 value, which is what the
    primitive type [float] is: its arithmetic and comparisons are the
    ones the program runs. *)

(** The binary64 form of the positive integer [p] under the sign [s]:
    exact while [p] has at most 53 bits, which every length and index
    has; beyond, [p] is cut to its 53 leading bits (exact for every
    integer that is a number), and to an infinity from 1024 bits on. *)
Definition binary (s : bool) (p : positive) : spec_float :=
  let d := Pos.size p in
  if (d <=? 53)%positive
  then S754_finite s (Nat.iter (53 - Pos.to_nat d) xO p) (Z.pos d - 53)
  else if (d <=? 1024)%positive
  then S754_finite s (Nat.iter (Pos.to_nat d - 53) Pos.div2 p) (Z.pos d - 53)
  else S754_infinity s.

(** An integer as a number; this is how integers (lengths, indices,
    literals) enter number positions below. *)
Definition Number (z : Z) : float :=
  match z with
  | Z0 => zero
  | Zpos p => SF2Prim (binary false p)
  | Zneg p => SF2Prim (binary true p)
  end.
Coercion Number : Z >-> float.

Definition isNaN (x : float) : bool := is_nan x.

Inductive integer_or_infinity :=
| Integer (z : Z)
| PlusInfinity
| MinusInfinity.

(** [ToIntegerOrInfinity]: [NaN] counts as 0, a finite number loses its
    fraction. *)
Definition ToIntegerOrInfinity (x : float) : integer_or_infinity :=
  match Prim2SF x with
  | S754_nan | S754_zero _ => Integer 0
  | S754_infinity s => if s then MinusInfinity else PlusInfinity
  | S754_finite s m e =>
      let magnitude := if 0 <=? e then Z.pos m * 2 ^ e else Z.pos m / 2 ^ (- e) in
      Integer (if s then - magnitude else magnitude)
  end.

(** The element a number names when it is used as the key of an array
    access: [a[x]] reads the property [ToString(x)], which is an element
    only when [x] is a non-negative integer; both zeros print as 0. *)
Definition array_index (x : float) : option Z :=
  match Prim2SF x with
  | S754_zero _ => Some 0
  | S754_finite false m e =>
      if 0 <=? e then Some (Z.pos m * 2 ^ e)
      else if Z.pos m mod 2 ^ (- e) =? 0 then Some (Z.pos m / 2 ^ (- e))
      else None
  | _ => None
  end.

(** ** JavaScript data values

    Value semantics: a sequence is the list of its elements, a record
    the list of its own enumerable properties.  The code walks a record
    with [Object.keys], [Object.entries], [for...in] and spreads, in the
    order JavaScript fixes: the keys that print an array index first, in
    ascending order, then the others in the order they were added.  The
    list of a record stands for that order where the order of the walk
    matters ([clsx] stops at the first value that is not a boolean, and
    in [createMirrorObject] a later entry can overwrite an earlier
    one); [deepEqual], [deepMerge] and the spreads come to the same
    properties in any order.  A callable value is known only by its
    identity. *)

Inductive value : Type :=
| VUndef
| VNull
| VBool (b : bool)
| VNum (n : float)
| VStr (s : string)
| VFun (f : nat)
| VArr (items : list value)
| VObj (props : list (string * value)).

Inductive jstype := TUndefined | TObject | TBoolean | TNumber | TString | TFunction.

Definition typeof (v : value) : jstype :=
  match v with
  | VUndef => TUndefined
  | VNull => TObject
  | VBool _ => TBoolean
  | VNum _ => TNumber
  | VStr _ => TString
  | VFun _ => TFunction
  | VArr _ | VObj _ => TObject
  end.

Definition jstype_eqb (a b : jstype) : bool :=
  match a, b with
  | TUndefined, TUndefined | TObject, TObject | TBoolean, TBoolean
  | TNumber, TNumber | TString, TString | TFunction, TFunction => true
  | _, _ => false
  end.

(** [!!v] of JavaScript. *)
Definition truthy (v : value) : bool :=
  match v with
  | VUndef | VNull => false
  | VBool b => b
  | VNum n => negb ((n =? 0)%float || isNaN n)
  | VStr s => negb (String.eqb s EmptyString)
  | VFun _ | VArr _ | VObj _ => true
  end.

(** [v == null]. *)
Definition is_nullish (v : value) : bool :=
  match v with VUndef | VNull => true | _ => false end.

Definition isArray (v : value) : bool :=
  match v with VArr _ => true | _ => false end.

(** The name of the [i]-th element of a sequence, as a property key. *)
Definition index_key (i : nat) : string := pretty i.

(** Own enumerable properties of an object value, [Object.keys] order. *)
Definition own_props (v : value) : list (string * value) :=
  match v with
  | VObj props => props
  | VArr items => imap (fun i x => (index_key i, x)) items
  | _ => []
  end.

Definition keys (v : value) : list string := (own_props v).*1.

Fixpoint assoc {V} (k : string) (props : list (string * V)) : option V :=
  match props with
  | [] => None
  | (k', v) :: rest => if String.eqb k k' then Some v else assoc k rest
  end.

(** [o[k]] read: [undefined] when the property is missing; a sequence
    also answers to [length]. *)
Definition get_prop (o : value) (k : string) : value :=
  match assoc k (own_props o) with
  | Some v => v
  | None =>
      match o with
      | VArr items => if String.eqb k "length" then VNum (Z.of_nat (length items)) else VUndef
      | _ => VUndef
      end
  end.

Fixpoint assoc_set {V} (k : string) (v : V) (props : list (string * V))
  : list (string * V) :=
  match props with
  | [] => [(k, v)]
  | (k', v') :: rest =>
      if String.eqb k k' then (k, v) :: rest else (k', v') :: assoc_set k v rest
  end.

(** [o[k] = v] on a record: an existing property keeps its place, a new
    one is added last.  (JavaScript walks a new key that prints an array
    index before the keys that do not; the record built has the same
    keys and values, and the statements read it through [get_prop] and
    membership in [keys].)  Only records are written to in this
    program. *)
Definition set_prop (o : value) (k : string) (v : value) : value :=
  match o with
  | VObj props => VObj (assoc_set k v props)
  | _ => o
  end.

(** [keys.includes(k)]. *)
Definition includes (k : string) (ks : list string) : bool :=
  existsb (String.eqb k) ks.

(** A JavaScript object holds each key once. *)
Fixpoint wf_value (v : value) : bool :=
  match v with
  | VArr items => forallb wf_value items
  | VObj props => bool_decide (NoDup props.*1) && forallb (fun kv => wf_value kv.2) props
  | _ => true
  end.

(** Every number inside [v] passes [ok]. *)
Fixpoint numbers_in (ok : float -> bool) (v : value) : bool :=
  match v with
  | VNum n => ok n
  | VArr items => forallb (numbers_in ok) items
  | VObj props => forallb (fun kv => numbers_in ok kv.2) props
  | _ => true
  end.

(** No [NaN] inside [v]. *)
Definition nan_free (v : value) : bool :=
  numbers_in (fun n => negb (isNaN n)) v.


(** ** Structural utilities ([src/utils/object.util.ts]) *)

(** [l.every((item, index) => check(item, index))], from [index] on. *)
Definition every_from {A} (check : A -> nat -> bool) : list A -> nat -> bool :=
  fix go (l : list A) (index : nat) : bool :=
    match l with
    | [] => true
    | item :: rest => check item index && go rest (S index)
    end.

Definition every {A} (check : A -> nat -> bool) (l : list A) : bool :=
  every_from check l 0%nat.

(** The same walk, threading a result. *)
Definition for_index {R A} (body : R -> nat -> A -> R) : list A -> nat -> R -> R :=
  fix go (l : list A) (index : nat) (acc : R) : R :=
    match l with
    | [] => acc
    | item :: rest => go rest (S index) (body acc index item)
    end.

(** [for (const key in o) acc = body(acc, key, o[key])] over own
    properties. *)
Definition for_in {R} (body : R -> string -> value -> R)
    (props : list (string * value)) (init : R) : R :=
  fold_left (fun acc kv => body acc kv.1 kv.2) props init.

Fixpoint deepClonePolyfill (source : value) : value :=
  match source with
  | VArr items => VArr (map deepClonePolyfill items)
  | VObj props =>
      for_in (fun clonedObject key v => set_prop clonedObject key (deepClonePolyfill v))
        props (VObj [])
  | _ => source
  end.

(** The platform's [structuredClone]: a deep copy of data; it raises
    [DataCloneError] ([None]) on a value that holds a callable. *)
Fixpoint structuredClone (source : value) : option value :=
  match source with
  | VFun _ => None
  | VArr items => VArr <$> mapM structuredClone items
  | VObj props =>
      VObj <$> mapM (fun kv => copy ← structuredClone kv.2; Some (kv.1, copy)) props
  | _ => Some source
  end.

(** [has_structuredClone] is [typeof structuredClone === "function"]. *)
Definition deepClone (has_structuredClone : bool) (source : value) : value :=
  if has_structuredClone then
    match structuredClone source with
    | Some copy => copy
    | None => deepClonePolyfill source
    end
  else deepClonePolyfill source.

(** [a === b] where it is decided by value: primitives, and callables by
    identity.  Two object values are [===] only when they are one object,
    which also makes the structural comparison below succeed; the
    shortcut does not change the result. *)
Definition strict_eq (a b : value) : bool :=
  match a, b with
  | VUndef, VUndef | VNull, VNull => true
  | VBool x, VBool y => Bool.eqb x y
  | VNum x, VNum y => (x =? y)%float
  | VStr x, VStr y => String.eqb x y
  | VFun f, VFun g => Nat.eqb f g
  | _, _ => false
  end.

Definition is_object (v : value) : bool :=
  negb (is_nullish v) && jstype_eqb (typeof v) TObject.

(** The property loop runs over the own properties of [source], each
    with its value [sourceObj[key]]. *)
Fixpoint deepEqual (source destination : value) : bool :=
  if strict_eq source destination then true
  else if negb (is_object source) || negb (is_object destination) then false
  else
    match source, destination with
    | VArr src, VArr dst =>
        if negb (length src =? length dst)%nat then false
        else every (fun item index => deepEqual item (default VUndef (dst !! index))) src
    | VArr src, _ =>
        let destinationKeys := keys destination in
        if negb (length src =? length destinationKeys)%nat then false
        else every (fun item index =>
                      includes (index_key index) destinationKeys
                      && deepEqual item (get_prop destination (index_key index))) src
    | VObj src, _ =>
        let destinationKeys := keys destination in
        if negb (length src =? length destinationKeys)%nat then false
        else forallb (fun kv =>
                        includes kv.1 destinationKeys
                        && deepEqual kv.2 (get_prop destination kv.1)) src
    | _, _ => false
    end.

Definition isPlainObject (v : value) : bool :=
  match v with VObj _ => true | _ => false end.

(** One turn of the loop of [deepMerge]; [merge] is the recursive call
    on this property's value. *)
Definition merge_step (merge : value -> value) (result : value)
    (key : string) (sourceValue : value) : value :=
  let targetValue := get_prop result key in
  match sourceValue with
  | VUndef => result
  | _ =>
      if isPlainObject targetValue && isPlainObject sourceValue
      then set_prop result key (merge targetValue)
      else set_prop result key sourceValue
  end.

(** [target] is a record at every call in the program. *)
Fixpoint deepMerge (hsc : bool) (target source : value) : value :=
  match source with
  | VUndef | VNull => target
  | VObj props =>
      for_in (fun result key sourceValue =>
                merge_step (fun targetValue => deepMerge hsc targetValue sourceValue)
                  result key sourceValue)
        props (deepClone hsc target)
  | VArr items =>
      for_index (fun result index sourceValue =>
                   merge_step (fun targetValue => deepMerge hsc targetValue sourceValue)
                     result (index_key index) sourceValue)
        items 0%nat (deepClone hsc target)
  | VStr text =>
      for_index (fun result index c =>
                   set_prop result (index_key index) (VStr (String c EmptyString)))
        (String.list_ascii_of_string text) 0%nat (deepClone hsc target)
  | _ => deepClone hsc target
  end.

Definition isNil (v : value) : bool := is_nullish v.

(** ** The platform

    What the code takes from its environment: whether [structuredClone]
    exists, what a callable does to the draft it is given (the draft
    afterwards, and the value returned), the JSON codec, and the
    properties an object has without listing them among its keys:
    [hidden o k] is what [o[k]] gives when [k] is not an own enumerable
    property of [o] but is one of its properties all the same, not
    enumerable or taken from its prototype ([toString] and [constructor]
    on every object); the [length] of a sequence is read from the
    sequence. *)

Record Platform := {
  has_structuredClone : bool;
  call : nat -> value -> value * value;
  JSON_parse : string -> option value;
  JSON_stringify : value -> string;
  hidden : value -> string -> option value
}.

(** A computation that may raise. *)
Inductive outcome (A : Type) : Type :=
| Ok (a : A)
| Throw.
Arguments Ok {A} a.
Arguments Throw {A}.

#[global] Instance outcome_bind : MBind outcome :=
  fun A B k m => match m with Ok a => k a | Throw => Throw end.

(** [try { body } catch { handler }]. *)
Definition try_catch {A} (body : outcome A) (handler : outcome A) : outcome A :=
  match body with Ok a => Ok a | Throw => handler end.

(** [localStorage]: the slots, and whether access is refused. *)
Record LocalStorage := {
  slots : gmap string string;
  read_denied : bool;
  write_denied : bool
}.

Definition getItem (ls : LocalStorage) (k : string) : outcome (option string) :=
  if read_denied ls then Throw else Ok (slots ls !! k).

Definition setItem (ls : LocalStorage) (k s : string) : outcome LocalStorage :=
  if write_denied ls then Throw
  else Ok {| slots := <[k := s]> (slots ls);
             read_denied := read_denied ls; write_denied := write_denied ls |}.

(** [k in o]: true of the properties [o] lists and of those it hides; a
    [TypeError] on anything that is not an object. *)
Definition has_in (P : Platform) (k : string) (o : value) : outcome bool :=
  match o with
  | VObj _ | VArr _ | VFun _ =>
      Ok (includes k (keys o) || (isArray o && String.eqb k "length")
          || match hidden P o k with Some _ => true | None => false end)
  | _ => Throw
  end.

(** [o[k]], hidden properties included. *)
Definition get (P : Platform) (o : value) (k : string) : value :=
  if includes k (keys o) || (isArray o && String.eqb k "length") then get_prop o k
  else match hidden P o k with
       | Some v => v
       | None => VUndef
       end.

(** The properties an object spread [{...v}] copies. *)
Definition spread_props (v : value) : list (string * value) :=
  match v with
  | VStr s => imap (fun i c => (index_key i, VStr (String c EmptyString))) (String.list_ascii_of_string s)
  | _ => own_props v
  end.

(** [{...a, ...b}]. *)
Definition spread2 (a b : value) : value :=
  VObj (fold_left (fun acc kv => assoc_set kv.1 kv.2 acc)
          (spread_props a ++ spread_props b) []).

(** ** The context-scoped store ([src/providers/context.provider.tsx]) *)

Record ContextStoreOption := {
  reducer : option (value -> value -> value);
  persistKey : option string;
  persistFields : list string
}.

(** [!persistKey] is false exactly on a non-empty string. *)
Definition usable_key (k : option string) : option string :=
  match k with
  | Some s => if String.eqb s EmptyString then None else Some s
  | None => None
  end.

Definition hasPersistFields (opt : ContextStoreOption) : bool :=
  negb (length (persistFields opt) =? 0)%nat.

(** [persistFields.reduce((acc, key) => { if (key in from) acc[key] =
    from[key]; return acc }, {})]. *)
Fixpoint pick_fields (P : Platform) (fields : list string) (from acc : value)
  : outcome value :=
  match fields with
  | [] => Ok acc
  | key :: rest =>
      present ← has_in P key from;
      pick_fields P rest from
        (if (present : bool) then set_prop acc key (get P from key) else acc)
  end.

Definition loadState (P : Platform) (opt : ContextStoreOption)
    (initialState : value) (ls : LocalStorage) : outcome value :=
  match usable_key (persistKey opt) with
  | None => Ok initialState
  | Some key =>
      try_catch
        (stored ← getItem ls key;
         match stored with
         | None => Ok initialState
         | Some text =>
             if String.eqb text EmptyString then Ok initialState
             else
               match JSON_parse P text with
               | None => Throw
               | Some parsed =>
                   if hasPersistFields opt then
                     partialState ← pick_fields P (persistFields opt) parsed (VObj []);
                     Ok (spread2 initialState partialState)
                   else Ok (spread2 initialState parsed)
               end
         end)
        (Ok initialState)
  end.

Inductive effect :=
| Written (key payload : string)
| Warned
| Notified (callback : nat).

Record ContextStore := {
  current : value;
  subscribers : list nat;
  localStorage : LocalStorage;
  effects : list effect
}.

(** [saveState]: the storage afterwards and the effects, oldest first. *)
Definition saveState (P : Platform) (opt : ContextStoreOption) (state : value)
    (ls : LocalStorage) : LocalStorage * list effect :=
  match usable_key (persistKey opt) with
  | None => (ls, [])
  | Some key =>
      let write payload : outcome (LocalStorage * list effect) :=
        (ls' ← setItem ls key payload; Ok (ls', [Written key payload])) in
      let body :=
        let isObjectState := jstype_eqb (typeof state) TObject && negb (is_nullish state) in
        if negb isObjectState then write (JSON_stringify P state)
        else if negb (hasPersistFields opt) then write (JSON_stringify P state)
        else
          (persistObject ← pick_fields P (persistFields opt) state (VObj []);
           write (JSON_stringify P persistObject)) in
      match body with
      | Ok r => r
      | Throw => (ls, [Warned])
      end
  end.

Definition useContextStoreData (P : Platform) (opt : ContextStoreOption)
    (initialState : value) (ls : LocalStorage) : outcome ContextStore :=
  loaded ← loadState P opt initialState ls;
  Ok {| current := loaded; subscribers := []; localStorage := ls; effects := [] |}.

Definition is_primitive_state (v : value) : bool :=
  negb (jstype_eqb (typeof v) TObject) || strict_eq v VNull.

(** The candidate next value of [set].  The reducer gives the draft as
    it leaves it; [type] is no name an object takes from its prototype,
    and ["type" in update] is a test of the keys of [update]. *)
Definition ctx_nextState (P : Platform) (opt : ContextStoreOption)
    (cur update : value) : value :=
  match update with
  | VFun f =>
      if is_primitive_state cur then (call P f cur).2
      else (call P f (deepClone (has_structuredClone P) cur)).1
  | _ =>
      match reducer opt with
      | Some reduce =>
          if truthy update && jstype_eqb (typeof update) TObject
             && includes "type" (keys update)
          then reduce (deepClone (has_structuredClone P) cur) update
          else if truthy update && jstype_eqb (typeof update) TObject
             && negb (isArray update) && truthy cur
             && jstype_eqb (typeof cur) TObject && negb (isArray cur)
          then deepMerge (has_structuredClone P) cur update
          else update
      | None =>
          if truthy update && jstype_eqb (typeof update) TObject
             && negb (isArray update) && truthy cur
             && jstype_eqb (typeof cur) TObject && negb (isArray cur)
          then deepMerge (has_structuredClone P) cur update
          else update
      end
  end.

Definition set (P : Platform) (opt : ContextStoreOption) (s : ContextStore)
    (update : value) : ContextStore :=
  let nextState := ctx_nextState P opt (current s) update in
  if negb (deepEqual (current s) nextState) then
    let '(ls, saved) := saveState P opt nextState (localStorage s) in
    {| current := nextState;
       subscribers := subscribers s;
       localStorage := ls;
       effects := effects s ++ saved ++ map Notified (subscribers s) |}
  else s.

(** [subscribers.add(callback)]: a set. *)
Definition ctx_subscribe (s : ContextStore) (callback : nat) : ContextStore :=
  {| current := current s;
     subscribers := if decide (callback ∈ subscribers s) then subscribers s
                    else subscribers s ++ [callback];
     localStorage := localStorage s;
     effects := effects s |}.

(** ** The singleton store with history ([createDataStore]) *)

Definition MAX_HISTORY : Z := 100.

(** The delay given to [setTimeout]. *)
Definition DEBOUNCE : nat := 200.

(** The variables of the closure.  [pushHistoryDebouncedTimeout] is the
    pending timer: the time left before it fires and the
    [latestVersion] its callback captured; [None] when none is pending
    (a handle that has fired is cleared to no effect).  [listeners] is
    the set [subscribers]; [frames] counts the animation frames asked
    for by [notifySubscribers]. *)
Record DataStore := {
  store : value;
  history : list value;
  currentIndex : float;
  pushHistoryDebouncedTimeout : option (nat * value);
  listeners : list nat;
  frames : nat
}.

Definition createDataStore (P : Platform) (initialState : value) : DataStore :=
  let store0 := deepClone (has_structuredClone P) initialState in
  {| store := store0;
     history := [deepClone (has_structuredClone P) store0];
     currentIndex := 0;
     pushHistoryDebouncedTimeout := None;
     listeners := [];
     frames := 0 |}.

Definition getStore (s : DataStore) : value := store s.

(** [notifySubscribers] asks for one animation frame, in which every
    subscriber is called. *)
Definition notifySubscribers (s : DataStore) : DataStore :=
  {| store := store s; history := history s; currentIndex := currentIndex s;
     pushHistoryDebouncedTimeout := pushHistoryDebouncedTimeout s;
     listeners := listeners s; frames := S (frames s) |}.

(** The candidate next value of [setStore]. *)
Definition nextState (P : Platform) (cur update : value) : value :=
  match update with
  | VFun f =>
      if negb (jstype_eqb (typeof cur) TObject) then (call P f cur).2
      else
        let '(draft, result) := call P f (deepClone (has_structuredClone P) cur) in
        match result with
        | VUndef => draft
        | _ => result
        end
  | _ =>
      if truthy update && jstype_eqb (typeof update) TObject
         && negb (isArray update) && truthy cur
         && jstype_eqb (typeof cur) TObject && negb (isArray cur)
      then deepMerge (has_structuredClone P) cur update
      else update
  end.

Definition setStore (P : Platform) (s : DataStore) (update : value) : DataStore :=
  let next := nextState P (store s) update in
  if negb (deepEqual (store s) next) then
    let latestVersion := deepClone (has_structuredClone P) next in
    notifySubscribers
      {| store := next; history := history s; currentIndex := currentIndex s;
         pushHistoryDebouncedTimeout := Some (DEBOUNCE, latestVersion);
         listeners := listeners s; frames := frames s |}
  else s.

(** [history[i]]: [undefined] unless [i] names an element. *)
Definition at_index (h : list value) (i : float) : value :=
  match array_index i with
  | Some z => default VUndef (h !! Z.to_nat z)
  | None => VUndef
  end.

(** [history.splice(start)]: what is left of the array. *)
Definition splice_from {A} (start : float) (h : list A) : list A :=
  match ToIntegerOrInfinity start with
  | MinusInfinity => []
  | PlusInfinity => h
  | Integer z =>
      if z <? 0 then take (Z.to_nat (Z.max (Z.of_nat (length h) + z) 0)) h
      else take (Z.to_nat z) h
  end.

(** The body of the debounce timer's callback.  The length of an array
    is an integer below 2^32, where the arithmetic of numbers is exact:
    [history.length - 1] is the number of the integer. *)
Definition pushHistory (latestVersion : value) (s : DataStore) : DataStore :=
  let h1 := splice_from (currentIndex s + 1) (history s) ++ [latestVersion] in
  let i1 := Number (Z.of_nat (length h1) - 1) in
  let '(h2, i2) := if Z.of_nat (length h1) >? MAX_HISTORY then (tail h1, (i1 - 1)%float)
                   else (h1, i1) in
  {| store := store s; history := h2; currentIndex := i2;
     pushHistoryDebouncedTimeout := None;
     listeners := listeners s; frames := frames s |}.

(** [d] units of time pass with no call: the pending timer fires once
    its delay has run out. *)
Definition elapse (d : nat) (s : DataStore) : DataStore :=
  match pushHistoryDebouncedTimeout s with
  | None => s
  | Some (remaining, latestVersion) =>
      if (remaining <=? d)%nat then pushHistory latestVersion s
      else {| store := store s; history := history s; currentIndex := currentIndex s;
              pushHistoryDebouncedTimeout := Some ((remaining - d)%nat, latestVersion);
              listeners := listeners s; frames := frames s |}
  end.

Definition rollbackTo (P : Platform) (s : DataStore) (versionIndex : float) : DataStore :=
  if (0 <=? versionIndex)%float
     && (versionIndex <? Number (Z.of_nat (length (history s))))%float then
    notifySubscribers
      {| store := deepClone (has_structuredClone P) (at_index (history s) versionIndex);
         history := history s; currentIndex := versionIndex;
         pushHistoryDebouncedTimeout := pushHistoryDebouncedTimeout s;
         listeners := listeners s; frames := frames s |}
  else s.

Definition undo (P : Platform) (s : DataStore) : DataStore :=
  if (0 <? currentIndex s)%float then
    let i := (currentIndex s - 1)%float in
    notifySubscribers
      {| store := deepClone (has_structuredClone P) (at_index (history s) i);
         history := history s; currentIndex := i;
         pushHistoryDebouncedTimeout := pushHistoryDebouncedTimeout s;
         listeners := listeners s; frames := frames s |}
  else s.

Definition redo (P : Platform) (s : DataStore) : DataStore :=
  if (currentIndex s <? Number (Z.of_nat (length (history s)) - 1))%float then
    let i := (currentIndex s + 1)%float in
    notifySubscribers
      {| store := deepClone (has_structuredClone P) (at_index (history s) i);
         history := history s; currentIndex := i;
         pushHistoryDebouncedTimeout := pushHistoryDebouncedTimeout s;
         listeners := listeners s; frames := frames s |}
  else s.

Definition resetStore (P : Platform) (initialState : value) (s : DataStore) : DataStore :=
  notifySubscribers
    {| store := deepClone (has_structuredClone P) initialState;
       history := [deepClone (has_structuredClone P) initialState];
       currentIndex := 0;
       pushHistoryDebouncedTimeout := pushHistoryDebouncedTimeout s;
       listeners := listeners s; frames := frames s |}.

Definition getHistory (P : Platform) (s : DataStore) : list value :=
  map (deepClone (has_structuredClone P)) (history s).

Definition getCurrentVersion (s : DataStore) : float := currentIndex s.

Definition subscribe (s : DataStore) (callback : nat) : DataStore :=
  {| store := store s; history := history s; currentIndex := currentIndex s;
     pushHistoryDebouncedTimeout := pushHistoryDebouncedTimeout s;
     listeners := if decide (callback ∈ listeners s) then listeners s
                  else listeners s ++ [callback];
     frames := frames s |}.

(** ** Runs of the singleton store *)

(** The calls of a run. *)
Inductive op :=
| OpSetStore (update : value)
| OpElapse (d : nat)
| OpUndo
| OpRedo
| OpRollbackTo (versionIndex : float)
| OpResetStore.

Definition apply_op (P : Platform) (initialState : value) (s : DataStore) (o : op)
  : DataStore :=
  match o with
  | OpSetStore update => setStore P s update
  | OpElapse d => elapse d s
  | OpUndo => undo P s
  | OpRedo => redo P s
  | OpRollbackTo versionIndex => rollbackTo P s versionIndex
  | OpResetStore => resetStore P initialState s
  end.

Definition run (P : Platform) (initialState : value) (ops : list op) : DataStore :=
  fold_left (apply_op P initialState) ops (createDataStore P initialState).

(** A burst: each change comes [gap] after the one before it. *)
Fixpoint burst (P : Platform) (s : DataStore) (changes : list (nat * value)) : DataStore :=
  match changes with
  | [] => s
  | (gap, update) :: rest => burst P (setStore P (elapse gap s) update) rest
  end.

(** Every change of the burst is accepted and falls inside the debounce
    window of the one before. *)
Fixpoint accepted_burst (P : Platform) (s : DataStore) (changes : list (nat * value))
  : Prop :=
  match changes with
  | [] => True
  | (gap, update) :: rest =>
      (gap < DEBOUNCE)%nat /\
      deepEqual (store s) (nextState P (store s) update) = false /\
      accepted_burst P (setStore P (elapse gap s) update) rest
  end.

(** A platform to compute with: callables return nothing and leave the
    draft alone unless named below. *)
Definition bump_count (draft : value) : value :=
  match get_prop draft "count" with
  | VNum n => set_prop draft "count" (VNum (n + 1)%float)
  | _ => draft
  end.

(** [(store) => (store.columnVisibility = visibility)], the update that
    [src/App.tsx] dispatches: it writes to the draft and returns the
    value assigned. *)
Definition assign_visibility (visibility draft : value) : value * value :=
  (set_prop draft "columnVisibility" visibility, visibility).

Definition demo_call (f : nat) (draft : value) : value * value :=
  match f with
  | 0%nat => (bump_count draft, VUndef)
  | 1%nat => (draft, VObj [("count", VNum 9)])
  | 2%nat => (draft, VNum 7)
  | 3%nat => assign_visibility (VObj [("id", VBool false)]) draft
  | _ => (draft, VUndef)
  end.

Definition demo_parse (text : string) : option value :=
  if String.eqb text "{}" then Some (VObj [])
  else if String.eqb text "7" then Some (VNum 7)
  else None.

(** What every object takes from its prototype, as far as named here. *)
Definition demo_hidden (o : value) (k : string) : option value :=
  match o with
  | VObj _ | VArr _ | VFun _ =>
      if String.eqb k "toString" then Some (VFun 8)
      else if String.eqb k "constructor" then Some (VFun 9)
      else None
  | _ => None
  end.

Definition demo : Platform :=
  {| has_structuredClone := true;
     call := demo_call;
     JSON_parse := demo_parse;
     JSON_stringify := fun _ => "?"%string;
     hidden := demo_hidden |}.

Definition no_options : ContextStoreOption :=
  {| reducer := None; persistKey := None; persistFields := [] |}.

Definition persisted (fields : list string) : ContextStoreOption :=
  {| reducer := None; persistKey := Some "grid"%string; persistFields := fields |}.

Definition storage_with (text : string) : LocalStorage :=
  {| slots := {[ "grid"%string := text ]}; read_denied := false; write_denied := false |}.

(** ** The words of the specification *)

(** "Structurally identical": the same scalar, or sequences of one
    length with identical elements in order, or records with one key set
    and identical values under each key. *)
Definition is_scalar (v : value) : bool :=
  match v with VArr _ | VObj _ => false | _ => true end.

Inductive structurally_identical : value -> value -> Prop :=
| same_scalar v :
    is_scalar v = true -> structurally_identical v v
| same_sequence xs ys :
    Forall2 structurally_identical xs ys ->
    structurally_identical (VArr xs) (VArr ys)
| same_record ps qs :
    (forall k, k ∈ ps.*1 <-> k ∈ qs.*1) ->
    (forall k x y, (k, x) ∈ ps -> (k, y) ∈ qs -> structurally_identical x y) ->
    structurally_identical (VObj ps) (VObj qs).


(** The ways hydration fails: access denied, no slot under the key,
    content that does not parse. *)
Inductive hydration_failure (P : Platform) (opt : ContextStoreOption)
    (ls : LocalStorage) : Prop :=
| access_denied key :
    usable_key (persistKey opt) = Some key ->
    read_denied ls = true ->
    hydration_failure P opt ls
| absent_key key :
    usable_key (persistKey opt) = Some key ->
    read_denied ls = false -> slots ls !! key = None ->
    hydration_failure P opt ls
| malformed_content key text :
    usable_key (persistKey opt) = Some key ->
    read_denied ls = false -> slots ls !! key = Some text ->
    JSON_parse P text = None ->
    hydration_failure P opt ls.

(** ** Predicates on states

    What the theorems of Part II say of the stores. *)

(** The history invariant: at most [MAX_HISTORY] entries, the cursor
    the number of a valid index. *)
Definition history_inv (s : DataStore) : Prop :=
  Z.of_nat (length (history s)) <= MAX_HISTORY /\
  exists i : Z, currentIndex s = Number i /\ 0 <= i < Z.of_nat (length (history s)).

(** [x] is the number of an integer; of the two zeros, the positive
    one. *)
Definition is_integer (x : float) : bool :=
  match ToIntegerOrInfinity x with
  | Integer z => Leibniz.eqb x (Number z)
  | _ => false
  end.

(** Every [rollbackTo] of the run is called at an integer. *)
Definition integer_indices (ops : list op) : bool :=
  forallb (fun o => match o with
                    | OpRollbackTo versionIndex => is_integer versionIndex
                    | _ => true
                    end) ops.

(** A state whose timer was just restarted by an accepted change. *)
Definition just_changed (P : Platform) (s : DataStore) : Prop :=
  pushHistoryDebouncedTimeout s
  = Some (DEBOUNCE, deepClone (has_structuredClone P) (store s)).

Definition is_record_or_sequence (v : value) : bool := isPlainObject v || isArray v.

(** The value a merge of the records [pa] and [pb] leaves under [k]. *)
Definition merged_at (hsc : bool) (pa pb : list (string * value)) (k : string)
  : option value :=
  match assoc k pb with
  | None | Some VUndef => assoc k pa
  | Some sv =>
      Some (if isPlainObject (get_prop (VObj pa) k) && isPlainObject sv
            then deepMerge hsc (get_prop (VObj pa) k) sv else sv)
  end.

(** ** Values by reference

    The same utilities over a heap, where an object value is a reference
    to a cell that can be written to, so that sharing between a value
    and its clone can be stated.  [fuel] bounds the depth of the
    recursion, as the call stack does. *)

Module Heap.

Inductive ref_value : Type :=
| RUndef
| RNull
| RBool (b : bool)
| RNum (n : float)
| RStr (s : string)
| RFun (f : nat)
| RRef (a : nat).

Inductive cell : Type :=
| CArr (items : list ref_value)
| CObj (props : list (string * ref_value)).

Definition children (c : cell) : list ref_value :=
  match c with
  | CArr items => items
  | CObj props => props.*2
  end.

(** A new object: a cell at an address not in use. *)
Definition alloc (h : gmap nat cell) (c : cell) : gmap nat cell * ref_value :=
  let a := fresh (dom h) in (<[a := c]> h, RRef a).

(** [items.map(clone)], threading the heap. *)
Definition clone_items (clone : gmap nat cell -> ref_value -> option (gmap nat cell * ref_value))
  : gmap nat cell -> list ref_value -> option (gmap nat cell * list ref_value) :=
  fix go (h : gmap nat cell) (l : list ref_value) :=
    match l with
    | [] => Some (h, [])
    | x :: rest =>
        match clone h x with
        | None => None
        | Some (h1, x') =>
            match go h1 rest with
            | None => None
            | Some (h2, rest') => Some (h2, x' :: rest')
            end
        end
    end.

(** [for (const key in source) clonedObject[key] = clone(source[key])];
    [acc] holds the properties of [clonedObject] so far. *)
Definition clone_props (clone : gmap nat cell -> ref_value -> option (gmap nat cell * ref_value))
  : gmap nat cell -> list (string * ref_value) -> list (string * ref_value) ->
    option (gmap nat cell * list (string * ref_value)) :=
  fix go (h : gmap nat cell) (l acc : list (string * ref_value)) :=
    match l with
    | [] => Some (h, acc)
    | (key, x) :: rest =>
        match clone h x with
        | None => None
        | Some (h1, x') => go h1 rest (assoc_set key x' acc)
        end
    end.

(** The new object enters the heap once its content is cloned; nothing
    can look at it before [deepClonePolyfill] returns it. *)
Fixpoint deepClonePolyfill (fuel : nat) (h : gmap nat cell) (source : ref_value)
  : option (gmap nat cell * ref_value) :=
  match source with
  | RRef a =>
      match fuel with
      | O => None
      | S fuel' =>
          match h !! a with
          | None => None
          | Some (CArr items) =>
              match clone_items (deepClonePolyfill fuel') h items with
              | None => None
              | Some (h1, items') => Some (alloc h1 (CArr items'))
              end
          | Some (CObj props) =>
              match clone_props (deepClonePolyfill fuel') h props [] with
              | None => None
              | Some (h1, props') => Some (alloc h1 (CObj props'))
              end
          end
      end
  | _ => Some (h, source)
  end.

(** Whether a callable is found within [fuel] levels of [v]. *)
Fixpoint holds_callable (fuel : nat) (h : gmap nat cell) (v : ref_value) : bool :=
  match v with
  | RFun _ => true
  | RRef a =>
      match fuel with
      | O => false
      | S fuel' =>
          match h !! a with
          | None => false
          | Some c => existsb (holds_callable fuel' h) (children c)
          end
      end
  | _ => false
  end.

(** The platform's [structuredClone] on finite data: a deep copy, or
    [DataCloneError] ([None]) when the value holds a callable.  Sharing
    inside the value is not kept. *)
Definition structuredClone (fuel : nat) (h : gmap nat cell) (source : ref_value)
  : option (gmap nat cell * ref_value) :=
  if holds_callable fuel h source then None else deepClonePolyfill fuel h source.

Definition deepClone (has_structuredClone : bool) (fuel : nat) (h : gmap nat cell)
    (source : ref_value) : option (gmap nat cell * ref_value) :=
  if has_structuredClone then
    match structuredClone fuel h source with
    | Some r => Some r
    | None => deepClonePolyfill fuel h source
    end
  else deepClonePolyfill fuel h source.

(** The singleton store: the live value, the entries of the history
    array and the [latestVersion] held by a pending timer are references
    into the heap. *)
Record DataStore := {
  heap : gmap nat cell;
  store : ref_value;
  history : list ref_value;
  currentIndex : float;
  pushHistoryDebouncedTimeout : option ref_value
}.

(** How a call ends; the state is the one it leaves behind. *)
Inductive result :=
| Returned (s : DataStore)
| Raised (s : DataStore).

Definition after (r : result) : DataStore :=
  match r with Returned s | Raised s => s end.

Definition createDataStore (hsc : bool) (fuel : nat) (h : gmap nat cell)
    (initialState : ref_value) : option DataStore :=
  match deepClone hsc fuel h initialState with
  | None => None
  | Some (h1, store0) =>
      match deepClone hsc fuel h1 store0 with
      | None => None
      | Some (h2, first) =>
          Some {| heap := h2; store := store0; history := [first];
                  currentIndex := 0; pushHistoryDebouncedTimeout := None |}
      end
  end.

(** [setStore] once its candidate [nextState] is computed and found
    different from the store: the store takes it, and a clone of it
    waits in the restarted timer. *)
Definition acceptState (hsc : bool) (fuel : nat) (s : DataStore)
    (nextState : ref_value) : result :=
  match deepClone hsc fuel (heap s) nextState with
  | None =>
      Raised {| heap := heap s; store := nextState; history := history s;
                currentIndex := currentIndex s;
                pushHistoryDebouncedTimeout := pushHistoryDebouncedTimeout s |}
  | Some (h1, latestVersion) =>
      Returned {| heap := h1; store := nextState; history := history s;
                  currentIndex := currentIndex s;
                  pushHistoryDebouncedTimeout := Some latestVersion |}
  end.

Definition at_index (h : list ref_value) (i : float) : ref_value :=
  match array_index i with
  | Some z => default RUndef (h !! Z.to_nat z)
  | None => RUndef
  end.

Definition pushHistory (latestVersion : ref_value) (s : DataStore) : DataStore :=
  let h1 := splice_from (currentIndex s + 1) (history s) ++ [latestVersion] in
  let i1 := Number (Z.of_nat (length h1) - 1) in
  let '(h2, i2) := if Z.of_nat (length h1) >? MAX_HISTORY then (tail h1, (i1 - 1)%float)
                   else (h1, i1) in
  {| heap := heap s; store := store s; history := h2; currentIndex := i2;
     pushHistoryDebouncedTimeout := None |}.

(** [currentIndex = i; store = deepClone(history[currentIndex])]. *)
Definition moveTo (hsc : bool) (fuel : nat) (s : DataStore) (i : float) : result :=
  match deepClone hsc fuel (heap s) (at_index (history s) i) with
  | None =>
      Raised {| heap := heap s; store := store s; history := history s;
                currentIndex := i;
                pushHistoryDebouncedTimeout := pushHistoryDebouncedTimeout s |}
  | Some (h1, v) =>
      Returned {| heap := h1; store := v; history := history s; currentIndex := i;
                  pushHistoryDebouncedTimeout := pushHistoryDebouncedTimeout s |}
  end.

Definition rollbackTo (hsc : bool) (fuel : nat) (s : DataStore) (versionIndex : float)
  : result :=
  if (0 <=? versionIndex)%float
     && (versionIndex <? Number (Z.of_nat (length (history s))))%float
  then moveTo hsc fuel s versionIndex
  else Returned s.

Definition undo (hsc : bool) (fuel : nat) (s : DataStore) : result :=
  if (0 <? currentIndex s)%float then moveTo hsc fuel s (currentIndex s - 1)
  else Returned s.

Definition redo (hsc : bool) (fuel : nat) (s : DataStore) : result :=
  if (currentIndex s <? Number (Z.of_nat (length (history s)) - 1))%float
  then moveTo hsc fuel s (currentIndex s + 1)
  else Returned s.

Definition resetStore (hsc : bool) (fuel : nat) (initialState : ref_value)
    (s : DataStore) : result :=
  match deepClone hsc fuel (heap s) initialState with
  | None => Raised s
  | Some (h1, v) =>
      let s1 := {| heap := h1; store := v; history := history s;
                   currentIndex := currentIndex s;
                   pushHistoryDebouncedTimeout := pushHistoryDebouncedTimeout s |} in
      match deepClone hsc fuel h1 initialState with
      | None => Raised s1
      | Some (h2, first) =>
          Returned {| heap := h2; store := v; history := [first]; currentIndex := 0;
                      pushHistoryDebouncedTimeout := pushHistoryDebouncedTimeout s |}
      end
  end.

(** [history.map((h) => deepClone(h))]: the state afterwards and the
    array returned. *)
Definition getHistory (hsc : bool) (fuel : nat) (s : DataStore)
  : option (DataStore * ref_value) :=
  match clone_items (deepClone hsc fuel) (heap s) (history s) with
  | None => None
  | Some (h1, copies) =>
      let '(h2, returned) := alloc h1 (CArr copies) in
      Some ({| heap := h2; store := store s; history := history s;
               currentIndex := currentIndex s;
               pushHistoryDebouncedTimeout := pushHistoryDebouncedTimeout s |},
            returned)
  end.

(** [r] stands in [h] for the data value [t], through cells whose
    addresses satisfy [D]. *)
Fixpoint repr_in (D : nat -> Prop) (h : gmap nat cell) (t : value) (r : ref_value) : Prop :=
  match t with
  | VUndef => r = RUndef
  | VNull => r = RNull
  | VBool b => r = RBool b
  | VNum n => r = RNum n
  | VStr s => r = RStr s
  | VFun f => r = RFun f
  | VArr ts =>
      exists a rs, r = RRef a /\ D a /\ h !! a = Some (CArr rs) /\
        (fix all (ts : list value) (rs : list ref_value) : Prop :=
           match ts, rs with
           | [], [] => True
           | t :: ts', r :: rs' => repr_in D h t r /\ all ts' rs'
           | _, _ => False
           end) ts rs
  | VObj ps =>
      exists a rps, r = RRef a /\ D a /\ h !! a = Some (CObj rps) /\
        (fix all (ps : list (string * value)) (rps : list (string * ref_value)) : Prop :=
           match ps, rps with
           | [], [] => True
           | (k, t) :: ps', (k', r) :: rps' => k = k' /\ repr_in D h t r /\ all ps' rps'
           | _, _ => False
           end) ps rps
  end.

Definition repr (h : gmap nat cell) (t : value) (r : ref_value) : Prop :=
  repr_in (fun _ => True) h t r.

(** The cells a value can be followed to. *)
Inductive reach (h : gmap nat cell) : ref_value -> nat -> Prop :=
| reach_here a : reach h (RRef a) a
| reach_step a c r b :
    h !! a = Some c -> r ∈ children c -> reach h r b -> reach h (RRef a) b.

(** The addresses taken between [h] and [h']. *)
Definition new_in (h h' : gmap nat cell) (a : nat) : Prop :=
  (a ∉ dom h) /\ (a ∈ dom h').

(** The code outside the store holds references of its own: those it
    made, and those the store gave it (the live value through a
    selector, the result of [getHistory]).  It can follow references
    from what it holds, write to the cells it gets to, and make new
    ones; it cannot make up an address. *)
Definition known (K : nat -> Prop) (v : ref_value) : Prop :=
  forall a, v = RRef a -> K a.

Definition closed (h : gmap nat cell) (K : nat -> Prop) : Prop :=
  forall a b, K a -> reach h (RRef a) b -> K b.

Record world := {
  state : DataStore;
  outside : nat -> Prop
}.

Definition with_heap (h : gmap nat cell) (s : DataStore) : DataStore :=
  {| heap := h; store := store s; history := history s;
     currentIndex := currentIndex s;
     pushHistoryDebouncedTimeout := pushHistoryDebouncedTimeout s |}.

(** What handing the value [v] out adds to the outside. *)
Definition handing_out (w : world) (s : DataStore) (v : ref_value) : world :=
  {| state := s; outside := fun a => outside w a \/ reach (heap s) v a |}.

(** The states of the store and of what is outside it, from
    [createDataStore] on: in between the calls the outside may rewrite
    the cells it holds and make new ones. *)
Inductive reachable (hsc : bool) (fuel : nat) (initialState : ref_value)
  : world -> Prop :=
| reachable_create h (K : nat -> Prop) s :
    (forall a, K a -> a ∈ dom h) -> closed h K -> known K initialState ->
    createDataStore hsc fuel h initialState = Some s ->
    reachable hsc fuel initialState
      (handing_out {| state := s; outside := K |} s (store s))
| reachable_outside w h' :
    reachable hsc fuel initialState w ->
    (forall a, a ∈ dom (heap (state w)) -> ~ outside w a ->
               h' !! a = heap (state w) !! a) ->
    dom (heap (state w)) ⊆ dom h' ->
    closed h' (fun a => outside w a \/ new_in (heap (state w)) h' a) ->
    reachable hsc fuel initialState
      {| state := with_heap h' (state w);
         outside := fun a => outside w a \/ new_in (heap (state w)) h' a |}
| reachable_setStore w nextState :
    reachable hsc fuel initialState w ->
    known (outside w) nextState ->
    reachable hsc fuel initialState
      {| state := after (acceptState hsc fuel (state w) nextState);
         outside := outside w |}
| reachable_timer w latestVersion :
    reachable hsc fuel initialState w ->
    pushHistoryDebouncedTimeout (state w) = Some latestVersion ->
    reachable hsc fuel initialState
      {| state := pushHistory latestVersion (state w); outside := outside w |}
| reachable_undo w :
    reachable hsc fuel initialState w ->
    let s' := after (undo hsc fuel (state w)) in
    reachable hsc fuel initialState (handing_out w s' (store s'))
| reachable_redo w :
    reachable hsc fuel initialState w ->
    let s' := after (redo hsc fuel (state w)) in
    reachable hsc fuel initialState (handing_out w s' (store s'))
| reachable_rollbackTo w versionIndex :
    reachable hsc fuel initialState w ->
    let s' := after (rollbackTo hsc fuel (state w) versionIndex) in
    reachable hsc fuel initialState (handing_out w s' (store s'))
| reachable_resetStore w :
    reachable hsc fuel initialState w ->
    let s' := after (resetStore hsc fuel initialState (state w)) in
    reachable hsc fuel initialState (handing_out w s' (store s'))
| reachable_getHistory w s' returned :
    reachable hsc fuel initialState w ->
    getHistory hsc fuel (state w) = Some (s', returned) ->
    reachable hsc fuel initialState (handing_out w s' returned).

(** How deep a data value nests. *)
Fixpoint depth (t : value) : nat :=
  match t with
  | VArr ts => S (foldr (fun t acc => Nat.max (depth t) acc) 0%nat ts)
  | VObj ps => S (foldr (fun kt acc => Nat.max (depth kt.2) acc) 0%nat ps)
  | _ => 0%nat
  end.

(** Data that [fuel] levels of recursion can walk. *)
Definition data (fuel : nat) (t : value) : Prop :=
  wf_value t = true /\ (depth t <= fuel)%nat.

(** The data value of a reference that is not to a cell. *)
Definition scalar_of (r : ref_value) : value :=
  match r with
  | RUndef => VUndef
  | RNull => VNull
  | RBool b => VBool b
  | RNum n => VNum n
  | RStr s => VStr s
  | RFun f => VFun f
  | RRef _ => VUndef
  end.

(** [repr_in] on a property: same key, value represented. *)
Definition repr_prop (D : nat -> Prop) (h : gmap nat cell)
    (p : string * value) (rp : string * ref_value) : Prop :=
  p.1 = rp.1 /\ repr_in D h p.2 rp.2.

(** What a correct [clone] gives for the value [t]: it returns, in a
    heap that extends the one it was given, new cells that stand for
    [t]. *)
Definition clones (clone : gmap nat cell -> ref_value -> option (gmap nat cell * ref_value))
    (D : nat -> Prop) (h0 : gmap nat cell) (t : value) : Prop :=
  forall h r, h0 ⊆ h -> repr_in D h0 t r ->
    exists h' r', clone h r = Some (h', r') /\ h ⊆ h' /\ repr_in (new_in h h') h' t r'.

(** A [clone] that, when it returns, returns new cells holding data. *)
Definition returns_data
    (clone : gmap nat cell -> ref_value -> option (gmap nat cell * ref_value))
    (fuel : nat) : Prop :=
  forall h r h' r', clone h r = Some (h', r') ->
    h ⊆ h' /\ exists t, repr_in (new_in h h') h' t r' /\ data fuel t.

(** The cells in use that the outside does not hold. *)
Definition private_of (h : gmap nat cell) (K : nat -> Prop) (a : nat) : Prop :=
  (a ∈ dom h) /\ ~ K a.

(** [r] stands for data in cells the outside does not hold. *)
Definition private_data (fuel : nat) (h : gmap nat cell) (K : nat -> Prop)
    (r : ref_value) : Prop :=
  exists t, repr_in (private_of h K) h t r /\ data fuel t.

(** The outside holds cells in use, and all the cells they lead to. *)
Definition outside_ok (h : gmap nat cell) (K : nat -> Prop) : Prop :=
  (forall a, K a -> a ∈ dom h) /\ closed h K.

(** The invariant of the worlds: the outside holds the live value and
    the initial value; the history entries and the snapshot of a pending
    timer are data in cells it does not hold. *)
Definition world_inv (fuel : nat) (initialState : ref_value) (w : world) : Prop :=
  outside_ok (heap (state w)) (outside w) /\
  known (outside w) (store (state w)) /\
  known (outside w) initialState /\
  Forall (private_data fuel (heap (state w)) (outside w)) (history (state w)) /\
  (forall latestVersion,
     pushHistoryDebouncedTimeout (state w) = Some latestVersion ->
     private_data fuel (heap (state w)) (outside w) latestVersion).

(** A world to compute with: the outside holds one record, the store
    is made from it. *)
Definition demo_heap : gmap nat cell := {[ 0%nat := CObj [("count", RNum 5)] ]}.

Definition demo_world : world :=
  match createDataStore true 2 demo_heap (RRef 0) with
  | Some s => handing_out {| state := s; outside := fun a => a = 0%nat |} s (store s)
  | None => {| state := {| heap := demo_heap; store := RRef 0; history := [];
                           currentIndex := 0; pushHistoryDebouncedTimeout := None |};
               outside := fun a => a = 0%nat |}
  end.

End Heap.

(** ** More of the utilities ([src/utils/object.util.ts],
    [src/utils/string.util.ts]) *)








(** A [Set] of strings, in insertion order. *)
Definition set_add (c : string) (s : list string) : list string :=
  if decide (c ∈ s) then s else s ++ [c].

Definition set_delete (c : string) (s : list string) : list string :=
  filter (fun x => x <> c) s.

(** The loop of [clsx] over the entries of a record: it stops at the
    first value that is not a boolean. *)
Fixpoint class_entries (entries : list (string * value)) (classListSet : list string)
  : list string :=
  match entries with
  | (classKey, VBool classValue) :: rest =>
      class_entries rest (if classValue then set_add classKey classListSet
                          else set_delete classKey classListSet)
  | _ => classListSet
  end.

(** One turn of the outer loop of [clsx]; [trim] is the platform's
    [String.prototype.trim]. *)
Fixpoint class_of (trim : string -> string) (className : value)
    (classListSet : list string) : list string :=
  match className with
  | VStr s => set_add s classListSet
  | VArr items =>
      set_add (trim (String.concat " "
                       (fold_left (fun acc c => class_of trim c acc) items [])))
        classListSet
  | VObj props => class_entries props classListSet
  | _ => classListSet
  end.

(** The set when the loop of [clsx] ends. *)
Definition classListSet (trim : string -> string) (classList : list value)
  : list string :=
  fold_left (fun acc c => class_of trim c acc) classList [].

Definition clsx (trim : string -> string) (classList : list value) : string :=
  trim (String.concat " " (classListSet trim classList)).

(** What a flat list of arguments says of class names, in the order
    [clsx] reads it: a string names a class, an entry of a record
    switches one on or off; the entries of a record count up to the
    first value that is not a boolean. *)
Fixpoint read_entries (entries : list (string * value)) : list (string * bool) :=
  match entries with
  | (classKey, VBool classValue) :: rest => (classKey, classValue) :: read_entries rest
  | _ => []
  end.

Definition mentions (classList : list value) : list (string * bool) :=
  flat_map (fun className =>
              match className with
              | VStr s => [(s, true)]
              | VObj props => read_entries props
              | _ => []
              end) classList.

(** The last thing said of the class [c], if anything. *)
Fixpoint last_mention (c : string) (said : list (string * bool)) : option bool :=
  match said with
  | [] => None
  | (c', on) :: rest =>
      match last_mention c rest with
      | Some later => Some later
      | None => if String.eqb c c' then Some on else None
      end
  end.

(** The set after a list of mentions. *)
Definition after_mentions (said : list (string * bool)) (s : list string) : list string :=
  fold_left (fun acc (m : string * bool) =>
               if m.2 then set_add m.1 acc else set_delete m.1 acc) said s.

Definition is_flat (className : value) : bool := negb (isArray className).

(** ** More of the context-scoped store *)

(** The value [saveState] serialises: the state itself, or for a state
    that is an object under a non-empty [persistFields], the record of
    the listed properties it has. *)
Definition persistObject (P : Platform) (opt : ContextStoreOption) (state : value)
  : outcome value :=
  if jstype_eqb (typeof state) TObject && negb (is_nullish state) && hasPersistFields opt
  then pick_fields P (persistFields opt) state (VObj [])
  else Ok state.

(** The function [subscribe] returns: [subscribers.delete(callback)]. *)
Definition ctx_unsubscribe (s : ContextStore) (callback : nat) : ContextStore :=
  {| current := current s;
     subscribers := filter (fun c => c <> callback) (subscribers s);
     localStorage := localStorage s;
     effects := effects s |}.

(** The snapshot function that [useContextStore] and [useDataStore] give
    to [useSyncExternalStore]: [lastSelected] is [lastSelectedRef.current]
    before the call; the value returned is also the one the ref holds
    afterwards. *)
Definition getSnapshot (selector : value -> value) (lastSelected state : value)
  : value :=
  let selected := selector state in
  if negb (deepEqual lastSelected selected) then selected else lastSelected.

(** ** More of the singleton store *)

(** What the handler of [registerShortcuts] reads of a [keydown]
    event. *)
Record KeyboardEvent := {
  key : string;
  ctrlKey : bool;
  metaKey : bool;
  shiftKey : bool
}.

(** [toLowerCase] on the letters A to Z; other characters are left as
    they are, which no comparison with a lower-case ASCII letter can
    tell from the full mapping. *)
Definition lower (c : Ascii.ascii) : Ascii.ascii :=
  let n := Ascii.nat_of_ascii c in
  if (65 <=? n)%nat && (n <=? 90)%nat then Ascii.ascii_of_nat (n + 32) else c.

Fixpoint toLowerCase (s : string) : string :=
  match s with
  | EmptyString => EmptyString
  | String c rest => String (lower c) (toLowerCase rest)
  end.

(** The [keydown] handler: the store afterwards, and whether
    [preventDefault] was called. *)
Definition handler (P : Platform) (s : DataStore) (event : KeyboardEvent)
  : DataStore * bool :=
  let key := toLowerCase (key event) in
  let isUndo := (ctrlKey event || metaKey event) && String.eqb key "z"
                && negb (shiftKey event) in
  let isRedo := (ctrlKey event || metaKey event)
                && ((String.eqb key "z" && shiftKey event) || String.eqb key "y") in
  let '(s1, prevented) := if isUndo then (undo P s, true) else (s, false) in
  if isRedo then (redo P s1, true) else (s1, prevented).

(** ** Paging ([fetchData], and the query of the table component) *)

(** [l.slice(start, end)]. *)
Definition slice {A} (start finish : Z) (l : list A) : list A :=
  let len := Z.of_nat (length l) in
  let k := if start <? 0 then Z.max (len + start) 0 else Z.min start len in
  let final := if finish <? 0 then Z.max (len + finish) 0 else Z.min finish len in
  take (Z.to_nat (Z.max (final - k) 0)) (drop (Z.to_nat k) l).

Record PageData := {
  data : list value;
  totalRowCount : Z
}.

(** [fetchData]: [response] is what the request and its decoding give,
    [sort_rows sort l] the array as [l.sort] leaves it under the
    comparator built from the column sort [sort]. *)
Definition fetchData (response : outcome (list value))
    (sort_rows : value -> list value -> list value)
    (start size : Z) (sorting : list value) : outcome PageData :=
  try_catch
    (fetched ← response;
     let sorted := match sorting with
                   | [] => fetched
                   | sort :: _ => sort_rows sort fetched
                   end in
     Ok {| data := slice start (start + size) sorted;
           totalRowCount := Z.of_nat (length sorted) |})
    Throw.

(** The [queryFn] of the table: page [pageParam] starts at
    [pageParam * fetchSize]. *)
Definition queryFn (fetchFn : Z -> Z -> list value -> outcome PageData)
    (fetchSize : Z) (sorting : list value) (pageParam : Z) : outcome PageData :=
  fetchFn (pageParam * fetchSize) fetchSize sorting.

(** [fetchNextPage] under [getNextPageParam: (_, groups) =>
    groups.length]: the next page is asked for under the number of pages
    held, and joins them when the request succeeds. *)
Definition fetchNextPage (fetchFn : Z -> Z -> list value -> outcome PageData)
    (fetchSize : Z) (sorting : list value) (pages : list PageData) : list PageData :=
  match queryFn fetchFn fetchSize sorting (Z.of_nat (length pages)) with
  | Ok page => pages ++ [page]
  | Throw => pages
  end.

Definition flatData (pages : list PageData) : list value :=
  flat_map data pages.

Definition totalDBRowCount (pages : list PageData) : Z :=
  match pages with
  | [] => 0
  | first :: _ => totalRowCount first
  end.

(** The last condition of [fetchMoreOnBottomReached]. *)
Definition more_to_fetch (pages : list PageData) : bool :=
  Z.of_nat (length (flatData pages)) <? totalDBRowCount pages.

(** ** A platform whose codec knows one document *)

Definition one_document (document : value) : Platform :=
  {| has_structuredClone := true;
     call := fun _ draft => (draft, VUndef);
     JSON_parse := fun text => if String.eqb text "#" then Some document else None;
     JSON_stringify := fun _ => "#"%string;
     hidden := demo_hidden |}.

(* ===================================================================== *)
(** * Part II — theorems                                                   *)
(* ===================================================================== *)
(** ** Numbers *)

Lemma digits2_size p : digits2_pos p = Pos.size p.
Proof. induction p as [p IH|p IH|]; simpl; by rewrite ?IH. Qed.

Lemma size_iter_xO k p :
  Pos.to_nat (Pos.size (Nat.iter k xO p)) = (Pos.to_nat (Pos.size p) + k)%nat.
Proof.
  induction k as [|k IH]; simpl; [lia|]. rewrite Pos2Nat.inj_succ, IH. lia.
Qed.

Lemma size_iter_div2 k p :
  (k < Pos.to_nat (Pos.size p))%nat ->
  Pos.to_nat (Pos.size (Nat.iter k Pos.div2 p)) = (Pos.to_nat (Pos.size p) - k)%nat.
Proof.
  induction k as [|k IH]; intros Hk; simpl; [lia|].
  specialize (IH ltac:(lia)).
  destruct (Nat.iter k Pos.div2 p) as [q|q|]; simpl in *;
    rewrite ?Pos2Nat.inj_succ in IH; lia.
Qed.

Lemma binary_valid s p : valid_binary (binary s p) = true.
Proof.
  unfold binary.
  destruct (Pos.leb_spec (Pos.size p) 53) as [Hsmall|Hbig]; simpl.
  - unfold bounded, canonical_mantissa, fexp, FloatOps.emin, SpecFloat.emin, prec, emax.
    rewrite digits2_size.
    pose proof (size_iter_xO (53 - Pos.to_nat (Pos.size p)) p) as Hsize.
    apply andb_true_iff. split; [apply Z.eqb_eq|apply Z.leb_le]; lia.
  - destruct (Pos.leb_spec (Pos.size p) 1024) as [Hmid|Hhuge]; simpl; [|done].
    unfold bounded, canonical_mantissa, fexp, FloatOps.emin, SpecFloat.emin, prec, emax.
    rewrite digits2_size.
    pose proof (size_iter_div2 (Pos.to_nat (Pos.size p) - 53) p ltac:(lia)) as Hsize.
    apply andb_true_iff. split; [apply Z.eqb_eq|apply Z.leb_le]; lia.
Qed.

Lemma Prim2SF_Number z :
  Prim2SF (Number z) = match z with
                       | Z0 => S754_zero false
                       | Zpos p => binary false p
                       | Zneg p => binary true p
                       end.
Proof.
  destruct z as [|p|p]; simpl; [reflexivity| |]; apply Prim2SF_SF2Prim, binary_valid.
Qed.

(** The number of an integer has no binary digit below the units. *)
Lemma Number_exponent z s m e :
  Prim2SF (Number z) = S754_finite s m e -> e < -52 -> False.
Proof.
  rewrite Prim2SF_Number. destruct z as [|p|p]; [done| |]; unfold binary;
    repeat (destruct (_ <=? _)%positive); try done; intros [= _ _ <-]; lia.
Qed.

Lemma size_small p : (Z.pos p < 128 <-> Z.pos (Pos.size p) <= 7).
Proof.
  pose proof (Pos.size_gt p) as Hgt. pose proof (Pos.size_le p) as Hle.
  split; intros H.
  - destruct (Z_le_gt_dec (Z.pos (Pos.size p)) 7) as [|Hbig]; [done|].
    assert (2 ^ 8 <= 2 ^ Z.pos (Pos.size p)) by (apply Z.pow_le_mono_r; lia).
    rewrite <- Pos2Z.inj_pow in *. lia.
  - assert (2 ^ Z.pos (Pos.size p) <= 2 ^ 7) by (apply Z.pow_le_mono_r; lia).
    rewrite <- Pos2Z.inj_pow in *. lia.
Qed.

(** A table of truths over a range of integers, filled by computation. *)
Lemma by_table (check : Z -> bool) (lo hi : Z) :
  forallb check (map (fun k => lo + Z.of_nat k) (seq 0 (Z.to_nat (hi - lo + 1)))) = true ->
  forall i, lo <= i <= hi -> check i = true.
Proof.
  intros Hall i Hi. rewrite forallb_forall in Hall. apply Hall.
  apply in_map_iff. exists (Z.to_nat (i - lo)). split; [lia|].
  apply in_seq. lia.
Qed.

Lemma number_eq x y : Leibniz.eqb x y = true -> x = y.
Proof. apply Leibniz.eqb_spec. Qed.


Lemma Number_succ i : -1 <= i <= 101 -> (Number i + 1)%float = Number (i + 1).
Proof.
  intros Hi. apply number_eq.
  apply (by_table (fun i => Leibniz.eqb (Number i + 1)%float (Number (i + 1))) (-1) 101);
    [vm_compute; reflexivity|done].
Qed.

Lemma Number_pred i : 0 <= i <= 102 -> (Number i - 1)%float = Number (i - 1).
Proof.
  intros Hi. apply number_eq.
  apply (by_table (fun i => Leibniz.eqb (Number i - 1)%float (Number (i - 1))) 0 102);
    [vm_compute; reflexivity|done].
Qed.

Lemma array_index_Number i : 0 <= i <= 102 -> array_index (Number i) = Some i.
Proof.
  intros Hi.
  pose proof (by_table (fun i => match array_index (Number i) with
                                 | Some j => j =? i
                                 | None => false
                                 end) 0 102 ltac:(vm_compute; reflexivity) i Hi) as H.
  cbv beta in H. destruct (array_index (Number i)) as [j|]; [|done]. by apply Z.eqb_eq in H as ->.
Qed.

Lemma ToIntegerOrInfinity_Number i :
  -2 <= i <= 102 -> ToIntegerOrInfinity (Number i) = Integer i.
Proof.
  intros Hi.
  pose proof (by_table (fun i => match ToIntegerOrInfinity (Number i) with
                                 | Integer j => j =? i
                                 | _ => false
                                 end) (-2) 102 ltac:(vm_compute; reflexivity) i Hi) as H.
  cbv beta in H. destruct (ToIntegerOrInfinity (Number i)) as [j| |]; try done.
  by apply Z.eqb_eq in H as ->.
Qed.

Lemma Number_ltb_small a b :
  0 <= a <= 127 -> 0 <= b <= 127 -> (Number a <? Number b)%float = (a <? b).
Proof.
  intros Ha Hb.
  pose proof (by_table (fun a => forallb (fun b => Bool.eqb (Number a <? Number b)%float (a <? b))
                                   (map Z.of_nat (seq 0 128))) 0 127
                ltac:(vm_compute; reflexivity) a Ha) as H.
  cbv beta in H. rewrite forallb_forall in H.
  specialize (H b). apply Bool.eqb_prop, H.
  apply in_map_iff. exists (Z.to_nat b). split; [lia|]. apply in_seq. lia.
Qed.

Lemma Number_leb_zero z : (0 <=? Number z)%float = (0 <=? z).
Proof.
  rewrite FloatAxioms.leb_spec, Prim2SF_Number.
  change (Prim2SF 0) with (S754_zero false).
  destruct z as [|p|p]; simpl; try done; unfold binary;
    repeat (destruct (_ <=? _)%positive); done.
Qed.

Lemma Number_ltb_large z n :
  128 <= z -> 0 <= n <= 127 -> (Number z <? Number n)%float = false.
Proof.
  intros Hz Hn. rewrite FloatAxioms.ltb_spec, !Prim2SF_Number.
  destruct z as [|p|p]; try lia.
  assert (7 < Z.pos (Pos.size p)) as Hsize.
  { destruct (Z_le_gt_dec (Z.pos (Pos.size p)) 7) as [Hs|]; [|lia].
    apply size_small in Hs. lia. }
  destruct n as [|q|q]; try lia.
  - unfold binary. by repeat (destruct (_ <=? _)%positive).
  - assert (Z.pos (Pos.size q) <= 7) as Hq by (apply size_small; lia).
    unfold binary.
    destruct (Pos.leb_spec (Pos.size q) 53); [|lia]. unfold SFltb.
    repeat (destruct (_ <=? _)%positive); simpl; try done;
      by replace (_ ?= _) with Gt by (symmetry; apply Z.compare_gt_iff; lia).
Qed.

(** The range test of [rollbackTo] on an integer. *)
Lemma Number_in_range z n :
  0 <= n <= 127 ->
  (0 <=? Number z)%float && (Number z <? Number n)%float = (0 <=? z) && (z <? n).
Proof.
  intros Hn. rewrite Number_leb_zero.
  destruct (Z.leb_spec 0 z) as [Hz|Hz]; [|done]. simpl.
  destruct (Z_lt_ge_dec z 128) as [Hsmall|Hlarge].
  - apply Number_ltb_small; lia.
  - rewrite Number_ltb_large by lia. symmetry. apply Z.ltb_ge. lia.
Qed.

Lemma SFcompare_refl x : SFcompare x x = Some Eq \/ SFcompare x x = None.
Proof.
  destruct x as [s|s| |s m e]; simpl; auto.
  - left. by destruct s.
  - left. rewrite Z.compare_refl, Pos.compare_cont_refl. by destruct s.
Qed.

Lemma number_ltb_irrefl x : (x <? x)%float = false.
Proof.
  rewrite FloatAxioms.ltb_spec. unfold SFltb. by destruct (SFcompare_refl (Prim2SF x)) as [-> | ->].
Qed.

(** [x === x] fails exactly on [NaN]. *)
Lemma number_eqb_refl x : (x =? x)%float = negb (isNaN x).
Proof. unfold isNaN, is_nan. by destruct (x =? x)%float. Qed.


(** ** Induction over nested values *)

Section value_induction.
Variable Q : value -> Prop.
Hypothesis Q_undef : Q VUndef.
Hypothesis Q_null : Q VNull.
Hypothesis Q_bool : forall b, Q (VBool b).
Hypothesis Q_num : forall n, Q (VNum n).
Hypothesis Q_str : forall s, Q (VStr s).
Hypothesis Q_fun : forall f, Q (VFun f).
Hypothesis Q_arr : forall items, Forall Q items -> Q (VArr items).
Hypothesis Q_obj : forall props, Forall (fun kv => Q kv.2) props -> Q (VObj props).

Fixpoint value_nested_ind (v : value) : Q v :=
  match v with
  | VUndef => Q_undef
  | VNull => Q_null
  | VBool b => Q_bool b
  | VNum n => Q_num n
  | VStr s => Q_str s
  | VFun f => Q_fun f
  | VArr items =>
      Q_arr items
        ((fix go (l : list value) : Forall Q l :=
            match l with
            | [] => List.Forall_nil Q
            | x :: r => List.Forall_cons Q x r (value_nested_ind x) (go r)
            end) items)
  | VObj props =>
      Q_obj props
        ((fix go (l : list (string * value)) : Forall (fun kv => Q kv.2) l :=
            match l with
            | [] => List.Forall_nil _
            | kv :: r => List.Forall_cons (fun kv => Q kv.2) kv r (value_nested_ind kv.2) (go r)
            end) props)
  end.
End value_induction.

Lemma wf_value_arr items :
  wf_value (VArr items) = true <-> Forall (fun x => wf_value x = true) items.
Proof. simpl. by rewrite forallb_forall, Forall_forall; setoid_rewrite list_elem_of_In. Qed.

Lemma wf_value_obj props :
  wf_value (VObj props) = true <->
  NoDup props.*1 /\ Forall (fun kv => wf_value kv.2 = true) props.
Proof.
  simpl. rewrite andb_true_iff, bool_decide_eq_true, forallb_forall, Forall_forall.
  by setoid_rewrite list_elem_of_In.
Qed.

Lemma numbers_in_arr ok items :
  numbers_in ok (VArr items) = true <-> Forall (fun x => numbers_in ok x = true) items.
Proof. simpl. by rewrite forallb_forall, Forall_forall; setoid_rewrite list_elem_of_In. Qed.

Lemma numbers_in_obj ok props :
  numbers_in ok (VObj props) = true <->
  Forall (fun kv => numbers_in ok kv.2 = true) props.
Proof. simpl. by rewrite forallb_forall, Forall_forall; setoid_rewrite list_elem_of_In. Qed.



(** ** Association lists *)

Lemma assoc_None {V} k (props : list (string * V)) : assoc k props = None <-> k ∉ props.*1.
Proof.
  induction props as [|[k' v] r IH]; simpl.
  - split; [intros _; apply not_elem_of_nil | done].
  - destruct (String.eqb_spec k k') as [->|Hne].
    + split; [done | intros []; left].
    + rewrite IH, not_elem_of_cons. naive_solver.
Qed.

Lemma assoc_Some_elem {V} k v (props : list (string * V)) : assoc k props = Some v -> (k, v) ∈ props.
Proof.
  induction props as [|[k' v'] r IH]; simpl; [done|].
  destruct (String.eqb_spec k k') as [->|Hne].
  - intros [= ->]. left.
  - intros H. right. auto.
Qed.

Lemma assoc_NoDup {V} k v (props : list (string * V)) : NoDup props.*1 -> (k, v) ∈ props -> assoc k props = Some v.
Proof.
  induction props as [|[k' v'] r IH]; simpl; intros Hnd Hin.
  - by apply elem_of_nil in Hin.
  - apply NoDup_cons in Hnd as [Hk' Hnd].
    apply elem_of_cons in Hin as [[= <- <-]|Hin].
    + by rewrite String.eqb_refl.
    + destruct (String.eqb_spec k k') as [->|Hne]; [|by auto].
      exfalso. apply Hk'. by apply (list_elem_of_fmap_2 fst) in Hin.
Qed.

Lemma includes_true k ks : includes k ks = true <-> k ∈ ks.
Proof.
  unfold includes. rewrite existsb_exists. split.
  - intros (x & Hin & ->%String.eqb_eq). by apply list_elem_of_In.
  - intros Hin. exists k. split; [by apply list_elem_of_In | apply String.eqb_refl].
Qed.

Lemma assoc_set_lookup_eq {V} k v (props : list (string * V)) : assoc k (assoc_set k v props) = Some v.
Proof.
  induction props as [|[k' v'] r IH]; simpl.
  - by rewrite String.eqb_refl.
  - destruct (String.eqb_spec k k') as [->|Hne]; simpl.
    + by rewrite String.eqb_refl.
    + by destruct (String.eqb_spec k k').
Qed.

Lemma assoc_set_lookup_ne {V} k k' v (props : list (string * V)) :
  k' <> k -> assoc k' (assoc_set k v props) = assoc k' props.
Proof.
  intros Hne. induction props as [|[k0 v0] r IH]; simpl.
  - by destruct (String.eqb_spec k' k).
  - destruct (String.eqb_spec k k0) as [->|Hne0]; simpl.
    + by destruct (String.eqb_spec k' k0).
    + destruct (String.eqb_spec k' k0); [done | apply IH].
Qed.

Lemma assoc_set_fresh {V} k v (props : list (string * V)) : k ∉ props.*1 -> assoc_set k v props = props ++ [(k, v)].
Proof.
  induction props as [|[k' v'] r IH]; simpl; [done|].
  intros [Hne Hr]%not_elem_of_cons.
  destruct (String.eqb_spec k k'); [done|]. by rewrite IH.
Qed.

Lemma assoc_set_keys_elem {V} k v (props : list (string * V)) k' :
  k' ∈ (assoc_set k v props).*1 <-> k' = k \/ k' ∈ props.*1.
Proof.
  induction props as [|[k0 v0] r IH]; simpl.
  - rewrite list_elem_of_singleton. split; [by left | intros [|H]; [done|by apply elem_of_nil in H]].
  - destruct (String.eqb_spec k k0) as [->|Hne]; simpl.
    + rewrite !elem_of_cons. naive_solver.
    + rewrite !elem_of_cons, IH. naive_solver.
Qed.

Lemma assoc_set_NoDup {V} k v (props : list (string * V)) : NoDup props.*1 -> NoDup (assoc_set k v props).*1.
Proof.
  induction props as [|[k0 v0] r IH]; simpl; intros Hnd.
  - apply NoDup_singleton.
  - apply NoDup_cons in Hnd as [Hk0 Hnd].
    destruct (String.eqb_spec k k0) as [->|Hne]; simpl.
    + by apply NoDup_cons.
    + apply NoDup_cons. split; [|by auto].
      rewrite assoc_set_keys_elem. naive_solver.
Qed.

Lemma assoc_set_Forall {V} (Q : string * V -> Prop) k v props :
  Q (k, v) -> Forall Q props -> Forall Q (assoc_set k v props).
Proof.
  intros Hq. induction 1 as [|[k0 v0] r Hx Hr IH]; simpl.
  - by repeat constructor.
  - destruct (String.eqb k k0); constructor; auto.
Qed.

(** ** Cloning returns the value itself *)

Lemma for_in_set_fresh (g : value -> value) props acc :
  NoDup (acc.*1 ++ props.*1) ->
  for_in (fun o key v => set_prop o key (g v)) props (VObj acc)
  = VObj (acc ++ map (fun kv => (kv.1, g kv.2)) props).
Proof.
  unfold for_in. revert acc.
  induction props as [|[k v] r IH]; intros acc Hnd; simpl.
  - by rewrite app_nil_r.
  - rewrite IH.
    + rewrite assoc_set_fresh.
      * by rewrite <- app_assoc.
      * apply NoDup_app in Hnd as (_ & Hdisj & _).
        intros Hin. apply (Hdisj _ Hin). left.
    + rewrite assoc_set_fresh.
      * rewrite fmap_app. simpl. rewrite <- app_assoc. done.
      * apply NoDup_app in Hnd as (_ & Hdisj & _).
        intros Hin. apply (Hdisj _ Hin). left.
Qed.

Lemma deepClonePolyfill_id v : wf_value v = true -> deepClonePolyfill v = v.
Proof.
  induction v as [| | | | | |items IH|props IH] using value_nested_ind;
    try done; intros Hwf.
  - apply wf_value_arr in Hwf. simpl. f_equal.
    induction items as [|x r IHr]; [done|].
    apply Forall_cons in IH as [Hx Hr]. apply Forall_cons in Hwf as [Wx Wr].
    simpl. f_equal; auto.
  - apply wf_value_obj in Hwf as [Hnd Hwf]. simpl.
    rewrite for_in_set_fresh by done. simpl. f_equal.
    clear Hnd. induction props as [|[k x] r IHr]; [done|].
    apply Forall_cons in IH as [Hx Hr]. apply Forall_cons in Hwf as [Wx Wr].
    simpl in *. rewrite Hx by done. f_equal. auto.
Qed.

Lemma structuredClone_Some v copy : structuredClone v = Some copy -> copy = v.
Proof.
  revert copy.
  induction v as [| | | | | |items IH|props IH] using value_nested_ind;
    intros copy; simpl; try (by intros [= <-]); try done.
  - intros (l & Hl & ->)%fmap_Some. f_equal. revert l Hl.
    induction items as [|x r IHr]; intros l Hl.
    + by injection Hl as <-.
    + apply Forall_cons in IH as [Hx Hr].
      simpl in Hl. simplify_option_eq.
      f_equal; auto.
  - intros (l & Hl & ->)%fmap_Some. f_equal. revert l Hl.
    induction props as [|[k x] r IHr]; intros l Hl.
    + by injection Hl as <-.
    + apply Forall_cons in IH as [Hx Hr].
      simpl in Hl. simplify_option_eq.
      f_equal; [f_equal|]; auto.
Qed.

Lemma deepClone_id hsc v : wf_value v = true -> deepClone hsc v = v.
Proof.
  intros Hwf. unfold deepClone. destruct hsc; [|by apply deepClonePolyfill_id].
  destruct (structuredClone v) eqn:E.
  - by apply structuredClone_Some.
  - by apply deepClonePolyfill_id.
Qed.

(** ** [deepEqual] *)

Lemma every_from_true {A} (check : A -> nat -> bool) l n :
  every_from check l n = true <->
  forall i x, l !! i = Some x -> check x (n + i)%nat = true.
Proof.
  revert n. induction l as [|a r IH]; intros n; simpl.
  - split; [intros _ i x H; by rewrite lookup_nil in H | done].
  - rewrite andb_true_iff, IH. split.
    + intros [Ha Hr] [|i] x; simpl.
      * intros [= <-]. by rewrite Nat.add_0_r.
      * intros Hx. rewrite <- Nat.add_succ_comm. by apply Hr.
    + intros H. split.
      * specialize (H 0%nat a eq_refl). by rewrite Nat.add_0_r in H.
      * intros i x Hx. rewrite Nat.add_succ_comm. by apply (H (S i)).
Qed.

Lemma every_true {A} (check : A -> nat -> bool) l :
  every check l = true <-> forall i x, l !! i = Some x -> check x i = true.
Proof. unfold every. by rewrite every_from_true. Qed.

Lemma deepEqual_arr_arr src dst :
  deepEqual (VArr src) (VArr dst)
  = (length src =? length dst)%nat
    && every (fun item index => deepEqual item (default VUndef (dst !! index))) src.
Proof. simpl. by destruct (length src =? length dst)%nat. Qed.

Lemma deepEqual_obj_obj src dst :
  deepEqual (VObj src) (VObj dst)
  = (length src =? length dst)%nat
    && forallb (fun kv => includes kv.1 dst.*1
                          && deepEqual kv.2 (get_prop (VObj dst) kv.1)) src.
Proof.
  simpl. unfold keys. simpl. rewrite length_fmap.
  by destruct (length src =? length dst)%nat.
Qed.

Lemma get_prop_obj_elem props k v :
  NoDup props.*1 -> (k, v) ∈ props -> get_prop (VObj props) k = v.
Proof. intros Hnd Hin. unfold get_prop. simpl. by rewrite (assoc_NoDup k v). Qed.

(** [deepEqual] holds between a value and itself unless a [NaN] is
    inside, which [===] finds different from itself. *)
Lemma deepEqual_refl v : wf_value v = true -> nan_free v = true -> deepEqual v v = true.
Proof.
  induction v as [| | | | | |items IH|props IH] using value_nested_ind;
    intros Hwf Hnan; try done.
  - simpl. by rewrite Bool.eqb_reflx.
  - unfold nan_free in Hnan. simpl in *. by rewrite number_eqb_refl, Hnan.
  - simpl. by rewrite String.eqb_refl.
  - simpl. by rewrite Nat.eqb_refl.
  - apply wf_value_arr in Hwf. apply numbers_in_arr in Hnan.
    rewrite deepEqual_arr_arr, Nat.eqb_refl. simpl.
    apply every_true. intros i x Hx. rewrite Hx. simpl.
    rewrite Forall_lookup in IH. rewrite Forall_lookup in Hwf.
    rewrite Forall_lookup in Hnan. eauto.
  - apply wf_value_obj in Hwf as [Hnd Hwf]. apply numbers_in_obj in Hnan.
    rewrite deepEqual_obj_obj, Nat.eqb_refl. simpl.
    apply forallb_forall. intros [k x] Hin%list_elem_of_In. simpl.
    rewrite Forall_forall in IH. rewrite Forall_forall in Hwf.
    rewrite Forall_forall in Hnan.
    apply andb_true_iff. split.
    + apply includes_true. by apply (list_elem_of_fmap_2 fst) in Hin.
    + rewrite (get_prop_obj_elem props k x) by done.
      apply (IH _ Hin); [apply (Hwf _ Hin)|apply (Hnan _ Hin)].
Qed.


Lemma deepEqual_clone hsc v :
  wf_value v = true -> nan_free v = true -> deepEqual v (deepClone hsc v) = true.
Proof. intros Hwf Hnan. rewrite deepClone_id by done. by apply deepEqual_refl. Qed.











(** ** [deepMerge] *)

Lemma set_prop_wf o k v :
  wf_value o = true -> wf_value v = true -> wf_value (set_prop o k v) = true.
Proof.
  destruct o; try done. intros [Hnd Hall]%wf_value_obj Hv. simpl set_prop.
  apply wf_value_obj. split; [by apply assoc_set_NoDup|].
  by apply assoc_set_Forall.
Qed.

Lemma get_prop_wf o k : wf_value o = true -> wf_value (get_prop o k) = true.
Proof.
  intros Hwf. unfold get_prop.
  destruct (assoc k (own_props o)) as [v|] eqn:E.
  - apply assoc_Some_elem in E. destruct o; simpl in E; try by apply elem_of_nil in E.
    + apply wf_value_arr in Hwf. rewrite Forall_lookup in Hwf.
      apply list_elem_of_lookup in E as [i Hi].
      rewrite list_lookup_imap in Hi. apply fmap_Some in Hi as (x & Hx & [= _ ->]).
      eauto.
    + apply wf_value_obj in Hwf as [_ Hall]. rewrite Forall_forall in Hall.
      apply (Hall _ E).
  - destruct o; try done. by destruct (String.eqb k "length").
Qed.

Lemma deepClone_wf hsc v : wf_value v = true -> wf_value (deepClone hsc v) = true.
Proof. intros Hwf. by rewrite deepClone_id. Qed.

Lemma merge_step_wf merge result k sv :
  wf_value result = true -> wf_value sv = true ->
  (forall tv, wf_value tv = true -> wf_value (merge tv) = true) ->
  wf_value (merge_step merge result k sv) = true.
Proof.
  intros Hr Hsv Hm. unfold merge_step.
  destruct sv; try done;
    try (destruct (isPlainObject (get_prop result k) && _);
         apply set_prop_wf; auto using get_prop_wf).
Qed.

Lemma for_index_inv {R A} (I : R -> Prop) (body : R -> nat -> A -> R) l :
  (forall acc i x, x ∈ l -> I acc -> I (body acc i x)) ->
  forall n acc, I acc -> I (for_index body l n acc).
Proof.
  induction l as [|a r IH]; intros Hbody n acc Hacc; simpl; [done|].
  apply IH.
  - intros acc' i x Hx. apply Hbody. by right.
  - apply Hbody; [left | done].
Qed.

Lemma fold_left_inv {R A} (I : R -> Prop) (body : R -> A -> R) l :
  (forall acc x, x ∈ l -> I acc -> I (body acc x)) ->
  forall acc, I acc -> I (fold_left body l acc).
Proof.
  induction l as [|a r IH]; intros Hbody acc Hacc; simpl; [done|].
  apply IH.
  - intros acc' x Hx. apply Hbody. by right.
  - apply Hbody; [left | done].
Qed.

Lemma deepMerge_wf hsc source : forall target,
  wf_value target = true -> wf_value source = true ->
  wf_value (deepMerge hsc target source) = true.
Proof.
  induction source as [| | | | | |items IH|props IH] using value_nested_ind;
    intros target Ht Hs; simpl; auto using deepClone_wf.
  - apply (for_index_inv (fun r => wf_value r = true)).
    + intros acc i c _ Hacc. by apply set_prop_wf.
    + by apply deepClone_wf.
  - apply wf_value_arr in Hs. rewrite Forall_forall in IH, Hs.
    apply (for_index_inv (fun r => wf_value r = true)); [|by apply deepClone_wf].
    intros acc i x Hx Hacc. apply merge_step_wf; auto.
  - apply wf_value_obj in Hs as [_ Hs]. rewrite Forall_forall in IH, Hs.
    apply (fold_left_inv (fun r => wf_value r = true)); [|by apply deepClone_wf].
    intros acc [k x] Hx Hacc. simpl. apply merge_step_wf; auto.
    + apply (Hs _ Hx).
    + intros tv Htv. apply (IH _ Hx); [done|]. apply (Hs _ Hx).
Qed.

(** A merge brings in no number that was in neither value. *)
Lemma set_prop_numbers_in ok o k v :
  numbers_in ok o = true -> numbers_in ok v = true -> numbers_in ok (set_prop o k v) = true.
Proof.
  destruct o; try done. intros Hall%numbers_in_obj Hv. simpl set_prop.
  apply numbers_in_obj. by apply assoc_set_Forall.
Qed.

Lemma get_prop_numbers_in ok o k :
  numbers_in ok o = true -> isPlainObject (get_prop o k) = true ->
  numbers_in ok (get_prop o k) = true.
Proof.
  intros Hin. unfold get_prop.
  destruct (assoc k (own_props o)) as [v|] eqn:E.
  - intros _. apply assoc_Some_elem in E.
    destruct o; simpl in E; try by apply elem_of_nil in E.
    + apply numbers_in_arr in Hin. rewrite Forall_lookup in Hin.
      apply list_elem_of_lookup in E as [i Hi].
      rewrite list_lookup_imap in Hi. apply fmap_Some in Hi as (x & Hx & [= _ ->]).
      eauto.
    + apply numbers_in_obj in Hin. rewrite Forall_forall in Hin.
      apply (Hin _ E).
  - destruct o; try done. by destruct (String.eqb k "length").
Qed.

Lemma merge_step_numbers_in ok merge result k sv :
  wf_value result = true ->
  numbers_in ok result = true -> numbers_in ok sv = true ->
  (forall tv, wf_value tv = true -> numbers_in ok tv = true ->
              numbers_in ok (merge tv) = true) ->
  numbers_in ok (merge_step merge result k sv) = true.
Proof.
  intros Hwf Hr Hsv Hm. unfold merge_step.
  destruct sv; try done;
    destruct (isPlainObject (get_prop result k)) eqn:Hplain; cbn [andb isPlainObject];
    apply set_prop_numbers_in; auto using get_prop_numbers_in, get_prop_wf.
Qed.

Lemma deepMerge_numbers_in ok hsc source : forall target,
  wf_value target = true -> wf_value source = true ->
  numbers_in ok target = true -> numbers_in ok source = true ->
  numbers_in ok (deepMerge hsc target source) = true.
Proof.
  induction source as [| | | | | |items IH|props IH] using value_nested_ind;
    intros target Hwf Hwfs Ht Hs; simpl; rewrite ?deepClone_id by done; try done.
  - apply (for_index_inv (fun r => numbers_in ok r = true)); [|done].
    intros acc i c _ Hacc. by apply set_prop_numbers_in.
  - apply numbers_in_arr in Hs. apply wf_value_arr in Hwfs.
    rewrite Forall_forall in IH, Hs, Hwfs.
    apply (for_index_inv (fun r => wf_value r = true /\ numbers_in ok r = true));
      [|done].
    intros acc i x Hx [Hacc Hnum]. split.
    + apply merge_step_wf; auto using deepMerge_wf.
    + apply merge_step_numbers_in; auto.
  - apply numbers_in_obj in Hs. apply wf_value_obj in Hwfs as [_ Hwfs].
    rewrite Forall_forall in IH, Hs, Hwfs.
    apply (fold_left_inv (fun r => wf_value r = true /\ numbers_in ok r = true));
      [|done].
    intros acc [k x] Hx [Hacc Hnum]. simpl. split.
    + apply merge_step_wf; [done|apply (Hwfs _ Hx)|].
      intros tv Htv. apply deepMerge_wf; [done|apply (Hwfs _ Hx)].
    + apply merge_step_numbers_in; [done|done|apply (Hs _ Hx)|].
      intros tv Htv Hn. apply (IH _ Hx); [done|apply (Hwfs _ Hx)|done|apply (Hs _ Hx)].
Qed.

(** What one turn of the loop does to a record. *)
Lemma merge_step_obj merge pr k sv :
  exists pr', merge_step merge (VObj pr) k sv = VObj pr' /\
    (forall k', k' <> k -> assoc k' pr' = assoc k' pr) /\
    assoc k pr' =
      match sv with
      | VUndef => assoc k pr
      | _ => Some (if isPlainObject (get_prop (VObj pr) k) && isPlainObject sv
                   then merge (get_prop (VObj pr) k) else sv)
      end.
Proof.
  unfold merge_step.
  destruct sv;
    try (eexists; split; [reflexivity|]; split; [done|done]);
    destruct (isPlainObject (get_prop (VObj pr) k) && _); simpl;
    (eexists; split; [reflexivity|]; split;
     [intros k' Hne; by apply assoc_set_lookup_ne | apply assoc_set_lookup_eq]).
Qed.

Lemma deepMerge_fold hsc pb :
  NoDup pb.*1 ->
  forall pr, exists pf,
    fold_left (fun result kv =>
                 merge_step (fun targetValue => deepMerge hsc targetValue kv.2)
                   result kv.1 kv.2) pb (VObj pr) = VObj pf /\
    forall k, assoc k pf = merged_at hsc pr pb k.
Proof.
  induction pb as [|[k0 sv0] rest IH]; intros Hnd pr; simpl.
  - exists pr. split; [done|]. intros k. by unfold merged_at.
  - apply NoDup_cons in Hnd as [Hk0 Hnd].
    destruct (merge_step_obj (fun tv => deepMerge hsc tv sv0) pr k0 sv0)
      as (pr1 & -> & Hother & Hk).
    destruct (IH Hnd pr1) as (pf & -> & Hpf).
    exists pf. split; [done|]. intros k. rewrite Hpf. unfold merged_at. simpl.
    destruct (String.eqb_spec k k0) as [->|Hne].
    + apply assoc_None in Hk0. simpl in Hk0. rewrite Hk0, Hk. by destruct sv0.
    + unfold get_prop. simpl. by rewrite (Hother k Hne).
Qed.

Lemma deepMerge_records hsc pa pb :
  wf_value (VObj pa) = true -> NoDup pb.*1 ->
  exists pf, deepMerge hsc (VObj pa) (VObj pb) = VObj pf /\
    forall k, assoc k pf = merged_at hsc pa pb k.
Proof.
  intros Ha Hb. simpl. rewrite deepClone_id by done. by apply deepMerge_fold.
Qed.

Lemma get_prop_obj props k : get_prop (VObj props) k = default VUndef (assoc k props).
Proof. unfold get_prop. simpl. by destruct (assoc k props). Qed.

Lemma keys_obj_elem props k : k ∈ keys (VObj props) <-> assoc k props <> None.
Proof.
  unfold keys. simpl. destruct (decide (k ∈ props.*1)) as [Hin|Hout].
  - split; [|done]. intros _ E%assoc_None. done.
  - split; [done|]. intros E. by apply assoc_None in Hout.
Qed.

(** ** The history invariant *)

Lemma is_integer_Number x : is_integer x = true -> exists z : Z, x = Number z.
Proof.
  unfold is_integer. destruct (ToIntegerOrInfinity x) as [z| |]; try done.
  intros H%number_eq. by exists z.
Qed.

Lemma history_inv_create P init : history_inv (createDataStore P init).
Proof.
  split; [unfold MAX_HISTORY; simpl; lia|]. exists 0. split; [done|simpl; lia].
Qed.

Lemma history_inv_notify s : history_inv (notifySubscribers s) <-> history_inv s.
Proof. done. Qed.

Lemma history_inv_setStore P s u : history_inv s -> history_inv (setStore P s u).
Proof. unfold setStore. by destruct (negb _). Qed.

Lemma splice_from_Number {A} (z : Z) (h : list A) :
  0 <= z <= 102 -> splice_from (Number z) h = take (Z.to_nat z) h.
Proof.
  intros Hz. unfold splice_from. rewrite ToIntegerOrInfinity_Number by lia.
  by destruct (Z.ltb_spec z 0); [lia|].
Qed.

Lemma splice_from_inv (h : list value) (i : Z) :
  0 <= i < Z.of_nat (length h) -> Z.of_nat (length h) <= MAX_HISTORY ->
  splice_from (Number i + 1) h = take (Z.to_nat (i + 1)) h /\
  length (take (Z.to_nat (i + 1)) h) = Z.to_nat (i + 1).
Proof.
  unfold MAX_HISTORY. intros Hi Hlen.
  rewrite Number_succ, splice_from_Number by lia. split; [done|].
  rewrite length_take. lia.
Qed.

Lemma pushHistory_history v s i :
  Z.of_nat (length (history s)) <= MAX_HISTORY ->
  currentIndex s = Number i -> 0 <= i < Z.of_nat (length (history s)) ->
  let h1 := take (Z.to_nat (i + 1)) (history s) ++ [v] in
  history (pushHistory v s) = drop (length h1 - Z.to_nat MAX_HISTORY) h1 /\
  currentIndex (pushHistory v s)
  = Number (Z.of_nat (length (history (pushHistory v s))) - 1) /\
  (1 <= length (history (pushHistory v s)) <= Z.to_nat MAX_HISTORY)%nat.
Proof.
  intros Hlen Hcur Hidx. destruct (splice_from_inv _ _ Hidx Hlen) as [Hsp Htk].
  cbv zeta. unfold pushHistory. rewrite Hcur, Hsp.
  set (h1 := take _ _ ++ [v]).
  assert (Hl : length h1 = S (Z.to_nat (i + 1))).
  { unfold h1. rewrite length_app, Htk. simpl. lia. }
  unfold MAX_HISTORY in *.
  destruct (Z.gtb_spec (Z.of_nat (length h1)) 100) as [Hbig|Hsmall]; simpl.
  - assert (length h1 = 101%nat) as Hl' by lia.
    replace (length h1 - Z.to_nat 100)%nat with 1%nat by lia.
    destruct h1 as [|x r]; [done|]. simpl in *. rewrite drop_0.
    split; [done|]. split; [|lia].
    rewrite Number_pred by lia. f_equal. lia.
  - replace (length h1 - Z.to_nat 100)%nat with 0%nat by lia.
    rewrite drop_0. split; [done|]. split; [done|lia].
Qed.

Lemma history_inv_pushHistory v s : history_inv s -> history_inv (pushHistory v s).
Proof.
  intros (Hlen & i & Hcur & Hidx).
  destruct (pushHistory_history v s i Hlen Hcur Hidx) as (_ & Hi & Hl).
  split; [unfold MAX_HISTORY in *; lia|].
  eexists. split; [exact Hi|lia].
Qed.

Lemma history_inv_elapse d s : history_inv s -> history_inv (elapse d s).
Proof.
  intros Hinv. unfold elapse.
  destruct (pushHistoryDebouncedTimeout s) as [[remaining v]|]; [|done].
  destruct (remaining <=? d)%nat; [by apply history_inv_pushHistory | done].
Qed.

(** The guards of [undo], [redo] and [rollbackTo] on an integer
    cursor. *)
Lemma undo_guard (i : Z) : 0 <= i <= 127 -> (0 <? Number i)%float = (0 <? i).
Proof. intros Hi. by apply (Number_ltb_small 0 i). Qed.

Lemma redo_guard (i n : Z) :
  0 <= i <= 127 -> 1 <= n <= 127 -> (Number i <? Number (n - 1))%float = (i <? n - 1).
Proof. intros Hi Hn. apply Number_ltb_small; lia. Qed.

Lemma undo_at (P : Platform) (s : DataStore) (i : Z) :
  Z.of_nat (length (history s)) <= MAX_HISTORY ->
  currentIndex s = Number i -> 0 <= i < Z.of_nat (length (history s)) ->
  undo P s = if 0 <? i then rollbackTo P s (Number (i - 1)) else s.
Proof.
  unfold MAX_HISTORY. intros Hlen Hcur Hidx. unfold undo, rollbackTo.
  rewrite Hcur, undo_guard, Number_pred by lia.
  destruct (Z.ltb_spec 0 i) as [Hpos|]; [|done].
  rewrite Number_in_range by lia.
  destruct (Z.leb_spec 0 (i - 1)); [|lia].
  by destruct (Z.ltb_spec (i - 1) (Z.of_nat (length (history s)))); [|lia].
Qed.

Lemma redo_at (P : Platform) (s : DataStore) (i : Z) :
  Z.of_nat (length (history s)) <= MAX_HISTORY ->
  currentIndex s = Number i -> 0 <= i < Z.of_nat (length (history s)) ->
  redo P s = if i <? Z.of_nat (length (history s)) - 1
             then rollbackTo P s (Number (i + 1)) else s.
Proof.
  unfold MAX_HISTORY. intros Hlen Hcur Hidx. unfold redo, rollbackTo.
  rewrite Hcur, redo_guard, Number_succ by lia.
  destruct (Z.ltb_spec i (Z.of_nat (length (history s)) - 1)) as [Hroom|]; [|done].
  rewrite Number_in_range by lia.
  destruct (Z.leb_spec 0 (i + 1)); [|lia].
  by destruct (Z.ltb_spec (i + 1) (Z.of_nat (length (history s)))); [|lia].
Qed.

Lemma rollbackTo_at (P : Platform) (s : DataStore) (z : Z) :
  Z.of_nat (length (history s)) <= MAX_HISTORY ->
  rollbackTo P s (Number z)
  = if (0 <=? z) && (z <? Z.of_nat (length (history s)))
    then notifySubscribers
           {| store := deepClone (has_structuredClone P) (at_index (history s) (Number z));
              history := history s; currentIndex := Number z;
              pushHistoryDebouncedTimeout := pushHistoryDebouncedTimeout s;
              listeners := listeners s; frames := frames s |}
    else s.
Proof.
  unfold MAX_HISTORY. intros Hlen. unfold rollbackTo. by rewrite Number_in_range by lia.
Qed.

Lemma history_inv_rollbackTo P s z :
  history_inv s -> history_inv (rollbackTo P s (Number z)).
Proof.
  intros (Hlen & i & Hcur & Hidx). rewrite rollbackTo_at by done.
  destruct (Z.leb_spec 0 z); simpl; [|by split; eauto].
  destruct (Z.ltb_spec z (Z.of_nat (length (history s)))); [|by split; eauto].
  split; [done|]. exists z. simpl. split; [done|lia].
Qed.

Lemma history_inv_undo P s : history_inv s -> history_inv (undo P s).
Proof.
  intros Hinv. pose proof Hinv as (Hlen & i & Hcur & Hidx).
  rewrite (undo_at P s i) by done.
  destruct (0 <? i); [by apply history_inv_rollbackTo|done].
Qed.

Lemma history_inv_redo P s : history_inv s -> history_inv (redo P s).
Proof.
  intros Hinv. pose proof Hinv as (Hlen & i & Hcur & Hidx).
  rewrite (redo_at P s i) by done.
  destruct (i <? _); [by apply history_inv_rollbackTo|done].
Qed.

Lemma history_inv_resetStore P init s : history_inv (resetStore P init s).
Proof.
  split; [unfold MAX_HISTORY; simpl; lia|]. exists 0. split; [done|simpl; lia].
Qed.

Lemma history_inv_apply_op P init s o :
  integer_indices [o] = true -> history_inv s -> history_inv (apply_op P init s o).
Proof.
  destruct o; simpl; intros Hint;
    auto using history_inv_setStore, history_inv_elapse, history_inv_undo,
      history_inv_redo, history_inv_resetStore.
  rewrite andb_true_r in Hint. apply is_integer_Number in Hint as [z ->].
  apply history_inv_rollbackTo.
Qed.

(** The bound on the length, whatever [rollbackTo] is called at. *)
Lemma splice_from_length {A} (x : float) (h : list A) :
  (length (splice_from x h) <= length h)%nat.
Proof.
  unfold splice_from. destruct (ToIntegerOrInfinity x) as [z| |]; simpl; [|lia|lia].
  destruct (z <? 0); rewrite length_take; lia.
Qed.

Lemma pushHistory_length v s :
  Z.of_nat (length (history s)) <= MAX_HISTORY ->
  let s' := pushHistory v s in
  1 <= Z.of_nat (length (history s')) <= MAX_HISTORY /\
  currentIndex s' = Number (Z.of_nat (length (history s')) - 1) /\
  history s' !! (length (history s') - 1)%nat = Some v.
Proof.
  intros Hlen. cbv zeta. unfold pushHistory, MAX_HISTORY in *.
  pose proof (splice_from_length (currentIndex s + 1) (history s)) as Hsp.
  set (kept := splice_from _ _) in *.
  assert (Hl : length (kept ++ [v]) = S (length kept)) by (rewrite length_app; simpl; lia).
  assert (Hlast : (kept ++ [v]) !! length kept = Some v).
  { by rewrite lookup_app_r, Nat.sub_diag. }
  destruct (Z.gtb_spec (Z.of_nat (length (kept ++ [v]))) 100) as [Hbig|Hsmall]; simpl.
  - assert (length kept = 100%nat) as Hk by lia. rewrite Hl, Hk in *.
    destruct (kept ++ [v]) as [|x r] eqn:E; [done|]. simpl in *.
    assert (length r = 100%nat) as Hr by lia. rewrite Hr.
    split; [lia|]. split; [by vm_compute|done].
  - rewrite Hl. split; [lia|]. split; [done|].
    by replace (S (length kept) - 1)%nat with (length kept) by lia.
Qed.

Lemma pushHistory_evicts v s :
  Z.of_nat (length (history s)) <= MAX_HISTORY ->
  let pushed := splice_from (currentIndex s + 1) (history s) ++ [v] in
  history (pushHistory v s) = drop (length pushed - Z.to_nat MAX_HISTORY) pushed.
Proof.
  intros Hlen. cbv zeta. unfold pushHistory, MAX_HISTORY in *.
  pose proof (splice_from_length (currentIndex s + 1) (history s)) as Hsp.
  set (kept := splice_from _ _) in *.
  assert (Hl : length (kept ++ [v]) = S (length kept)) by (rewrite length_app; simpl; lia).
  destruct (Z.gtb_spec (Z.of_nat (length (kept ++ [v]))) 100) as [Hbig|Hsmall]; simpl.
  - replace (length (kept ++ [v]) - Z.to_nat 100)%nat with 1%nat by lia.
    by destruct (kept ++ [v]).
  - by replace (length (kept ++ [v]) - Z.to_nat 100)%nat with 0%nat by lia.
Qed.

Lemma history_length_apply_op P init s o :
  Z.of_nat (length (history s)) <= MAX_HISTORY ->
  Z.of_nat (length (history (apply_op P init s o))) <= MAX_HISTORY.
Proof.
  intros Hlen. destruct o; simpl.
  - unfold setStore. by destruct (negb _).
  - unfold elapse. destruct (pushHistoryDebouncedTimeout s) as [[remaining v]|]; [|done].
    destruct (remaining <=? d)%nat; [|done]. by apply pushHistory_length.
  - unfold undo. by destruct (_ <? _)%float.
  - unfold redo. by destruct (_ <? _)%float.
  - unfold rollbackTo. by destruct (_ && _).
  - done.
Qed.

Lemma history_length_run P init ops :
  Z.of_nat (length (history (run P init ops))) <= MAX_HISTORY.
Proof.
  unfold run. apply (fold_left_inv (fun s => Z.of_nat (length (history s)) <= MAX_HISTORY)).
  - intros acc o _. apply history_length_apply_op.
  - done.
Qed.

Lemma history_inv_run P init ops :
  integer_indices ops = true -> history_inv (run P init ops).
Proof.
  unfold run. generalize (history_inv_create P init).
  generalize (createDataStore P init).
  induction ops as [|o ops IH]; intros s Hs Hint; simpl; [done|].
  apply andb_true_iff in Hint as [Ho Hint].
  apply IH; [|done]. apply history_inv_apply_op; [|done].
  simpl. by rewrite Ho.
Qed.

(** C3: in every state the singleton store reaches through [setStore],
    timer firings, [undo], [redo], [rollbackTo] and [resetStore], the
    history holds at most 100 entries, and a push keeps the newest
    entries, dropping from the front; when every [rollbackTo] was called
    at an integer, the cursor is the number of a valid index into the
    history, and a push keeps the entries up to the cursor. *)
Theorem history_bounded_cursor_valid (P : Platform) (initialState : value) (ops : list op) :
  let s := run P initialState ops in
  Z.of_nat (length (history s)) <= MAX_HISTORY /\
  (forall latestVersion,
     let pushed := splice_from (currentIndex s + 1) (history s) ++ [latestVersion] in
     history (pushHistory latestVersion s)
     = drop (length pushed - Z.to_nat MAX_HISTORY) pushed) /\
  (integer_indices ops = true ->
   exists i : Z,
     currentIndex s = Number i /\
     0 <= i < Z.of_nat (length (history s)) /\
     splice_from (currentIndex s + 1) (history s) = take (Z.to_nat (i + 1)) (history s)).
Proof.
  intros s. pose proof (history_length_run P initialState ops) as Hlen. fold s in Hlen.
  split; [done|]. split; [intros v; by apply pushHistory_evicts|]. intros Hint.
  pose proof (history_inv_run P initialState ops Hint) as Hinv.
  fold s in Hinv. destruct Hinv as (_ & i & Hcur & Hidx).
  exists i. split; [done|]. split; [done|].
  rewrite Hcur. by apply splice_from_inv.
Qed.

Lemma history_bounded_cursor_valid_witness :
  let ops := [OpSetStore (VNum 1); OpElapse 200; OpRollbackTo 0; OpRedo; OpUndo;
              OpRollbackTo 7; OpResetStore; OpSetStore (VNum 2); OpElapse 200] in
  let s := run demo (VNum 0) ops in
  integer_indices ops = true /\
  history s = [VNum 0; VNum 2] /\
  Z.of_nat (length (history s)) <= MAX_HISTORY /\
  exists i : Z, currentIndex s = Number i /\ 0 <= i < Z.of_nat (length (history s)).
Proof.
  pose proof (history_bounded_cursor_valid demo (VNum 0)
                [OpSetStore (VNum 1); OpElapse 200; OpRollbackTo 0; OpRedo; OpUndo;
                 OpRollbackTo 7; OpResetStore; OpSetStore (VNum 2); OpElapse 200])
    as (Hlen & _ & Hcur).
  split; [vm_compute; reflexivity|]. split; [vm_compute; reflexivity|].
  split; [exact Hlen|].
  destruct (Hcur ltac:(vm_compute; reflexivity)) as (i & Hi & Hidx & _).
  exists i. split; [exact Hi|exact Hidx].
Defined.

(** C3, the case the claim misses: [rollbackTo] takes any number between
    0 and the length, so a fraction becomes the cursor; no entry is
    under it, and [undo] then takes the cursor below 0. *)
Lemma rollbackTo_fraction_breaks_cursor :
  let s1 := run demo (VNum 0) [OpRollbackTo 0.5] in
  let s2 := run demo (VNum 0) [OpRollbackTo 0.5; OpUndo] in
  currentIndex s1 = 0.5%float /\ store s1 = VUndef /\
  currentIndex s2 = (-0.5)%float /\ store s2 = VUndef /\
  (0 <=? currentIndex s2)%float = false /\
  ~ (exists i : Z, currentIndex s1 = Number i) /\
  ~ (exists i : Z, currentIndex s2 = Number i /\ 0 <= i < Z.of_nat (length (history s2))).
Proof.
  cbv zeta. repeat (split; [vm_compute; reflexivity|]).
  split.
  - intros [i Hi]. apply (Number_exponent i false 4503599627370496 (-53)); [|lia].
    rewrite <- Hi. vm_compute. reflexivity.
  - intros (i & Hi & _). apply (Number_exponent i true 4503599627370496 (-53)); [|lia].
    rewrite <- Hi. vm_compute. reflexivity.
Qed.

(** ** Debounced snapshots *)

Lemma pushHistory_frame v s :
  store (pushHistory v s) = store s /\ frames (pushHistory v s) = frames s /\
  listeners (pushHistory v s) = listeners s /\
  pushHistoryDebouncedTimeout (pushHistory v s) = None.
Proof. unfold pushHistory. by destruct (_ >? _). Qed.

Lemma elapse_store d s : store (elapse d s) = store s.
Proof.
  unfold elapse. destruct (pushHistoryDebouncedTimeout s) as [[remaining v]|]; [|done].
  destruct (remaining <=? d)%nat; [apply pushHistory_frame | done].
Qed.

Lemma elapse_idle d s : pushHistoryDebouncedTimeout s = None -> elapse d s = s.
Proof. unfold elapse. by intros ->. Qed.

Lemma setStore_accepted P s u :
  deepEqual (store s) (nextState P (store s) u) = false ->
  let s' := setStore P s u in
  store s' = nextState P (store s) u /\ just_changed P s' /\
  history s' = history s /\ currentIndex s' = currentIndex s /\
  frames s' = S (frames s).
Proof.
  intros Hne. cbv zeta. unfold setStore, just_changed. rewrite Hne. simpl.
  repeat split.
Qed.

Lemma elapse_within P gap s :
  just_changed P s -> (gap < DEBOUNCE)%nat ->
  store (elapse gap s) = store s /\ history (elapse gap s) = history s /\
  currentIndex (elapse gap s) = currentIndex s /\ frames (elapse gap s) = frames s.
Proof.
  unfold just_changed, elapse. intros -> Hgap.
  destruct (Nat.leb_spec DEBOUNCE gap); [lia|done].
Qed.

Lemma burst_pending P changes : forall s,
  just_changed P s -> accepted_burst P s changes ->
  let sb := burst P s changes in
  just_changed P sb /\ history sb = history s /\ currentIndex sb = currentIndex s /\
  frames sb = (frames s + length changes)%nat.
Proof.
  induction changes as [|[gap u] rest IH]; intros s Hs Hacc; simpl.
  - repeat split; [done|lia].
  - destruct Hacc as (Hgap & Hne & Hrest).
    destruct (elapse_within P gap s Hs Hgap) as (Est & Eh & Ei & Ef).
    rewrite <- Est in Hne.
    destruct (setStore_accepted P (elapse gap s) u Hne) as (_ & Hj & Eh' & Ei' & Ef').
    destruct (IH _ Hj Hrest) as (Hj2 & Eh2 & Ei2 & Ef2).
    split; [done|]. rewrite Eh2, Ei2, Ef2, Eh', Ei', Ef', Eh, Ei, Ef.
    repeat split; lia.
Qed.

Lemma splice_from_all {A} (n : Z) (h : list A) :
  Z.of_nat (length h) <= n <= 102 -> splice_from (Number n) h = h.
Proof.
  intros Hn. rewrite splice_from_Number by lia. apply take_ge. lia.
Qed.

(** C2: a burst of accepted changes, each inside the debounce window of
    the one before, followed by silence of at least the window, pushes
    one entry: the history becomes the old one, cut after the cursor,
    with a single snapshot added (and the oldest entry dropped above the
    cap), which with the cursor on the last entry and room under the cap
    is the old history and one entry more; the snapshot is a clone of
    the value the store holds when the timer fires; every change of the
    burst asked for a notification; nothing is left pending. *)
Theorem burst_pushes_one_entry (P : Platform) (s : DataStore) (first : value)
    (rest : list (nat * value)) (quiet : nat) :
  deepEqual (store s) (nextState P (store s) first) = false ->
  accepted_burst P (setStore P s first) rest ->
  (DEBOUNCE <= quiet)%nat ->
  let final := elapse quiet (burst P (setStore P s first) rest) in
  let snapshot := deepClone (has_structuredClone P) (store final) in
  let pushed := splice_from (currentIndex s + 1) (history s) ++ [snapshot] in
  history final = (if Z.of_nat (length pushed) >? MAX_HISTORY then tail pushed else pushed) /\
  (currentIndex s = Z.of_nat (length (history s)) - 1 ->
   Z.of_nat (length (history s)) < MAX_HISTORY ->
   history final = history s ++ [snapshot]) /\
  frames final = (frames s + S (length rest))%nat /\
  pushHistoryDebouncedTimeout final = None /\
  forall later, elapse later final = final.
Proof.
  intros Hne Hacc Hquiet.
  destruct (setStore_accepted P s first Hne) as (_ & Hj & Eh & Ei & Ef).
  destruct (burst_pending P rest _ Hj Hacc) as (Hj2 & Eh2 & Ei2 & Ef2).
  cbv zeta. set (sb := burst P (setStore P s first) rest) in *.
  assert (Hfire : elapse quiet sb
                  = pushHistory (deepClone (has_structuredClone P) (store sb)) sb).
  { unfold elapse. rewrite Hj2. destruct (Nat.leb_spec DEBOUNCE quiet); [done|lia]. }
  rewrite Hfire.
  destruct (pushHistory_frame (deepClone (has_structuredClone P) (store sb)) sb)
    as (Hst & Hfr & _ & Htm).
  rewrite Hst, Hfr, Htm, Ef2, Ef. simpl length.
  assert (Hhist : history (pushHistory (deepClone (has_structuredClone P) (store sb)) sb)
                  = let pushed := splice_from (currentIndex s + 1) (history s)
                                  ++ [deepClone (has_structuredClone P) (store sb)] in
                    if Z.of_nat (length pushed) >? MAX_HISTORY then tail pushed else pushed).
  { unfold pushHistory. rewrite Eh2, Ei2, Eh, Ei. cbv zeta. by destruct (_ >? _). }
  split; [exact Hhist|].
  split; [|split; [lia|]; split; [done|]; intros later; by apply elapse_idle].
  intros Hend Hroom. rewrite Hhist. cbv zeta. unfold MAX_HISTORY in Hroom.
  rewrite Hend, Number_succ by lia.
  rewrite (splice_from_all _ (history s)) by lia.
  rewrite length_app. simpl length. unfold MAX_HISTORY in *.
  destruct (Z.gtb_spec (Z.of_nat (length (history s) + 1)) 100); [lia|done].
Qed.

(** ** Equal candidates *)

(** C5: when the candidate next value is [deepEqual] to the current one,
    [set] and [setStore] return the state untouched: same value, same
    storage and no write, no timer started, nobody notified. *)
Theorem equal_update_is_noop (P : Platform) (opt : ContextStoreOption)
    (cs : ContextStore) (s : DataStore) (update : value) :
  (deepEqual (current cs) (ctx_nextState P opt (current cs) update) = true ->
   set P opt cs update = cs) /\
  (deepEqual (store s) (nextState P (store s) update) = true ->
   setStore P s update = s).
Proof.
  split; intros Heq.
  - unfold set. by rewrite Heq.
  - unfold setStore. by rewrite Heq.
Qed.

(** What an accepted [set] does, for contrast. *)
Lemma set_accepted P opt cs update :
  deepEqual (current cs) (ctx_nextState P opt (current cs) update) = false ->
  current (set P opt cs update) = ctx_nextState P opt (current cs) update /\
  exists saved,
    effects (set P opt cs update) = effects cs ++ saved ++ map Notified (subscribers cs).
Proof.
  intros Hne. unfold set. rewrite Hne. simpl.
  destruct (saveState _ _ _ _) as [ls saved]. simpl. eauto.
Qed.

(** *** Setting the current value *)

Lemma assoc_set_same {V} k (v : V) props :
  assoc k props = Some v -> assoc_set k v props = props.
Proof.
  induction props as [|[k' v'] r IH]; simpl; [done|].
  destruct (String.eqb_spec k k') as [->|Hne].
  - by intros [= ->].
  - intros H. by rewrite IH.
Qed.

Lemma deepMerge_self hsc a : wf_value a = true -> deepMerge hsc a a = a.
Proof.
  induction a as [| |x|x|x|x|xs IH|ps IH] using value_nested_ind; intros Hwf;
    try (by apply deepClone_id).
  - done.
  - done.
  - simpl. rewrite deepClone_id by done.
    apply (for_index_inv (fun r => r = VStr x)); [|done].
    by intros acc i c _ ->.
  - simpl. rewrite deepClone_id by done.
    apply (for_index_inv (fun r => r = VArr xs)); [|done].
    intros acc i sv _ ->. unfold merge_step.
    by destruct sv; try done; destruct (_ && _).
  - simpl. rewrite deepClone_id by done.
    pose proof Hwf as [Hnd Hall]%wf_value_obj.
    rewrite Forall_forall in Hall, IH.
    apply (fold_left_inv (fun r => r = VObj ps)); [|done].
    intros acc [k sv] Hin ->. simpl. unfold merge_step.
    rewrite (get_prop_obj_elem ps k sv) by done.
    assert (assoc_set k sv ps = ps) as Hsame.
    { apply assoc_set_same. by apply assoc_NoDup. }
    pose proof (IH _ Hin (Hall _ Hin)) as Hself. simpl in Hself. rewrite Hself.
    destruct sv; simpl; try done; by rewrite Hsame.
Qed.

Lemma nextState_current P cur :
  wf_value cur = true -> typeof cur <> TFunction -> nextState P cur cur = cur.
Proof.
  intros Hwf Hfun. unfold nextState.
  destruct cur as [| |x|x|x|x|xs|ps]; try done.
  - simpl. by rewrite !andb_false_r.
  - simpl. by destruct (negb _).
  - simpl. by destruct (negb (String.eqb x EmptyString)).
  - cbn -[deepMerge]. by apply deepMerge_self.
Qed.

Lemma ctx_nextState_current P opt cur :
  wf_value cur = true -> typeof cur <> TFunction ->
  reducer opt = None \/ includes "type" (keys cur) = false ->
  ctx_nextState P opt cur cur = cur.
Proof.
  intros Hwf Hfun Hred. unfold ctx_nextState.
  destruct cur as [| |x|x|x|x|xs|ps]; try done.
  - by destruct (reducer opt).
  - by destruct (reducer opt).
  - destruct (reducer opt); simpl; by rewrite ?andb_false_r.
  - destruct (reducer opt); simpl; by destruct (negb _).
  - destruct (reducer opt); simpl; by destruct (negb (String.eqb x EmptyString)).
  - destruct (reducer opt) as [reduce|]; simpl; [|done].
    destruct Hred as [?|Hno]; [done|]. by rewrite Hno.
  - destruct (reducer opt) as [reduce|]; cbn -[deepMerge keys];
      [|by apply deepMerge_self].
    destruct Hred as [?|Hno]; [done|]. rewrite Hno. by apply deepMerge_self.
Qed.

(** Setting a structural copy of the current value changes nothing
    when no [NaN] is inside: the candidate is the current value again. *)
Lemma set_current_value_is_noop P opt cs s :
  (wf_value (current cs) = true -> nan_free (current cs) = true ->
   typeof (current cs) <> TFunction ->
   reducer opt = None \/ includes "type" (keys (current cs)) = false ->
   set P opt cs (current cs) = cs) /\
  (wf_value (store s) = true -> nan_free (store s) = true ->
   typeof (store s) <> TFunction ->
   setStore P s (store s) = s).
Proof.
  split.
  - intros Hwf Hnan Hfun Hred. unfold set.
    by rewrite ctx_nextState_current, deepEqual_refl.
  - intros Hwf Hnan Hfun. unfold setStore.
    by rewrite nextState_current, deepEqual_refl.
Qed.

Lemma burst_pushes_one_entry_witness :
  let s := createDataStore demo (VNum 0) in
  let rest := [(50%nat, VNum 2); (199%nat, VNum 3)] in
  deepEqual (store s) (nextState demo (store s) (VNum 1)) = false /\
  accepted_burst demo (setStore demo s (VNum 1)) rest /\
  (DEBOUNCE <= 200)%nat /\
  history (elapse 200 (burst demo (setStore demo s (VNum 1)) rest))
  = [VNum 0; VNum 3].
Proof.
  split; [reflexivity|]. split; [vm_compute; repeat split; lia|].
  split; [unfold DEBOUNCE; lia|].
  exact (proj1 (burst_pushes_one_entry demo (createDataStore demo (VNum 0)) (VNum 1)
                  [(50%nat, VNum 2); (199%nat, VNum 3)] 200%nat
                  eq_refl
                  ltac:(vm_compute; repeat split; lia)
                  ltac:(unfold DEBOUNCE; lia))).
Defined.

Lemma equal_update_is_noop_witness :
  let cs := {| current := VObj [("count", VNum 9)]; subscribers := [7%nat];
               localStorage := storage_with "{}"; effects := [] |} in
  let s := createDataStore demo (VObj [("count", VNum 9)]) in
  deepEqual (current cs) (ctx_nextState demo (persisted []) (current cs)
                            (VObj [("count", VNum 9)])) = true /\
  set demo (persisted []) cs (VObj [("count", VNum 9)]) = cs /\
  deepEqual (store s) (nextState demo (store s) (VFun 1)) = true /\
  setStore demo s (VFun 1) = s.
Proof.
  split; [reflexivity|]. split.
  - apply (proj1 (equal_update_is_noop demo (persisted []) _
                    (createDataStore demo VNull) (VObj [("count", VNum 9)]))).
    reflexivity.
  - split; [reflexivity|].
    apply (proj2 (equal_update_is_noop demo no_options
                    {| current := VNull; subscribers := [];
                       localStorage := storage_with EmptyString; effects := [] |}
                    _ (VFun 1))).
    reflexivity.
Defined.

(** ** Reset *)

Lemma resetStore_collapses P init s :
  let s' := resetStore P init s in
  store s' = deepClone (has_structuredClone P) init /\
  history s' = [deepClone (has_structuredClone P) init] /\
  currentIndex s' = 0 /\ frames s' = S (frames s).
Proof. done. Qed.

Lemma resetStore_timer P init s :
  pushHistoryDebouncedTimeout (resetStore P init s) = pushHistoryDebouncedTimeout s.
Proof. done. Qed.

(** C6: [resetStore] puts a clone of the initial value in the store and
    in a one-entry history with cursor 0, but leaves the debounce timer
    running: a change made 50 units before the reset is pushed 150 units
    after it, and the cursor moves onto that stale entry. *)
Theorem reset_leaves_timer_running :
  let s0 := createDataStore demo (VNum 0) in
  let s1 := elapse 50 (setStore demo s0 (VNum 1)) in
  let s2 := resetStore demo (VNum 0) s1 in
  let s3 := elapse 150 s2 in
  (store s2 = VNum 0 /\ history s2 = [VNum 0] /\ currentIndex s2 = 0) /\
  pushHistoryDebouncedTimeout s2 = Some (150%nat, VNum 1) /\
  (store s3 = VNum 0 /\ history s3 = [VNum 0; VNum 1] /\ currentIndex s3 = 1).
Proof. vm_compute. repeat split. Qed.

(** ** Undo and redo *)

Lemma undo_at_bottom P t : currentIndex t = Number 0 -> undo P t = t.
Proof. intros H. unfold undo. by rewrite H. Qed.

Lemma redo_at_top P t :
  currentIndex t = Number (Z.of_nat (length (history t)) - 1) -> redo P t = t.
Proof. intros H. unfold redo. by rewrite H, number_ltb_irrefl. Qed.

Lemma at_index_lookup (h : list value) (i : Z) (n : nat) v :
  i = Z.of_nat n -> i <= 102 -> h !! n = Some v -> at_index h (Number i) = v.
Proof.
  intros -> Hle Hn. unfold at_index. rewrite array_index_Number by lia.
  by rewrite Nat2Z.id, Hn.
Qed.

Lemma at_index_Some (h : list value) (i : Z) :
  0 <= i < Z.of_nat (length h) -> i <= 102 ->
  h !! Z.to_nat i = Some (at_index h (Number i)).
Proof.
  intros Hi Hle. unfold at_index. rewrite array_index_Number by lia.
  destruct (h !! Z.to_nat i) eqn:E; [done|].
  apply lookup_ge_None in E. lia.
Qed.

(** C7: from a state whose history holds the live value [V0] under the
    cursor, one accepted change followed by its debounced push, then
    [undo], brings back [V0]; [redo] after that brings back the changed
    value; [undo] at cursor 0 and [redo] at the last index change
    nothing. *)
Theorem undo_redo_round_trip (P : Platform) (s : DataStore) (update : value)
    (quiet : nat) :
  history_inv s ->
  at_index (history s) (currentIndex s) = store s ->
  wf_value (store s) = true ->
  deepEqual (store s) (nextState P (store s) update) = false ->
  wf_value (nextState P (store s) update) = true ->
  (DEBOUNCE <= quiet)%nat ->
  let changed := elapse quiet (setStore P s update) in
  let undone := undo P changed in
  let redone := redo P undone in
  store changed = nextState P (store s) update /\
  store undone = store s /\
  store redone = store changed /\
  (forall t, currentIndex t = 0 -> undo P t = t) /\
  (forall t, currentIndex t = Z.of_nat (length (history t)) - 1 -> redo P t = t).
Proof.
  intros Hinv Hrec Hwf0 Hne Hwf1 Hquiet. cbv zeta.
  destruct (setStore_accepted P s update Hne) as (Est & Hj & Eh & Ei & _).
  set (s1 := setStore P s update) in *.
  set (V1 := nextState P (store s) update) in *.
  assert (Hfire : elapse quiet s1 = pushHistory V1 s1).
  { unfold elapse. rewrite Hj, Est, (deepClone_id _ V1) by done.
    destruct (Nat.leb_spec DEBOUNCE quiet); [done|lia]. }
  rewrite Hfire.
  destruct Hinv as (Hlen & c & Hcur & Hidx).
  assert (Hlen1 : Z.of_nat (length (history s1)) <= MAX_HISTORY) by (by rewrite Eh).
  assert (Hcur1 : currentIndex s1 = Number c) by (by rewrite Ei).
  assert (Hidx1 : 0 <= c < Z.of_nat (length (history s1))) by (by rewrite Eh).
  destruct (pushHistory_history V1 s1 c Hlen1 Hcur1 Hidx1) as (Hh & Hi & Hl).
  destruct (pushHistory_frame V1 s1) as (Hst & _).
  set (s2 := pushHistory V1 s1) in *.
  rewrite Eh in Hh. cbv zeta in Hh.
  unfold MAX_HISTORY in *.
  set (i := Z.to_nat c).
  assert (Ei0 : c = Z.of_nat i) by lia.
  assert (Htk : length (take (Z.to_nat (c + 1)) (history s)) = S i).
  { rewrite length_take. lia. }
  set (pushed := take (Z.to_nat (c + 1)) (history s) ++ [V1]) in *.
  assert (Hpl : length pushed = S (S i)).
  { unfold pushed. rewrite length_app, Htk. simpl. lia. }
  set (k := (length pushed - Z.to_nat 100)%nat) in *.
  assert (Hk : (k <= i)%nat) by lia.
  assert (Hlen2 : length (history s2) = (S (S i) - k)%nat).
  { rewrite Hh, length_drop. lia. }
  assert (Hat0 : history s2 !! (i - k)%nat = Some (store s)).
  { rewrite Hh, lookup_drop. replace (k + (i - k))%nat with i by lia.
    unfold pushed. rewrite lookup_app_l by lia.
    rewrite lookup_take_lt by lia.
    rewrite <- Hrec, Hcur. subst i. apply at_index_Some; lia. }
  assert (Hat1 : history s2 !! (S i - k)%nat = Some V1).
  { rewrite Hh, lookup_drop. replace (k + (S i - k))%nat with (S i) by lia.
    unfold pushed. rewrite lookup_app_r by lia.
    rewrite Htk, Nat.sub_diag. done. }
  assert (Hund : undo P s2
                 = notifySubscribers
                     {| store := store s; history := history s2;
                        currentIndex := Number (Z.of_nat (i - k));
                        pushHistoryDebouncedTimeout := pushHistoryDebouncedTimeout s2;
                        listeners := listeners s2; frames := frames s2 |}).
  { unfold undo. rewrite Hi, undo_guard, Number_pred by lia.
    destruct (Z.ltb_spec 0 (Z.of_nat (length (history s2)) - 1)); [|lia].
    replace (Z.of_nat (length (history s2)) - 1 - 1) with (Z.of_nat (i - k)) by lia.
    rewrite (at_index_lookup _ _ (i - k) (store s)) by (done || lia).
    by rewrite deepClone_id. }
  rewrite Hund.
  split; [by rewrite Hst|].
  split; [done|].
  split; [|split; intros t Ht; [by apply undo_at_bottom | by apply redo_at_top]].
  unfold redo. cbn [currentIndex history notifySubscribers].
  rewrite redo_guard, Number_succ by lia.
  destruct (Z.ltb_spec (Z.of_nat (i - k)) (Z.of_nat (length (history s2)) - 1)); [|lia].
  cbn [store notifySubscribers].
  rewrite (at_index_lookup _ _ (S i - k) V1) by (done || lia).
  by rewrite deepClone_id, Hst, Est.
Qed.

Lemma undo_redo_round_trip_witness :
  let s := createDataStore demo (VObj [("count", VNum 5)]) in
  let changed := elapse 200 (setStore demo s (VFun 0)) in
  history_inv s /\
  at_index (history s) (currentIndex s) = store s /\
  wf_value (store s) = true /\
  deepEqual (store s) (nextState demo (store s) (VFun 0)) = false /\
  wf_value (nextState demo (store s) (VFun 0)) = true /\
  (DEBOUNCE <= 200)%nat /\
  store changed = VObj [("count", VNum 6)] /\
  store (undo demo changed) = VObj [("count", VNum 5)] /\
  store (redo demo (undo demo changed)) = VObj [("count", VNum 6)].
Proof.
  pose proof (undo_redo_round_trip demo (createDataStore demo (VObj [("count", VNum 5)]))
                (VFun 0) 200%nat (history_inv_create _ _) eq_refl eq_refl eq_refl eq_refl
                ltac:(unfold DEBOUNCE; lia)) as (H1 & H2 & H3 & _).
  split; [apply history_inv_create|]. do 4 (split; [reflexivity|]).
  split; [unfold DEBOUNCE; lia|].
  split; [exact H1|]. split; [exact H2|]. rewrite H3. exact H1.
Defined.

(** ** Hydration *)

Lemma try_catch_total {A} (body : outcome A) (fallback : A) :
  exists a, try_catch body (Ok fallback) = Ok a.
Proof. destruct body; simpl; eauto. Qed.

Lemma loadState_total P opt init ls : exists v, loadState P opt init ls = Ok v.
Proof.
  unfold loadState. destruct (usable_key (persistKey opt)); [|by eauto].
  apply try_catch_total.
Qed.

Lemma loadState_failure P opt init ls :
  hydration_failure P opt ls -> loadState P opt init ls = Ok init.
Proof.
  intros [key Hkey Hden | key Hkey Hden Habs | key text Hkey Hden Hslot Hparse];
    unfold loadState, getItem; rewrite Hkey, Hden; simpl; [done| |].
  - by rewrite Habs.
  - rewrite Hslot. destruct (String.eqb text EmptyString); [done|]. by rewrite Hparse.
Qed.

(** C8: whatever the persistence options, the storage and its content,
    loading the state and building the store return a store and never
    raise; when access is denied, the key is absent or the content does
    not parse, the store starts from exactly the initial value. *)
Theorem hydration_never_fatal (P : Platform) (opt : ContextStoreOption)
    (initialState : value) (ls : LocalStorage) :
  (exists v, loadState P opt initialState ls = Ok v) /\
  (exists cs, useContextStoreData P opt initialState ls = Ok cs) /\
  (hydration_failure P opt ls ->
   loadState P opt initialState ls = Ok initialState /\
   exists cs, useContextStoreData P opt initialState ls = Ok cs /\
              current cs = initialState).
Proof.
  destruct (loadState_total P opt initialState ls) as [v Hv].
  split; [by eauto|]. split.
  - unfold useContextStoreData. rewrite Hv. simpl. eauto.
  - intros Hfail. pose proof (loadState_failure P opt initialState ls Hfail) as Hl.
    split; [done|]. unfold useContextStoreData. rewrite Hl. simpl. eauto.
Qed.

Lemma hydration_never_fatal_witness :
  let init := VObj [("columnVisibility", VObj [])] in
  hydration_failure demo (persisted ["columnVisibility"]) (storage_with "{oops") /\
  loadState demo (persisted ["columnVisibility"]) init (storage_with "{oops") = Ok init.
Proof.
  assert (Hfail : hydration_failure demo (persisted ["columnVisibility"])
                    (storage_with "{oops")).
  { by apply (malformed_content _ _ _ "grid" "{oops"). }
  split; [exact Hfail|].
  exact (proj1 (proj2 (proj2 (hydration_never_fatal demo (persisted ["columnVisibility"])
                                (VObj [("columnVisibility", VObj [])])
                                (storage_with "{oops"))) Hfail)).
Defined.

(** ** Mutator-function updates *)

(** The claim of C1 fails for the context-scoped store: on the record
    [{count: 5}] a function that returns [{count: 9}] and leaves its
    draft alone changes nothing, where [setStore] takes the returned
    value. *)
Lemma ctx_set_drops_returned_value :
  let cur := VObj [("count", VNum 5)] in
  let returned := (call demo 1 (deepClone (has_structuredClone demo) cur)).2 in
  is_record_or_sequence cur = true /\
  returned = VObj [("count", VNum 9)] /\
  nextState demo cur (VFun 1) = returned /\
  ctx_nextState demo no_options cur (VFun 1) = cur /\
  ctx_nextState demo no_options cur (VFun 1) <> returned.
Proof. vm_compute. repeat split. discriminate. Qed.

Lemma record_or_sequence_typeof cur :
  is_record_or_sequence cur = true ->
  jstype_eqb (typeof cur) TObject = true /\ is_primitive_state cur = false.
Proof. by destruct cur. Qed.

(** C1, as the code has it: on a record or sequence, both stores clone
    the current value into a draft and call the function on the draft;
    [setStore] takes the returned value unless it is [undefined], and
    the draft as the function left it otherwise; the context store's
    [set] always takes the draft and ignores what the function returns.
    An accepted candidate becomes the value of the store. *)
Theorem mutator_update_next_value (P : Platform) (opt : ContextStoreOption)
    (cur : value) (f : nat) :
  is_record_or_sequence cur = true ->
  let result := call P f (deepClone (has_structuredClone P) cur) in
  let candidate := match result.2 with VUndef => result.1 | _ => result.2 end in
  nextState P cur (VFun f) = candidate /\
  ctx_nextState P opt cur (VFun f) = result.1 /\
  (forall s, store s = cur -> deepEqual cur candidate = false ->
             store (setStore P s (VFun f)) = candidate) /\
  (forall cs, current cs = cur -> deepEqual cur result.1 = false ->
              current (set P opt cs (VFun f)) = result.1).
Proof.
  intros Hobj. destruct (record_or_sequence_typeof cur Hobj) as [Hty Hprim].
  cbv zeta.
  assert (Hn : nextState P cur (VFun f)
               = match (call P f (deepClone (has_structuredClone P) cur)).2 with
                 | VUndef => (call P f (deepClone (has_structuredClone P) cur)).1
                 | _ => (call P f (deepClone (has_structuredClone P) cur)).2
                 end).
  { unfold nextState. rewrite Hty. simpl.
    by destruct (call P f (deepClone (has_structuredClone P) cur)) as [d []]. }
  assert (Hc : ctx_nextState P opt cur (VFun f)
               = (call P f (deepClone (has_structuredClone P) cur)).1).
  { unfold ctx_nextState. by rewrite Hprim. }
  split; [done|]. split; [done|]. split.
  - intros s <- Hne. rewrite <- Hn in Hne.
    by destruct (setStore_accepted P s (VFun f) Hne) as [-> _].
  - intros cs <- Hne. rewrite <- Hc in Hne.
    by destruct (set_accepted P opt cs (VFun f) Hne) as [-> _].
Qed.

Lemma mutator_update_next_value_witness :
  let cur := VObj [("count", VNum 5)] in
  is_record_or_sequence cur = true /\
  nextState demo cur (VFun 0) = VObj [("count", VNum 6)] /\
  nextState demo cur (VFun 1) = VObj [("count", VNum 9)] /\
  ctx_nextState demo no_options cur (VFun 0) = VObj [("count", VNum 6)].
Proof.
  pose proof (mutator_update_next_value demo no_options (VObj [("count", VNum 5)]) 0
                eq_refl) as (H0 & Hc & _).
  pose proof (mutator_update_next_value demo no_options (VObj [("count", VNum 5)]) 1
                eq_refl) as (H1 & _).
  split; [reflexivity|]. split; [exact H0|]. split; [exact H1|]. exact Hc.
Defined.

(** ** Merging *)

(** C9: for records [a] and [b], [deepMerge a b] keeps every key of [a];
    a key of [a] that [b] lacks keeps [a]'s value; a key of both whose
    values are not both records, [b]'s being defined, gets [b]'s value;
    a key that [b] holds as [undefined] is skipped: the result has under
    it what [a] has, and has the key only if [a] does. *)
Theorem deepMerge_keeps_and_overrides (hsc : bool) (pa pb : list (string * value)) :
  wf_value (VObj pa) = true -> wf_value (VObj pb) = true ->
  let a := VObj pa in
  let b := VObj pb in
  let r := deepMerge hsc a b in
  (forall k, k ∈ keys a -> k ∈ keys r) /\
  (forall k, k ∈ keys a -> k ∉ keys b -> get_prop r k = get_prop a k) /\
  (forall k, k ∈ keys a -> k ∈ keys b -> get_prop b k <> VUndef ->
     isPlainObject (get_prop a k) && isPlainObject (get_prop b k) = false ->
     get_prop r k = get_prop b k) /\
  (forall k, k ∈ keys b -> get_prop b k = VUndef ->
     get_prop r k = get_prop a k /\ (k ∈ keys r <-> k ∈ keys a)).
Proof.
  intros Ha Hb. cbv zeta.
  pose proof Hb as [Hnd _]%wf_value_obj.
  destruct (deepMerge_records hsc pa pb Ha Hnd) as (pf & -> & Hpf).
  split; [|split; [|split]].
  - intros k. rewrite !keys_obj_elem, Hpf. unfold merged_at.
    by destruct (assoc k pb) as [[]|].
  - intros k _ Hkb. rewrite !get_prop_obj, Hpf. unfold merged_at.
    unfold keys in Hkb. simpl in Hkb. apply assoc_None in Hkb. by rewrite Hkb.
  - intros k _ _ Hdef Hnot. rewrite (get_prop_obj pf), Hpf. unfold merged_at.
    rewrite (get_prop_obj pb) in Hdef, Hnot |- *.
    destruct (assoc k pb) as [sv|]; simpl in *; [|done].
    rewrite Hnot. by destruct sv.
  - intros k Hkb Hund. rewrite !keys_obj_elem, (get_prop_obj pf), Hpf.
    unfold merged_at. rewrite (get_prop_obj pb) in Hund.
    apply keys_obj_elem in Hkb.
    destruct (assoc k pb) as [sv|]; [|done]. simpl in Hund. subst sv.
    by rewrite get_prop_obj.
Qed.

Lemma deepMerge_keeps_and_overrides_witness :
  let pa := [("id", VNum 1); ("name", VStr "a"); ("tags", VArr [])] in
  let pb := [("name", VStr "b"); ("tags", VUndef); ("extra", VUndef)] in
  wf_value (VObj pa) = true /\ wf_value (VObj pb) = true /\
  deepMerge true (VObj pa) (VObj pb)
  = VObj [("id", VNum 1); ("name", VStr "b"); ("tags", VArr [])] /\
  get_prop (deepMerge true (VObj pa) (VObj pb)) "tags" = get_prop (VObj pa) "tags".
Proof.
  split; [reflexivity|]. split; [reflexivity|]. split; [reflexivity|].
  refine (proj1 (proj2 (proj2 (proj2
            (deepMerge_keeps_and_overrides true
               [("id", VNum 1); ("name", VStr "a"); ("tags", VArr [])]
               [("name", VStr "b"); ("tags", VUndef); ("extra", VUndef)]
               eq_refl eq_refl))) "tags" _ eq_refl)).
  apply (list_elem_of_fmap_2 fst _ ("tags", VUndef)). set_solver.
Defined.

(** ** Structural identity *)

(** C4: [deepEqual] answers [true] on the empty sequence and the empty
    record, and on a sequence and the record of its indices, which are
    not structurally identical. *)
Theorem deepEqual_sequence_record :
  deepEqual (VArr []) (VObj []) = true /\
  deepEqual (VObj []) (VArr []) = true /\
  deepEqual (VArr [VNum 1; VNum 2]) (VObj [("1", VNum 2); ("0", VNum 1)]) = true /\
  ~ structurally_identical (VArr []) (VObj []) /\
  store (setStore demo (createDataStore demo (VObj [])) (VArr [])) = VObj [].
Proof.
  repeat split; try reflexivity. intros H. inversion H.
Qed.

(** ** Worked scenarios *)

(** A partial update is merged into the record the store holds. *)
Example set_column_visibility :
  let cs := {| current := VObj [("columnVisibility", VObj [])]; subscribers := [1%nat];
               localStorage := storage_with EmptyString; effects := [] |} in
  let cs' := set demo (persisted ["columnVisibility"]) cs
               (VObj [("columnVisibility", VObj [("id", VBool false)])]) in
  current cs' = VObj [("columnVisibility", VObj [("id", VBool false)])] /\
  effects cs' = [Written "grid" "?"; Notified 1].
Proof. by vm_compute. Qed.

(** Only the configured fields are written to the slot. *)
Example persisted_fields_only :
  pick_fields demo ["columnVisibility"]
    (VObj [("columnVisibility", VObj [("id", VBool false)]); ("rows", VArr [])])
    (VObj [])
  = Ok (VObj [("columnVisibility", VObj [("id", VBool false)])]).
Proof. reflexivity. Qed.

(** The update of [src/App.tsx] returns the value it assigns: the
    context store, which ignores what a mutator returns, keeps the
    record and its new field; [setStore] would put the returned value in
    place of the record. *)
Example app_dispatch_visibility :
  let cur := VObj [("columnVisibility", VObj [])] in
  ctx_nextState demo (persisted ["columnVisibility"]) cur (VFun 3)
  = VObj [("columnVisibility", VObj [("id", VBool false)])] /\
  nextState demo cur (VFun 3) = VObj [("id", VBool false)].
Proof. by vm_compute. Qed.

(** A mutator that increments [count] in place: one change, one
    notification. *)
Example increment_count :
  let s := createDataStore demo (VObj [("count", VNum 5)]) in
  let s' := setStore demo s (VFun 0) in
  store s' = VObj [("count", VNum 6)] /\ frames s' = 1%nat /\ history s' = history s.
Proof. by vm_compute. Qed.

(** Stored fields are laid over the initial value. *)
Example hydrate_from_storage :
  loadState demo (persisted []) (VObj [("columnVisibility", VObj [])]) (storage_with "{}")
  = Ok (VObj [("columnVisibility", VObj [])]).
Proof. reflexivity. Qed.

(** A stale timer after [undo]: the snapshot of the undone change is
    pushed again. *)
Example undo_before_timer :
  let s := elapse 200 (setStore demo (createDataStore demo (VNum 0)) (VNum 1)) in
  let s' := elapse 200 (undo demo (elapse 10 (setStore demo s (VNum 2)))) in
  history s = [VNum 0; VNum 1] /\ store s' = VNum 0 /\
  history s' = [VNum 0; VNum 2] /\ currentIndex s' = 1.
Proof. by vm_compute. Qed.

(** ** Clones share nothing with their source *)

Module HeapFacts.
Import Heap.

Lemma repr_in_arr D h ts r :
  repr_in D h (VArr ts) r <->
  exists a rs, r = RRef a /\ D a /\ h !! a = Some (CArr rs) /\
               Forall2 (repr_in D h) ts rs.
Proof.
  simpl. apply exist_proper; intros a. apply exist_proper; intros rs.
  do 3 apply and_iff_compat_l.
  revert rs. induction ts as [|t ts IH]; intros [|r' rs]; simpl.
  - split; [constructor | done].
  - split; [done | inversion 1].
  - split; [done | inversion 1].
  - rewrite IH. split; [intros []; by constructor | by inversion 1].
Qed.

Lemma repr_in_obj D h ps r :
  repr_in D h (VObj ps) r <->
  exists a rps, r = RRef a /\ D a /\ h !! a = Some (CObj rps) /\
                Forall2 (repr_prop D h) ps rps.
Proof.
  simpl. apply exist_proper; intros a. apply exist_proper; intros rps.
  do 3 apply and_iff_compat_l.
  revert rps.
  induction ps as [|[k t] ps IH]; intros [|[k' r'] rps]; simpl.
  - split; [constructor | done].
  - split; [done | inversion 1].
  - split; [done | inversion 1].
  - rewrite IH. unfold repr_prop. split.
    + intros (? & ? & ?). by constructor.
    + inversion 1; subst. naive_solver.
Qed.

Lemma repr_in_scalar D h t r :
  is_scalar t = true -> repr_in D h t r ->
  forall D' h', repr_in D' h' t r.
Proof. by destruct t. Qed.

(** A representation survives any change that keeps the cells it uses. *)
Lemma repr_in_transport D D' h h' t : forall r,
  repr_in D h t r ->
  (forall a c, D a -> h !! a = Some c -> D' a /\ h' !! a = Some c) ->
  repr_in D' h' t r.
Proof.
  induction t as [| | | | | |ts IH|ps IH] using value_nested_ind;
    intros r Hr Hkeep; try done.
  - apply repr_in_arr in Hr as (a & rs & -> & Da & Ha & Hall).
    destruct (Hkeep a _ Da Ha) as [Da' Ha'].
    apply repr_in_arr. exists a, rs. repeat split; try done.
    clear Ha Ha'. induction Hall as [|t r ts rs Htr _ IHall]; [constructor|].
    apply Forall_cons in IH as [IHt IHts]. constructor; auto.
  - apply repr_in_obj in Hr as (a & rps & -> & Da & Ha & Hall).
    destruct (Hkeep a _ Da Ha) as [Da' Ha'].
    apply repr_in_obj. exists a, rps. repeat split; try done.
    clear Ha Ha'. induction Hall as [|p rp ps rps [Hk Htr] _ IHall]; [constructor|].
    apply Forall_cons in IH as [IHt IHts]. constructor; [split|]; auto.
Qed.

Lemma repr_in_weaken D D' h h' t r :
  repr_in D h t r -> (forall a, D a -> D' a) -> h ⊆ h' -> repr_in D' h' t r.
Proof.
  intros Hr HD Hsub. apply (repr_in_transport D D' h h' t r Hr).
  intros a c Da Ha. split; [auto|]. by apply (lookup_weaken h h').
Qed.

(** Everything a represented value reaches lies in [D]. *)
Lemma repr_in_reach D h r b :
  reach h r b -> forall t, repr_in D h t r -> D b.
Proof.
  induction 1 as [a | a c r b Ha Hr Hreach IH]; intros t Ht.
  - destruct t; try done.
    + by apply repr_in_arr in Ht as (a' & rs & [= <-] & Da & _).
    + by apply repr_in_obj in Ht as (a' & rs & [= <-] & Da & _).
  - destruct t; try done.
    + apply repr_in_arr in Ht as (a' & rs & [= <-] & _ & Ha' & Hall).
      rewrite Ha in Ha'. injection Ha' as ->. simpl in Hr.
      apply list_elem_of_lookup in Hr as [i Hi].
      destruct (Forall2_lookup_r _ _ _ _ _ Hall Hi) as (t & _ & Ht). eauto.
    + apply repr_in_obj in Ht as (a' & rps & [= <-] & _ & Ha' & Hall).
      rewrite Ha in Ha'. injection Ha' as ->. simpl in Hr.
      apply list_elem_of_fmap in Hr as (rp & -> & Hrp).
      apply list_elem_of_lookup in Hrp as [i Hi].
      destruct (Forall2_lookup_r _ _ _ _ _ Hall Hi) as (p & _ & _ & Ht). eauto.
Qed.

Lemma alloc_spec h c :
  let '(h', r) := alloc h c in
  exists a, r = RRef a /\ (a ∉ dom h) /\ h' = <[a := c]> h /\ h ⊆ h'.
Proof.
  unfold alloc. exists (fresh (dom h)).
  assert (fresh (dom h) ∉ dom h) as Hf by apply is_fresh.
  repeat split; try done.
  apply insert_subseteq. by apply not_elem_of_dom.
Qed.

Lemma new_in_mono h0 h1 h2 h3 a :
  h0 ⊆ h1 -> h2 ⊆ h3 -> new_in h1 h2 a -> new_in h0 h3 a.
Proof.
  intros H01 H23 [Hn Hi]. split.
  - intros Hd. apply Hn. by apply (subseteq_dom h0 h1).
  - by apply (subseteq_dom h2 h3).
Qed.

Lemma clone_items_spec clone D h0 ts rs :
  Forall2 (repr_in D h0) ts rs ->
  Forall (clones clone D h0) ts ->
  forall h, h0 ⊆ h ->
    exists h' rs', clone_items clone h rs = Some (h', rs') /\ h ⊆ h' /\
                   Forall2 (repr_in (new_in h h') h') ts rs'.
Proof.
  induction 1 as [|t r ts rs Htr Hall IH]; intros Hcl h Hsub; simpl.
  - exists h, []. repeat split; [done | constructor].
  - apply Forall_cons in Hcl as [Hc Hcl].
    destruct (Hc h r Hsub Htr) as (h1 & r' & -> & Hsub1 & Hr').
    destruct (IH Hcl h1) as (h2 & rs' & -> & Hsub2 & Hrs'); [by etrans|].
    exists h2, (r' :: rs'). split; [done|]. split; [by etrans|].
    constructor.
    + apply (repr_in_weaken _ _ _ _ _ _ Hr'); [|done].
      intros a. by apply new_in_mono.
    + eapply Forall2_impl; [exact Hrs'|]. intros t' r'' Ht'. simpl in Ht'.
      apply (repr_in_weaken _ _ _ _ _ _ Ht'); [|done].
      intros a. by apply new_in_mono.
Qed.

Lemma clone_props_spec clone D h0 ps rps :
  Forall2 (repr_prop D h0) ps rps ->
  Forall (fun p => clones clone D h0 p.2) ps ->
  forall h acc tacc h00, h0 ⊆ h -> h00 ⊆ h ->
    NoDup (acc.*1 ++ ps.*1) ->
    Forall2 (repr_prop (new_in h00 h) h) tacc acc ->
    exists h' rps', clone_props clone h rps acc = Some (h', rps') /\ h ⊆ h' /\
                    Forall2 (repr_prop (new_in h00 h') h') (tacc ++ ps) rps'.
Proof.
  induction 1 as [|[k t] [k' r] ps rps [Hk Htr] Hall IH];
    intros Hcl h acc tacc h00 Hsub Hsub0 Hnd Hacc; simpl.
  - exists h, acc. rewrite app_nil_r. repeat split; done.
  - simpl in Hk, Htr. subst k'.
    apply Forall_cons in Hcl as [Hc Hcl]. simpl in Hc.
    destruct (Hc h r Hsub Htr) as (h1 & r' & -> & Hsub1 & Hr').
    assert (Hfresh : k ∉ acc.*1).
    { apply NoDup_app in Hnd as (_ & Hdisj & _). intros Hin.
      apply (Hdisj _ Hin). left. }
    rewrite (assoc_set_fresh k r' acc Hfresh).
    destruct (IH Hcl h1 (acc ++ [(k, r')]) (tacc ++ [(k, t)]) h00)
      as (h2 & rps' & -> & Hsub2 & Hres).
    + by etrans.
    + by etrans.
    + rewrite fmap_app. simpl in *. by rewrite <- app_assoc.
    + apply Forall2_app.
      * eapply Forall2_impl; [exact Hacc|]. intros p rp [Hp Hrp].
        split; [done|]. apply (repr_in_weaken _ _ _ _ _ _ Hrp); [|done].
        intros a. by apply new_in_mono.
      * constructor; [|constructor]. split; [done|]. simpl.
        apply (repr_in_weaken _ _ _ _ _ _ Hr'); [|done].
        intros a. by apply new_in_mono.
    + exists h2, rps'. split; [done|]. split; [by etrans|].
      by rewrite <- app_assoc in Hres.
Qed.

Lemma depth_arr_elem ts t : t ∈ ts -> (depth t < depth (VArr ts))%nat.
Proof.
  simpl. induction ts as [|x ts IH]; [by intros ?%elem_of_nil|].
  intros [->|Hin]%elem_of_cons; simpl; [lia|]. specialize (IH Hin). lia.
Qed.

Lemma depth_obj_elem (ps : list (string * value)) p :
  p ∈ ps -> (depth p.2 < depth (VObj ps))%nat.
Proof.
  simpl. induction ps as [|x ps IH]; [by intros ?%elem_of_nil|].
  intros [->|Hin]%elem_of_cons; simpl; [lia|]. specialize (IH Hin). lia.
Qed.

Lemma deepClonePolyfill_scalar D h0 t fuel :
  is_scalar t = true -> clones (deepClonePolyfill fuel) D h0 t.
Proof.
  intros Hs h r Hsub Hr. exists h, r.
  destruct t; try done; simpl in Hr; subst r; by destruct fuel.
Qed.

(** [deepClonePolyfill] returns, given fuel for the depth of the value,
    a representation of the same data in cells that are all new. *)
Lemma deepClonePolyfill_spec D h0 t :
  wf_value t = true ->
  forall fuel, (depth t <= fuel)%nat -> clones (deepClonePolyfill fuel) D h0 t.
Proof.
  induction t as [| | | | | |ts IH|ps IH] using value_nested_ind;
    intros Hwf fuel Hfuel;
    try (by apply deepClonePolyfill_scalar); intros h r Hsub Hr.
  - apply repr_in_arr in Hr as (a & rs & -> & Da & Ha & Hall).
    destruct fuel as [|fuel]; [simpl in Hfuel; lia|]. simpl deepClonePolyfill.
    rewrite (lookup_weaken h0 h a _ Ha Hsub).
    apply wf_value_arr in Hwf.
    destruct (clone_items_spec (deepClonePolyfill fuel) D h0 ts rs Hall) with (h := h)
      as (h1 & rs' & -> & Hsub1 & Hrs'); [|done|].
    { rewrite Forall_forall in IH, Hwf. apply Forall_forall. intros t Ht.
      apply (IH t Ht (Hwf t Ht)). pose proof (depth_arr_elem ts t Ht). lia. }
    pose proof (alloc_spec h1 (CArr rs')) as Hal.
    destruct (alloc h1 (CArr rs')) as [h2 r2].
    destruct Hal as (a2 & -> & Hfresh & -> & Hsub2).
    eexists _, _. split; [done|]. split; [by etrans|].
    apply repr_in_arr. exists a2, rs'. split; [done|]. split; [|split].
    + split; [|rewrite dom_insert; set_solver].
      intros Hin. apply Hfresh. by apply (subseteq_dom h h1).
    + apply lookup_insert_eq.
    + eapply Forall2_impl; [exact Hrs'|]. intros t r Htr. simpl in Htr.
      apply (repr_in_weaken _ _ _ _ _ _ Htr); [|done].
      intros b. by apply new_in_mono.
  - apply repr_in_obj in Hr as (a & rps & -> & Da & Ha & Hall).
    destruct fuel as [|fuel]; [simpl in Hfuel; lia|]. simpl deepClonePolyfill.
    rewrite (lookup_weaken h0 h a _ Ha Hsub).
    apply wf_value_obj in Hwf as [Hnd Hwf].
    destruct (clone_props_spec (deepClonePolyfill fuel) D h0 ps rps Hall)
      with (h := h) (acc := @nil (string * ref_value)) (tacc := @nil (string * value))
           (h00 := h)
      as (h1 & rps' & -> & Hsub1 & Hrps'); try done.
    { rewrite Forall_forall in IH, Hwf. apply Forall_forall. intros p Hp.
      apply (IH p Hp (Hwf p Hp)). pose proof (depth_obj_elem ps p Hp). lia. }
    pose proof (alloc_spec h1 (CObj rps')) as Hal.
    destruct (alloc h1 (CObj rps')) as [h2 r2].
    destruct Hal as (a2 & -> & Hfresh & -> & Hsub2).
    eexists _, _. split; [done|]. split; [by etrans|].
    apply repr_in_obj. exists a2, rps'. split; [done|]. split; [|split].
    + split; [|rewrite dom_insert; set_solver].
      intros Hin. apply Hfresh. by apply (subseteq_dom h h1).
    + apply lookup_insert_eq.
    + simpl in Hrps'. eapply Forall2_impl; [exact Hrps'|].
      intros p rp [Hk Htr]. split; [done|].
      apply (repr_in_weaken _ _ _ _ _ _ Htr); [|done].
      intros b. by apply new_in_mono.
Qed.

Lemma deepClone_polyfill hsc fuel h r :
  deepClone hsc fuel h r = deepClonePolyfill fuel h r.
Proof.
  unfold deepClone, structuredClone. destruct hsc; [|done].
  destruct (holds_callable fuel h r); [done|].
  by destruct (deepClonePolyfill fuel h r).
Qed.

Lemma deepClone_spec hsc D h0 t fuel :
  wf_value t = true -> (depth t <= fuel)%nat -> clones (deepClone hsc fuel) D h0 t.
Proof.
  intros Hwf Hfuel h r Hsub Hr. rewrite deepClone_polyfill.
  by apply (deepClonePolyfill_spec D h0 t Hwf fuel Hfuel).
Qed.

(** *** What a successful clone returns *)

Lemma depth_arr_bound ts n :
  Forall (fun t => (depth t <= n)%nat) ts -> (depth (VArr ts) <= S n)%nat.
Proof. simpl. induction 1; simpl; lia. Qed.

Lemma depth_obj_bound (ps : list (string * value)) n :
  Forall (fun p => (depth p.2 <= n)%nat) ps -> (depth (VObj ps) <= S n)%nat.
Proof. simpl. induction 1; simpl; lia. Qed.

Lemma clone_items_sound clone n :
  returns_data clone n ->
  forall l h h' l', clone_items clone h l = Some (h', l') ->
    h ⊆ h' /\ exists ts, Forall2 (repr_in (new_in h h') h') ts l' /\ Forall (data n) ts.
Proof.
  intros Hcl. induction l as [|x rest IH]; intros h h' l' Hrun; simpl in Hrun.
  - injection Hrun as <- <-. split; [done|]. exists []. split; constructor.
  - destruct (clone h x) as [[h1 x']|] eqn:Ex; [|done].
    destruct (clone_items clone h1 rest) as [[h2 rest']|] eqn:Er; [|done].
    injection Hrun as <- <-.
    destruct (Hcl _ _ _ _ Ex) as (Hsub1 & t & Ht & Hd).
    destruct (IH _ _ _ Er) as (Hsub2 & ts & Hts & Hds).
    split; [by etrans|]. exists (t :: ts). split; [|by constructor].
    constructor.
    + apply (repr_in_weaken _ _ _ _ _ _ Ht); [|done]. intros a. by apply new_in_mono.
    + eapply Forall2_impl; [exact Hts|]. intros t' r' Ht'. simpl in Ht'.
      apply (repr_in_weaken _ _ _ _ _ _ Ht'); [|done]. intros a. by apply new_in_mono.
Qed.

Lemma repr_prop_assoc_set D h k t r tacc acc :
  repr_in D h t r ->
  Forall2 (repr_prop D h) tacc acc ->
  Forall2 (repr_prop D h) (assoc_set k t tacc) (assoc_set k r acc).
Proof.
  intros Htr. induction 1 as [|[k1 t1] [k2 r2] tacc acc [Hk Hp] Hall IH]; simpl.
  - by repeat constructor.
  - simpl in Hk. subst k2. destruct (String.eqb k k1); constructor; try done.
Qed.

Lemma repr_prop_keys D h ps rps :
  Forall2 (repr_prop D h) ps rps -> ps.*1 = rps.*1.
Proof.
  induction 1 as [|p rp ps rps [Hk _] _ IH]; [done|].
  rewrite !fmap_cons. by f_equal.
Qed.

Lemma clone_props_sound clone n :
  returns_data clone n ->
  forall l h acc h' out h00 tacc,
    h00 ⊆ h ->
    Forall2 (repr_prop (new_in h00 h) h) tacc acc ->
    Forall (fun p => data n p.2) tacc ->
    NoDup acc.*1 ->
    clone_props clone h l acc = Some (h', out) ->
    h ⊆ h' /\ exists tout,
      Forall2 (repr_prop (new_in h00 h') h') tout out /\
      Forall (fun p => data n p.2) tout /\ NoDup out.*1.
Proof.
  intros Hcl. induction l as [|[k x] rest IH];
    intros h acc h' out h00 tacc Hsub0 Hacc Hdata Hnd Hrun; simpl in Hrun.
  - injection Hrun as <- <-. split; [done|]. by exists tacc.
  - destruct (clone h x) as [[h1 x']|] eqn:Ex; [|done].
    destruct (Hcl _ _ _ _ Ex) as (Hsub1 & t & Ht & Hd).
    destruct (IH h1 (assoc_set k x' acc) h' out h00 (assoc_set k t tacc))
      as (Hsub2 & tout & Hout & Hdout & Hndout); try done.
    + by etrans.
    + apply repr_prop_assoc_set.
      * apply (repr_in_weaken _ _ _ _ _ _ Ht); [|done]. intros a. by apply new_in_mono.
      * eapply Forall2_impl; [exact Hacc|]. intros p rp [Hk Hp]. split; [done|].
        apply (repr_in_weaken _ _ _ _ _ _ Hp); [|done]. intros a. by apply new_in_mono.
    + by apply assoc_set_Forall.
    + by apply assoc_set_NoDup.
    + split; [by etrans|]. by exists tout.
Qed.

Lemma scalar_of_repr D h r fuel :
  (forall a, r <> RRef a) -> repr_in D h (scalar_of r) r /\ data fuel (scalar_of r).
Proof.
  intros Hr. unfold data.
  destruct r; simpl; try (split; [done|]; split; [done|lia]).
  exfalso. by eapply Hr.
Qed.

Lemma deepClonePolyfill_sound fuel : returns_data (deepClonePolyfill fuel) fuel.
Proof.
  induction fuel as [|fuel IH]; intros h r h' r' Hrun.
  - destruct r; simpl in Hrun; try done; injection Hrun as <- <-;
      (split; [done|]; eexists; by apply scalar_of_repr).
  - destruct r as [| | | | | |a];
      try (simpl in Hrun; injection Hrun as <- <-;
           (split; [done|]; eexists; by apply scalar_of_repr)).
    simpl in Hrun. destruct (h !! a) as [[items|props]|] eqn:Ea; [| |done].
    + destruct (clone_items (deepClonePolyfill fuel) h items) as [[h1 items']|] eqn:Ei;
        [|done].
      destruct (clone_items_sound _ _ IH _ _ _ _ Ei) as (Hsub1 & ts & Hts & Hds).
      pose proof (alloc_spec h1 (CArr items')) as Hal.
      destruct (alloc h1 (CArr items')) as [h2 r2].
      destruct Hal as (a2 & -> & Hfresh & -> & Hsub2).
      injection Hrun as <- <-. split; [by etrans|].
      exists (VArr ts). split; [|unfold data; split].
      * apply repr_in_arr. exists a2, items'. split; [done|]. split; [|split].
        -- split; [|rewrite dom_insert; set_solver].
           intros Hin. apply Hfresh. by apply (subseteq_dom h h1).
        -- apply lookup_insert_eq.
        -- eapply Forall2_impl; [exact Hts|]. intros t r Htr. simpl in Htr.
           apply (repr_in_weaken _ _ _ _ _ _ Htr); [|done].
           intros b. by apply new_in_mono.
      * apply wf_value_arr. eapply Forall_impl; [exact Hds|]. by intros t [? ?].
      * apply depth_arr_bound. eapply Forall_impl; [exact Hds|]. by intros t [? ?].
    + destruct (clone_props (deepClonePolyfill fuel) h props []) as [[h1 props']|] eqn:Ep;
        [|done].
      destruct (clone_props_sound _ _ IH props h [] h1 props' h []
                  (reflexivity h) (List.Forall2_nil _) (List.Forall_nil _) (NoDup_nil_2) Ep)
        as (Hsub1 & tout & Hout & Hdout & Hndout).
      pose proof (alloc_spec h1 (CObj props')) as Hal.
      destruct (alloc h1 (CObj props')) as [h2 r2].
      destruct Hal as (a2 & -> & Hfresh & -> & Hsub2).
      injection Hrun as <- <-. split; [by etrans|].
      exists (VObj tout). split; [|unfold data; split].
      * apply repr_in_obj. exists a2, props'. split; [done|]. split; [|split].
        -- split; [|rewrite dom_insert; set_solver].
           intros Hin. apply Hfresh. by apply (subseteq_dom h h1).
        -- apply lookup_insert_eq.
        -- eapply Forall2_impl; [exact Hout|]. intros p rp [Hk Htr]. split; [done|].
           apply (repr_in_weaken _ _ _ _ _ _ Htr); [|done].
           intros b. by apply new_in_mono.
      * apply wf_value_obj. split.
        -- by rewrite (repr_prop_keys _ _ _ _ Hout).
        -- eapply Forall_impl; [exact Hdout|]. by intros p [? ?].
      * apply depth_obj_bound. eapply Forall_impl; [exact Hdout|]. by intros p [? ?].
Qed.

Lemma deepClone_sound hsc fuel : returns_data (deepClone hsc fuel) fuel.
Proof.
  intros h r h' r'. rewrite deepClone_polyfill. apply deepClonePolyfill_sound.
Qed.

(** *** The history stays out of reach *)

Lemma reach_is_ref h r b : reach h r b -> exists a, r = RRef a.
Proof. destruct 1; eauto. Qed.

Lemma reach_ref_inv h a b :
  reach h (RRef a) b ->
  b = a \/ exists c r, h !! a = Some c /\ r ∈ children c /\ reach h r b.
Proof. inversion 1; subst; [by left | right; eauto]. Qed.

Lemma reach_trans h r a b : reach h r a -> reach h (RRef a) b -> reach h r b.
Proof.
  induction 1 as [a | a c r a' Ha Hr Hreach IH]; intros Hb; [done|].
  eapply reach_step; eauto.
Qed.

Lemma lookup_kept (h h' : gmap nat cell) a : h ⊆ h' -> a ∈ dom h -> h' !! a = h !! a.
Proof.
  intros Hsub [c Hc]%elem_of_dom. rewrite Hc. by apply (lookup_weaken h h').
Qed.

Lemma closed_transport h h' (K : nat -> Prop) :
  closed h K -> (forall a, K a -> h' !! a = h !! a) -> closed h' K.
Proof.
  intros Hc Hsame a b Ka Hreach.
  remember (RRef a) as r eqn:Er. revert a Er Ka.
  induction Hreach as [a0 | a0 c r b Ha Hr Hreach IH]; intros a [= ->] Ka; [done|].
  destruct (reach_is_ref _ _ _ Hreach) as [a2 ->].
  apply (IH a2 eq_refl). apply (Hc a a2 Ka).
  rewrite (Hsame a Ka) in Ha. eapply reach_step; [exact Ha | exact Hr | constructor].
Qed.

Lemma known_reach h (K : nat -> Prop) v a :
  closed h K -> known K v -> reach h v a -> K a.
Proof.
  intros Hc Hk Hr. destruct (reach_is_ref _ _ _ Hr) as [a0 ->].
  apply (Hc a0 a); [by apply Hk | done].
Qed.

Lemma outside_ok_grow h h' K : outside_ok h K -> h ⊆ h' -> outside_ok h' K.
Proof.
  intros [Hdom Hc] Hsub. split.
  - intros a Ka. by apply (subseteq_dom h h'), Hdom.
  - apply (closed_transport h h' K Hc). intros a Ka. by apply lookup_kept, Hdom.
Qed.

(** Handing out a value whose cells are all in the heap keeps the
    outside well-formed. *)
Lemma outside_ok_hand_out h K v :
  outside_ok h K -> (forall a, reach h v a -> a ∈ dom h) ->
  outside_ok h (fun a => K a \/ reach h v a).
Proof.
  intros [Hdom Hc] Hv. split.
  - intros a [Ka|Hr]; auto.
  - intros a b [Ka|Hr] Hb; [left; by apply (Hc a b) | right; by apply (reach_trans h v a b)].
Qed.

Lemma private_data_keep fuel h h' (K K' : nat -> Prop) r :
  private_data fuel h K r -> h ⊆ h' ->
  (forall a, a ∈ dom h -> K' a -> K a) ->
  private_data fuel h' K' r.
Proof.
  intros (t & Ht & Hd) Hsub HK. exists t. split; [|done].
  apply (repr_in_weaken _ _ _ _ _ _ Ht); [|done].
  intros a [Hin Hn]. split; [by apply (subseteq_dom h h') | intros Ka; by apply Hn, HK].
Qed.

Lemma private_data_new fuel h0 h1 h' (K' : nat -> Prop) t r :
  repr_in (new_in h0 h1) h1 t r -> data fuel t -> h1 ⊆ h' ->
  (forall a, K' a -> new_in h0 h1 a -> False) ->
  private_data fuel h' K' r.
Proof.
  intros Ht Hd Hsub HK. exists t. split; [|done].
  apply (repr_in_weaken _ _ _ _ _ _ Ht); [|done].
  intros a Hnew. split; [|intros Ka; by apply (HK a)].
  destruct Hnew as [_ Hin]. by apply (subseteq_dom h1 h').
Qed.

Lemma fresh_reach h0 h1 h' t v a :
  repr_in (new_in h0 h1) h1 t v -> h1 ⊆ h' -> reach h' v a -> new_in h0 h1 a.
Proof.
  intros Ht Hsub Hr.
  apply (repr_in_reach (new_in h0 h1) h' v a Hr t).
  by apply (repr_in_weaken _ _ _ _ _ _ Ht).
Qed.

(** The general step: the store moves to the heap [h'] that extends its
    own, takes [v] as live value and hands it out; [v] is a new clone or
    something the outside holds already. *)
Lemma world_inv_hand_out fuel init w s' v :
  world_inv fuel init w ->
  heap (state w) ⊆ heap s' ->
  (forall a, reach (heap s') v a ->
             a ∈ dom (heap s') /\ (a ∈ dom (heap (state w)) -> outside w a)) ->
  known (fun a => outside w a \/ reach (heap s') v a) (store s') ->
  Forall (fun r => private_data fuel (heap (state w)) (outside w) r \/
                   exists h0 h1 t, repr_in (new_in h0 h1) h1 t r /\ data fuel t /\
                     heap (state w) ⊆ h0 /\ h1 ⊆ heap s' /\
                     forall a, reach (heap s') v a -> new_in h0 h1 a -> False)
         (history s') ->
  (forall latest, pushHistoryDebouncedTimeout s' = Some latest ->
     private_data fuel (heap (state w)) (outside w) latest) ->
  world_inv fuel init (handing_out w s' v).
Proof.
  intros (Hok & Hst & Hinit & Hhist & Htimer) Hsub Hv Hstore Hhist' Htimer'.
  unfold world_inv, handing_out. simpl.
  assert (HK : forall a, a ∈ dom (heap (state w)) ->
                 outside w a \/ reach (heap s') v a -> outside w a).
  { intros a Hin [Ka|Hr]; [done|]. by apply (Hv a Hr). }
  split; [|split; [done|]; split; [|split]].
  - apply outside_ok_hand_out; [by apply (outside_ok_grow _ _ _ Hok)|].
    intros a Hr. apply (Hv a Hr).
  - intros a Ha. left. by apply Hinit.
  - eapply Forall_impl; [exact Hhist'|]. intros r [Hold|Hnew]; simpl in *.
    + by apply (private_data_keep fuel _ _ _ _ r Hold).
    + destruct Hnew as (h0 & h1 & t & Ht & Hd & Hs0 & Hs1 & Hdisj).
      apply (private_data_new fuel h0 h1 _ _ t r Ht Hd Hs1).
      intros a [Ka|Hr] Hnew; [|by apply (Hdisj a)].
      destruct Hnew as [Hn _]. apply Hn. apply (subseteq_dom _ _ Hs0).
      by apply (proj1 Hok).
  - intros latest Hl. by apply (private_data_keep fuel _ _ _ _ latest (Htimer' _ Hl)).
Qed.

Lemma world_inv_same_store fuel init w s' :
  world_inv fuel init w ->
  heap s' = heap (state w) -> store s' = store (state w) ->
  history s' = history (state w) ->
  pushHistoryDebouncedTimeout s' = pushHistoryDebouncedTimeout (state w) ->
  world_inv fuel init (handing_out w s' (store s')).
Proof.
  intros Hinv Eh Es Ehi Et.
  pose proof Hinv as (Hok & Hst & Hinit & Hhist & Htimer).
  apply world_inv_hand_out; try done.
  - by rewrite Eh.
  - intros a. rewrite Eh, Es. intros Hr.
    assert (outside w a) as Ka by (by apply (known_reach _ _ _ _ (proj2 Hok) Hst)).
    split; [by apply (proj1 Hok) | done].
  - intros a Ha. left. rewrite Es in Ha. by apply Hst.
  - rewrite Ehi. eapply Forall_impl; [exact Hhist|]. by left.
  - intros latest. rewrite Et. apply Htimer.
Qed.

Lemma world_inv_new_store fuel init w s' t :
  world_inv fuel init w ->
  repr_in (new_in (heap (state w)) (heap s')) (heap s') t (store s') ->
  heap (state w) ⊆ heap s' ->
  history s' = history (state w) ->
  pushHistoryDebouncedTimeout s' = pushHistoryDebouncedTimeout (state w) ->
  world_inv fuel init (handing_out w s' (store s')).
Proof.
  intros Hinv Ht Hsub Ehi Et.
  pose proof Hinv as (Hok & Hst & Hinit & Hhist & Htimer).
  apply world_inv_hand_out; try done.
  - intros a Hr.
    destruct (fresh_reach _ _ _ _ _ _ Ht (reflexivity _) Hr) as [Hn Hin].
    split; [done | by intros ?].
  - intros a Ha. right. rewrite Ha. constructor.
  - rewrite Ehi. eapply Forall_impl; [exact Hhist|]. by left.
  - intros latest. rewrite Et. apply Htimer.
Qed.

Lemma world_inv_moveTo hsc fuel init w i :
  world_inv fuel init w ->
  let s' := after (moveTo hsc fuel (state w) i) in
  world_inv fuel init (handing_out w s' (store s')).
Proof.
  intros Hinv. cbv zeta. unfold moveTo.
  destruct (deepClone hsc fuel (heap (state w)) (at_index (history (state w)) i))
    as [[h1 v]|] eqn:Ec; cbn [after].
  - destruct (deepClone_sound hsc fuel _ _ _ _ Ec) as (Hsub & t & Ht & _).
    by apply (world_inv_new_store fuel init w _ t).
  - by apply world_inv_same_store.
Qed.

Lemma world_inv_create hsc fuel init h (K : nat -> Prop) s :
  (forall a, K a -> a ∈ dom h) -> closed h K -> known K init ->
  createDataStore hsc fuel h init = Some s ->
  world_inv fuel init (handing_out {| state := s; outside := K |} s (store s)).
Proof.
  intros Hdom Hc Hinit Hrun. unfold createDataStore in Hrun.
  destruct (deepClone hsc fuel h init) as [[h1 store0]|] eqn:E1; [|done].
  destruct (deepClone hsc fuel h1 store0) as [[h2 first]|] eqn:E2; [|done].
  injection Hrun as <-.
  destruct (deepClone_sound hsc fuel _ _ _ _ E1) as (Hsub1 & t0 & Ht0 & _).
  destruct (deepClone_sound hsc fuel _ _ _ _ E2) as (Hsub2 & t1 & Ht1 & Hd1).
  set (w0 := {| state := {| heap := h; store := init; history := [];
                            currentIndex := 0; pushHistoryDebouncedTimeout := None |};
                outside := K |}).
  apply (world_inv_hand_out fuel init w0); subst w0; simpl.
  - unfold world_inv. simpl. by repeat split.
  - by etrans.
  - intros a Hr. destruct (fresh_reach _ _ _ _ _ _ Ht0 Hsub2 Hr) as [Hn Hin].
    split; [by apply (subseteq_dom h1 h2) | by intros ?].
  - intros a ->. right. constructor.
  - constructor; [|constructor]. right. exists h1, h2, t1.
    split; [done|]. split; [done|]. split; [done|]. split; [done|].
    intros a Hr [Hn _]. apply Hn.
    by destruct (fresh_reach _ _ _ _ _ _ Ht0 Hsub2 Hr).
  - done.
Qed.

Lemma world_inv_outside fuel init w h' :
  world_inv fuel init w ->
  (forall a, a ∈ dom (heap (state w)) -> ~ outside w a ->
             h' !! a = heap (state w) !! a) ->
  dom (heap (state w)) ⊆ dom h' ->
  closed h' (fun a => outside w a \/ new_in (heap (state w)) h' a) ->
  world_inv fuel init
    {| state := with_heap h' (state w);
       outside := fun a => outside w a \/ new_in (heap (state w)) h' a |}.
Proof.
  intros (Hok & Hst & Hinit & Hhist & Htimer) Hsame Hdom Hcl.
  assert (Hkeep : forall r, private_data fuel (heap (state w)) (outside w) r ->
            private_data fuel h'
              (fun a => outside w a \/ new_in (heap (state w)) h' a) r).
  { intros r (t & Ht & Hd). exists t. split; [|done].
    apply (repr_in_transport _ _ _ _ _ _ Ht). intros a c [Hin Hn] Ha.
    split; [split|].
    - by apply Hdom.
    - intros [Ka|[Hnew _]]; [by apply Hn | by apply Hnew].
    - by rewrite Hsame. }
  unfold world_inv. simpl. split; [split|split; [|split; [|split]]].
  - intros a [Ka|[_ Hin]]; [|done]. by apply Hdom, (proj1 Hok).
  - done.
  - intros a Ha. left. by apply Hst.
  - intros a Ha. left. by apply Hinit.
  - eapply Forall_impl; [exact Hhist|]. done.
  - intros latest Hl. by apply Hkeep, Htimer.
Qed.

Lemma world_inv_setStore hsc fuel init w next :
  world_inv fuel init w -> known (outside w) next ->
  world_inv fuel init
    {| state := after (acceptState hsc fuel (state w) next); outside := outside w |}.
Proof.
  intros (Hok & Hst & Hinit & Hhist & Htimer) Hnext. unfold acceptState.
  destruct (deepClone hsc fuel (heap (state w)) next) as [[h1 latest]|] eqn:Ec; simpl.
  - destruct (deepClone_sound hsc fuel _ _ _ _ Ec) as (Hsub & t & Ht & Hd).
    unfold world_inv. simpl.
    split; [by apply (outside_ok_grow _ _ _ Hok)|].
    split; [done|]. split; [done|]. split.
    + eapply Forall_impl; [exact Hhist|]. intros r Hr.
      by apply (private_data_keep fuel _ _ _ _ r Hr).
    + intros ? [= <-]. apply (private_data_new fuel _ _ _ _ t latest Ht Hd); [done|].
      intros a Ka [Hn _]. apply Hn. by apply (proj1 Hok).
  - unfold world_inv. simpl. do 4 (split; [done|]). done.
Qed.

Lemma Forall_tail {A} (Q : A -> Prop) l : Forall Q l -> Forall Q (tail l).
Proof. destruct 1; [constructor | done]. Qed.

Lemma Forall_splice_from {A} (Q : A -> Prop) i l : Forall Q l -> Forall Q (splice_from i l).
Proof.
  intros H. unfold splice_from.
  destruct (ToIntegerOrInfinity i) as [z| |]; [|done|constructor].
  destruct (z <? 0); by apply Forall_take.
Qed.

Lemma world_inv_timer fuel init w latest :
  world_inv fuel init w ->
  pushHistoryDebouncedTimeout (state w) = Some latest ->
  world_inv fuel init {| state := pushHistory latest (state w); outside := outside w |}.
Proof.
  intros (Hok & Hst & Hinit & Hhist & Htimer) Hl. unfold world_inv, pushHistory.
  set (h1 := splice_from _ _ ++ _).
  assert (Forall (private_data fuel (heap (state w)) (outside w)) h1) as Hh1.
  { apply Forall_app. split; [by apply Forall_splice_from|].
    constructor; [by apply Htimer | constructor]. }
  destruct (Z.of_nat (length h1) >? MAX_HISTORY); simpl;
    repeat split; try done; try apply Hok. by apply Forall_tail.
Qed.

Lemma world_inv_resetStore hsc fuel init w :
  world_inv fuel init w ->
  let s' := after (resetStore hsc fuel init (state w)) in
  world_inv fuel init (handing_out w s' (store s')).
Proof.
  intros Hinv. cbv zeta. unfold resetStore.
  destruct (deepClone hsc fuel (heap (state w)) init) as [[h1 v]|] eqn:E1; cbn [after];
    [|by apply world_inv_same_store].
  destruct (deepClone_sound hsc fuel _ _ _ _ E1) as (Hsub1 & t0 & Ht0 & _).
  destruct (deepClone hsc fuel h1 init) as [[h2 first]|] eqn:E2; cbn [after];
    [|by apply (world_inv_new_store fuel init w _ t0)].
  destruct (deepClone_sound hsc fuel _ _ _ _ E2) as (Hsub2 & t1 & Ht1 & Hd1).
  pose proof Hinv as (Hok & Hst & Hinit & Hhist & Htimer).
  apply world_inv_hand_out; simpl; try done.
  - by etrans.
  - intros a Hr. destruct (fresh_reach _ _ _ _ _ _ Ht0 Hsub2 Hr) as [Hn Hin].
    split; [by apply (subseteq_dom h1 h2) | by intros ?].
  - intros a ->. right. constructor.
  - constructor; [|constructor]. right. exists h1, h2, t1.
    split; [done|]. split; [done|]. split; [done|]. split; [done|].
    intros a Hr [Hn _]. apply Hn.
    by destruct (fresh_reach _ _ _ _ _ _ Ht0 Hsub2 Hr).
Qed.

(** [getHistory], when it returns, returns cells that are all new. *)
Lemma getHistory_new hsc fuel s s' returned :
  getHistory hsc fuel s = Some (s', returned) ->
  heap s ⊆ heap s' /\ store s' = store s /\ history s' = history s /\
  currentIndex s' = currentIndex s /\
  pushHistoryDebouncedTimeout s' = pushHistoryDebouncedTimeout s /\
  forall b, reach (heap s') returned b -> new_in (heap s) (heap s') b.
Proof.
  unfold getHistory. intros Hrun.
  destruct (clone_items (deepClone hsc fuel) (heap s) (history s))
    as [[h1 copies]|] eqn:Ec; [|done].
  destruct (clone_items_sound _ _ (deepClone_sound hsc fuel) _ _ _ _ Ec)
    as (Hsub1 & ts & Hts & _).
  pose proof (alloc_spec h1 (CArr copies)) as Hal.
  destruct (alloc h1 (CArr copies)) as [h2 r2].
  destruct Hal as (a & -> & Hfresh & -> & Hsub2).
  injection Hrun as <- <-. simpl.
  split; [by etrans|]. do 4 (split; [done|]).
  intros b [->|(c & r & Hc & Hr & Hb)]%reach_ref_inv.
  - split; [|rewrite dom_insert; set_solver].
    intros Hin. apply Hfresh. by apply (subseteq_dom (heap s) h1).
  - rewrite lookup_insert_eq in Hc. injection Hc as <-. simpl in Hr.
    apply list_elem_of_lookup in Hr as [i Hi].
    destruct (Forall2_lookup_r _ _ _ _ _ Hts Hi) as (t & _ & Ht).
    apply (new_in_mono (heap s) (heap s) h1 _ b (reflexivity _) Hsub2).
    by apply (fresh_reach _ _ _ _ _ _ Ht Hsub2 Hb).
Qed.

Lemma world_inv_getHistory hsc fuel init w s' returned :
  world_inv fuel init w ->
  getHistory hsc fuel (state w) = Some (s', returned) ->
  world_inv fuel init (handing_out w s' returned).
Proof.
  intros Hinv Hrun.
  destruct (getHistory_new hsc fuel _ _ _ Hrun) as (Hsub & Es & Ehi & _ & Et & Hnew).
  pose proof Hinv as (Hok & Hst & Hinit & Hhist & Htimer).
  apply world_inv_hand_out; try done.
  - intros a Hr. destruct (Hnew a Hr) as [Hn Hin]. split; [done | by intros ?].
  - intros a Ha. left. rewrite Es in Ha. by apply Hst.
  - rewrite Ehi. eapply Forall_impl; [exact Hhist|]. by left.
  - intros latest. rewrite Et. apply Htimer.
Qed.

(** In every world the store reaches, the history and the pending
    snapshot are data in cells the outside does not hold. *)
Lemma reachable_world_inv hsc fuel init w :
  reachable hsc fuel init w -> world_inv fuel init w.
Proof.
  induction 1 as [h K s Hdom Hc Hinit Hrun | w h' _ IH Hsame Hdom Hcl
                  | w next _ IH Hnext | w latest _ IH Hl | w _ IH | w _ IH
                  | w i _ IH | w _ IH | w s' returned _ IH Hrun].
  - by apply (world_inv_create hsc fuel init h K s).
  - by apply world_inv_outside.
  - by apply world_inv_setStore.
  - by apply world_inv_timer.
  - subst s'. unfold undo. destruct (_ <? _)%float.
    + by apply world_inv_moveTo.
    + by apply world_inv_same_store.
  - subst s'. unfold redo. destruct (_ <? _)%float.
    + by apply world_inv_moveTo.
    + by apply world_inv_same_store.
  - subst s'. unfold rollbackTo. destruct (_ && _).
    + by apply world_inv_moveTo.
    + by apply world_inv_same_store.
  - subst s'. by apply world_inv_resetStore.
  - by apply (world_inv_getHistory hsc).
Qed.

Lemma private_data_repr fuel h K r :
  private_data fuel h K r -> exists t, repr h t r /\ data fuel t.
Proof.
  intros (t & Ht & Hd). exists t. split; [|done].
  by apply (repr_in_weaken _ _ _ _ _ _ Ht).
Qed.

Lemma Forall_private_entries fuel h K rs :
  Forall (private_data fuel h K) rs ->
  exists entries, Forall2 (repr h) entries rs /\ Forall (data fuel) entries.
Proof.
  induction 1 as [|r rs Hr _ (entries & Hall & Hd)].
  - exists []. split; constructor.
  - destruct (private_data_repr _ _ _ _ Hr) as (t & Ht & Hdt).
    exists (t :: entries). split; by constructor.
Qed.

(** With fuel for its entries, [getHistory] returns, and returns a
    clone of each. *)
Lemma getHistory_returns hsc fuel s entries :
  Forall2 (repr (heap s)) entries (history s) ->
  Forall (data fuel) entries ->
  exists s' a copies,
    getHistory hsc fuel s = Some (s', RRef a) /\
    heap s' !! a = Some (CArr copies) /\
    Forall2 (repr (heap s')) entries copies.
Proof.
  intros Hrepr Hdata. unfold getHistory.
  destruct (clone_items_spec (deepClone hsc fuel) (fun _ => True) (heap s)
              entries (history s) Hrepr) with (h := heap s)
    as (h1 & copies & -> & Hsub1 & Hcopies); [|done|].
  { eapply Forall_impl; [exact Hdata|]. intros t [Hwf Hd]. by apply deepClone_spec. }
  pose proof (alloc_spec h1 (CArr copies)) as Hal.
  destruct (alloc h1 (CArr copies)) as [h2 r2].
  destruct Hal as (a & -> & Hfresh & -> & Hsub2).
  eexists _, a, copies. split; [done|]. simpl.
  split; [apply lookup_insert_eq|].
  eapply Forall2_impl; [exact Hcopies|]. intros t r Htr.
  by apply (repr_in_weaken _ _ _ _ _ _ Htr).
Qed.

(** C10: in every world the singleton store reaches, [getHistory]
    returns a new array whose entries stand for the same data as the
    internal entries, one for one, and leaves history, cursor and live
    value as they are; no cell that can be followed from the array
    existed before the call, and however those cells are written to
    afterwards, the internal entries and the live value stand for the
    same data as before. *)
Theorem getHistory_returns_fresh_clones (hsc : bool) (fuel : nat)
    (initialState : ref_value) (w : world) :
  reachable hsc fuel initialState w ->
  let s := state w in
  exists entries s' a copies,
    Forall2 (repr (heap s)) entries (history s) /\
    getHistory hsc fuel s = Some (s', RRef a) /\
    (history s' = history s /\ currentIndex s' = currentIndex s /\ store s' = store s) /\
    heap s' !! a = Some (CArr copies) /\
    Forall2 (repr (heap s')) entries copies /\
    (forall b, reach (heap s') (RRef a) b -> b ∉ dom (heap s)) /\
    forall h'',
      (forall b, ~ reach (heap s') (RRef a) b -> h'' !! b = heap s' !! b) ->
      Forall2 (repr h'') entries (history s) /\
      forall t, repr (heap s) t (store s) -> repr h'' t (store s).
Proof.
  intros Hreach. cbv zeta.
  destruct (reachable_world_inv _ _ _ _ Hreach) as (_ & _ & _ & Hhist & _).
  destruct (Forall_private_entries _ _ _ _ Hhist) as (entries & Hrepr & Hdata).
  destruct (getHistory_returns hsc fuel (state w) entries Hrepr Hdata)
    as (s' & a & copies & Hget & Hcell & Hcopies).
  destruct (getHistory_new _ _ _ _ _ Hget) as (Hsub & Es & Ehi & Ei & _ & Hnew).
  exists entries, s', a, copies.
  do 5 (split; [done|]). split; [intros b Hb; apply (Hnew b Hb)|].
  intros h'' Hsame.
  assert (Hkeep : forall b c, heap (state w) !! b = Some c -> h'' !! b = Some c).
  { intros b c Hb. rewrite Hsame.
    - by apply (lookup_weaken (heap (state w))).
    - intros Hr. apply (Hnew b Hr). by apply elem_of_dom. }
  split.
  - eapply Forall2_impl; [exact Hrepr|]. intros t r Htr.
    apply (repr_in_transport _ _ _ _ _ _ Htr). auto.
  - intros t Ht. apply (repr_in_transport _ _ _ _ _ _ Ht). auto.
Qed.

Lemma demo_world_reachable : reachable true 2 (RRef 0) demo_world.
Proof.
  apply (reachable_create true 2 (RRef 0) demo_heap (fun a => a = 0%nat)).
  - intros a ->. by apply elem_of_dom.
  - intros a b -> Hr. apply reach_ref_inv in Hr as [->|(c & r & Hc & Hr & Hb)]; [done|].
    injection Hc as <-. simpl in Hr.
    apply list_elem_of_singleton in Hr as ->. by apply reach_is_ref in Hb as [? ?].
  - by intros a [= <-].
  - reflexivity.
Defined.

Lemma getHistory_returns_fresh_clones_witness :
  reachable true 2 (RRef 0) demo_world /\
  exists entries s' a copies,
    Forall2 (repr (heap (state demo_world))) entries (history (state demo_world)) /\
    getHistory true 2 (state demo_world) = Some (s', RRef a) /\
    heap s' !! a = Some (CArr copies) /\
    Forall2 (repr (heap s')) entries copies /\
    forall b, reach (heap s') (RRef a) b -> b ∉ dom (heap (state demo_world)).
Proof.
  split; [exact demo_world_reachable|].
  destruct (getHistory_returns_fresh_clones true 2 (RRef 0) demo_world
              demo_world_reachable)
    as (entries & s' & a & copies & Hrepr & Hget & _ & Hcell & Hcopies & Hfresh & _).
  exists entries, s', a, copies. auto.
Defined.

(** X2 — [deepClone] over the heap: of data that the recursion can
    walk, the clone stands for the same data as its source and is made
    of cells that did not exist before the call, the cells there were
    being left as they are.  So whatever is written afterwards to the
    cells of the clone, the source stands for the same data, and
    whatever is written to the cells there were before, the clone
    does. *)
Theorem clone_shares_no_cell (hsc : bool) (fuel : nat) (h : gmap nat cell)
    (t : value) (r : ref_value) :
  repr h t r -> data fuel t ->
  exists h' r',
    deepClone hsc fuel h r = Some (h', r') /\ h ⊆ h' /\
    repr h' t r' /\ repr h' t r /\
    (forall b, reach h' r' b -> b ∉ dom h) /\
    (forall h'', (forall b, ~ reach h' r' b -> h'' !! b = h' !! b) -> repr h'' t r) /\
    (forall h'', (forall b, b ∉ dom h -> h'' !! b = h' !! b) -> repr h'' t r').
Proof.
  intros Hrepr [Hwf Hdepth].
  destruct (deepClone_spec hsc (fun _ => True) h t fuel Hwf Hdepth h r)
    as (h' & r' & Hclone & Hsub & Hnew); [done|exact Hrepr|].
  assert (Hfresh : forall b, reach h' r' b -> b ∉ dom h).
  { intros b Hb. by destruct (fresh_reach h h' h' t r' b Hnew (reflexivity _) Hb). }
  exists h', r'. split; [done|]. split; [done|].
  split; [by apply (repr_in_weaken _ _ _ _ _ _ Hnew)|].
  split; [by apply (repr_in_weaken _ _ _ _ _ _ Hrepr)|].
  split; [exact Hfresh|]. split.
  - intros h'' Hsame. apply (repr_in_transport _ _ _ _ _ _ Hrepr).
    intros a c _ Ha. split; [done|]. rewrite Hsame.
    + by apply (lookup_weaken h).
    + intros Hr. apply (Hfresh a Hr). by apply elem_of_dom.
  - intros h'' Hsame. apply (repr_in_transport _ _ _ _ _ _ Hnew).
    intros a c [Hout _] Ha. split; [done|]. by rewrite Hsame.
Qed.

Lemma clone_shares_no_cell_witness :
  let t := VObj [("count", VNum 5)] in
  repr demo_heap t (RRef 0) /\ data 2 t /\
  exists h' r', deepClone true 2 demo_heap (RRef 0) = Some (h', r') /\
                repr h' t r' /\ forall b, reach h' r' b -> b ∉ dom demo_heap.
Proof.
  assert (Hrepr : repr demo_heap (VObj [("count", VNum 5)]) (RRef 0)).
  { exists 0%nat, [("count"%string, RNum 5)]. repeat split. }
  assert (Hdata : data 2 (VObj [("count", VNum 5)])).
  { split; [reflexivity|]. simpl. lia. }
  split; [exact Hrepr|]. split; [exact Hdata|].
  destruct (clone_shares_no_cell true 2 demo_heap _ _ Hrepr Hdata)
    as (h' & r' & Hclone & _ & Hr' & _ & Hfresh & _).
  by exists h', r'.
Defined.

End HeapFacts.

(* ===================================================================== *)
(** * Part III — further properties of the code                           *)
(* ===================================================================== *)

(** ** Structural utilities *)





(** X4 — [deepEqual]: the order in which two records list their
    properties does not matter; a record without [NaN] is [deepEqual]
    to every listing of itself. *)
Theorem deepEqual_ignores_key_order (ps qs : list (string * value)) :
  wf_value (VObj ps) = true -> nan_free (VObj ps) = true -> ps ≡ₚ qs ->
  wf_value (VObj qs) = true /\ nan_free (VObj qs) = true /\
  deepEqual (VObj ps) (VObj qs) = true /\ deepEqual (VObj qs) (VObj ps) = true.
Proof.
  assert (Hone : forall ps qs : list (string * value),
             wf_value (VObj ps) = true -> nan_free (VObj ps) = true -> ps ≡ₚ qs ->
             wf_value (VObj qs) = true /\ nan_free (VObj qs) = true /\
             deepEqual (VObj ps) (VObj qs) = true).
  { clear. intros ps qs Hwf Hnan Hperm.
    apply wf_value_obj in Hwf as [Hnd Hall]. apply numbers_in_obj in Hnan.
    assert (Hndq : NoDup qs.*1) by (by rewrite <- Hperm).
    assert (Hallq : Forall (fun kv => wf_value kv.2 = true) qs) by (by rewrite <- Hperm).
    assert (Hnanq : Forall (fun kv => nan_free kv.2 = true) qs) by (by rewrite <- Hperm).
    split; [by apply wf_value_obj|]. split; [by apply numbers_in_obj|].
    rewrite deepEqual_obj_obj. apply andb_true_iff. split.
    - apply Nat.eqb_eq. by rewrite Hperm.
    - apply forallb_forall. intros [k x] Hin%list_elem_of_In. simpl.
      rewrite Forall_forall in Hall. rewrite Forall_forall in Hnan.
      apply andb_true_iff. split.
      + apply includes_true. rewrite <- Hperm. by apply (list_elem_of_fmap_2 fst _ (k, x)).
      + rewrite (get_prop_obj_elem qs k x); [|done|by rewrite <- Hperm].
        apply deepEqual_refl; [apply (Hall _ Hin)|apply (Hnan _ Hin)]. }
  intros Hwf Hnan Hperm.
  destruct (Hone ps qs Hwf Hnan Hperm) as (Hq & Hnq & Hpq).
  destruct (Hone qs ps Hq Hnq (symmetry Hperm)) as (_ & _ & Hqp).
  done.
Qed.

Lemma deepEqual_ignores_key_order_witness :
  let ps := [("id", VNum 1); ("name", VStr "a")] in
  let qs := [("name", VStr "a"); ("id", VNum 1)] in
  wf_value (VObj ps) = true /\ nan_free (VObj ps) = true /\ ps ≡ₚ qs /\
  deepEqual (VObj ps) (VObj qs) = true.
Proof.
  assert (Hperm : [("id", VNum 1); ("name", VStr "a")]
                  ≡ₚ [("name", VStr "a"); ("id", VNum 1)]) by apply Permutation_swap.
  split; [reflexivity|]. split; [reflexivity|]. split; [exact Hperm|].
  apply (deepEqual_ignores_key_order [("id", VNum 1); ("name", VStr "a")]
           [("name", VStr "a"); ("id", VNum 1)] eq_refl eq_refl Hperm).
Defined.

(** X5 — [deepMerge]: where both records hold a record under a key, the
    result holds the merge of the two under it, so that a nested key the
    update does not name keeps its value; the result is well formed. *)
Theorem deepMerge_nested (hsc : bool) (pa pb ta tb : list (string * value)) (k : string) :
  wf_value (VObj pa) = true -> wf_value (VObj pb) = true ->
  get_prop (VObj pa) k = VObj ta -> get_prop (VObj pb) k = VObj tb ->
  let r := deepMerge hsc (VObj pa) (VObj pb) in
  get_prop r k = deepMerge hsc (VObj ta) (VObj tb) /\
  (forall k2, k2 ∉ keys (VObj tb) -> get_prop (get_prop r k) k2 = get_prop (VObj ta) k2) /\
  wf_value r = true.
Proof.
  intros Ha Hb Hta Htb r.
  pose proof Hb as [Hndb Hallb]%wf_value_obj.
  destruct (deepMerge_records hsc pa pb Ha Hndb) as (pf & Hr & Hpf).
  assert (Hk : get_prop r k = deepMerge hsc (VObj ta) (VObj tb)).
  { subst r. rewrite Hr, get_prop_obj, Hpf. unfold merged_at.
    rewrite get_prop_obj in Htb.
    destruct (assoc k pb) as [sv|]; simpl in Htb; [|done]. subst sv.
    by rewrite Hta. }
  split; [exact Hk|]. split.
  - intros k2 Hk2. rewrite Hk.
    assert (Hwta : wf_value (VObj ta) = true).
    { rewrite <- Hta. by apply get_prop_wf. }
    assert (Hwtb : wf_value (VObj tb) = true).
    { rewrite <- Htb. by apply get_prop_wf. }
    apply wf_value_obj in Hwtb as [Hndtb _].
    destruct (deepMerge_records hsc ta tb Hwta Hndtb) as (tf & -> & Htf).
    rewrite !get_prop_obj, Htf. unfold merged_at.
    assert (assoc k2 tb = None) as ->; [|done].
    apply assoc_None. exact Hk2.
  - by apply deepMerge_wf.
Qed.

Lemma deepMerge_nested_witness :
  let pa := [("columnVisibility", VObj [("id", VBool true); ("name", VBool true)]);
             ("rows", VNum 3)] in
  let pb := [("columnVisibility", VObj [("name", VBool false)])] in
  wf_value (VObj pa) = true /\ wf_value (VObj pb) = true /\
  get_prop (get_prop (deepMerge true (VObj pa) (VObj pb)) "columnVisibility") "id"
  = VBool true.
Proof.
  split; [reflexivity|]. split; [reflexivity|].
  refine (proj1 (proj2 (deepMerge_nested true
            [("columnVisibility", VObj [("id", VBool true); ("name", VBool true)]);
             ("rows", VNum 3)]
            [("columnVisibility", VObj [("name", VBool false)])]
            [("id", VBool true); ("name", VBool true)] [("name", VBool false)]
            "columnVisibility" eq_refl eq_refl eq_refl eq_refl)) "id" _).
  vm_compute. intros H. repeat (apply elem_of_cons in H as [H|H]; [discriminate|]).
  by apply elem_of_nil in H.
Defined.

(** Merging the same record in a second time changes nothing. *)
Lemma deepMerge_again hsc b : forall pa,
  wf_value (VObj pa) = true -> wf_value b = true -> isPlainObject b = true ->
  deepMerge hsc (deepMerge hsc (VObj pa) b) b = deepMerge hsc (VObj pa) b.
Proof.
  induction b as [| |x|x|x|x|xs IH|pb IH] using value_nested_ind;
    intros pa Ha Hb Hplain; try done.
  pose proof Hb as [Hndb Hallb]%wf_value_obj.
  destruct (deepMerge_records hsc pa pb Ha Hndb) as (pf & Hr & Hpf).
  assert (Hwr : wf_value (VObj pf) = true).
  { rewrite <- Hr. by apply deepMerge_wf. }
  rewrite Hr. simpl. rewrite (deepClone_id hsc (VObj pf)) by done.
  rewrite Forall_forall in IH, Hallb.
  apply (fold_left_inv (fun r => r = VObj pf)); [|done].
  intros acc [k sv] Hin ->. simpl.
  assert (Hksv : assoc k pb = Some sv) by (by apply assoc_NoDup).
  pose proof (Hpf k) as Hk. unfold merged_at in Hk. rewrite Hksv in Hk.
  pose proof (Hallb _ Hin) as Hwsv. simpl in Hwsv.
  pose proof (get_prop_wf (VObj pa) k Ha) as Hwta.
  unfold merge_step.
  destruct sv as [| |x|x|x|x|xs|sp]; try done; cbn [isPlainObject] in Hk;
    try (rewrite andb_false_r in Hk; rewrite get_prop_obj, Hk; cbn -[deepMerge assoc_set];
         by rewrite (assoc_set_same _ _ _ Hk)).
  pose proof Hwsv as [Hndsp _]%wf_value_obj.
  destruct (get_prop (VObj pa) k) as [| |x|x|x|x|xs|ta] eqn:Hta;
    cbn [isPlainObject andb] in Hk;
    try (rewrite get_prop_obj, Hk; cbn -[deepMerge assoc_set];
         rewrite (deepMerge_self hsc (VObj sp)) by done;
         by rewrite (assoc_set_same _ _ _ Hk)).
  pose proof (IH _ Hin ta Hwta Hwsv eq_refl) as Hidem. cbn [snd] in Hidem.
  destruct (deepMerge_records hsc ta sp Hwta Hndsp) as (tf & Htf & _).
  rewrite Htf in Hk, Hidem. rewrite get_prop_obj, Hk.
  cbn -[deepMerge assoc_set]. rewrite Hidem.
  by rewrite (assoc_set_same _ _ _ Hk).
Qed.

(** X6 — [deepMerge]: merging a record update into the result of
    merging it changes nothing, and so does merging a record into
    itself; a [null] or [undefined] update gives the target back. *)
Theorem deepMerge_idempotent (hsc : bool) (pa pb : list (string * value)) :
  wf_value (VObj pa) = true -> wf_value (VObj pb) = true ->
  let r := deepMerge hsc (VObj pa) (VObj pb) in
  deepMerge hsc r (VObj pb) = r /\
  deepMerge hsc (VObj pa) (VObj pa) = VObj pa /\
  deepMerge hsc (VObj pa) VNull = VObj pa /\
  deepMerge hsc (VObj pa) VUndef = VObj pa.
Proof.
  intros Ha Hb r. split; [|split; [|done]].
  - subst r. by apply deepMerge_again.
  - by apply deepMerge_self.
Qed.

Lemma deepMerge_idempotent_witness :
  let pa := [("columnVisibility", VObj [("id", VBool true)]); ("rows", VNum 3)] in
  let pb := [("columnVisibility", VObj [("name", VBool false)]); ("rows", VNum 4)] in
  wf_value (VObj pa) = true /\ wf_value (VObj pb) = true /\
  deepMerge true (deepMerge true (VObj pa) (VObj pb)) (VObj pb)
  = deepMerge true (VObj pa) (VObj pb).
Proof.
  split; [reflexivity|]. split; [reflexivity|].
  apply (deepMerge_idempotent true); reflexivity.
Defined.

(** ** Updates of the two stores *)

(** The merge condition of [set] and [setStore] holds of records only. *)
Lemma merge_condition update cur :
  truthy update && jstype_eqb (typeof update) TObject && negb (isArray update)
  && truthy cur && jstype_eqb (typeof cur) TObject && negb (isArray cur) = true ->
  exists pb pa, update = VObj pb /\ cur = VObj pa.
Proof.
  intros H. repeat (apply andb_true_iff in H as [H ?]).
  destruct update; try done; destruct cur; try done. by eexists _, _.
Qed.

Lemma nextState_wf P cur update :
  wf_value cur = true -> wf_value update = true -> typeof update <> TFunction ->
  wf_value (nextState P cur update) = true.
Proof.
  intros Hc Hu Hf. unfold nextState.
  destruct update; try done; destruct (_ && _); try done; by apply deepMerge_wf.
Qed.

Lemma nextState_again P cur update :
  wf_value cur = true -> wf_value update = true -> typeof update <> TFunction ->
  nextState P (nextState P cur update) update = nextState P cur update.
Proof.
  intros Hc Hu Hf.
  assert (Hdata : forall c, nextState P c update =
            if truthy update && jstype_eqb (typeof update) TObject
               && negb (isArray update) && truthy c
               && jstype_eqb (typeof c) TObject && negb (isArray c)
            then deepMerge (has_structuredClone P) c update else update).
  { intros c. unfold nextState. by destruct update. }
  rewrite (Hdata cur).
  destruct (truthy update && _ && _ && truthy cur && _ && _) eqn:Hcond.
  - apply merge_condition in Hcond as (pb & pa & -> & ->).
    destruct (deepMerge_records (has_structuredClone P) pa pb Hc) as (pf & Hr & _).
    { by apply wf_value_obj in Hu as [? _]. }
    rewrite Hdata, Hr. cbn -[deepMerge]. rewrite <- Hr. by apply deepMerge_again.
  - by apply nextState_current.
Qed.

Lemma ctx_nextState_data P opt cur update :
  typeof update <> TFunction ->
  reducer opt = None \/ includes "type" (keys update) = false ->
  ctx_nextState P opt cur update = nextState P cur update.
Proof.
  intros Hf Hred. unfold ctx_nextState, nextState.
  destruct update; try done; destruct (reducer opt) as [reduce|]; try done;
    destruct Hred as [Hred|Hred]; try done;
    cbn -[deepMerge includes keys] in *; rewrite ?Hred, ?andb_false_r; try done.
Qed.

Lemma nextState_nan_free P cur update :
  wf_value cur = true -> wf_value update = true -> typeof update <> TFunction ->
  nan_free cur = true -> nan_free update = true ->
  nan_free (nextState P cur update) = true.
Proof.
  intros Hc Hu Hf Hnc Hnu. unfold nextState.
  destruct update; try done; destruct (_ && _); try done;
    by apply deepMerge_numbers_in.
Qed.

(** X7 — [setStore] and [set]: giving the same data update (not a
    callable, not a reducer action) a second time changes nothing, in
    the value, the history, the storage or the notifications, when no
    [NaN] is inside the value held or the update. *)
Theorem same_update_twice (P : Platform) (opt : ContextStoreOption)
    (cs : ContextStore) (s : DataStore) (update : value) :
  wf_value update = true -> typeof update <> TFunction ->
  wf_value (store s) = true -> wf_value (current cs) = true ->
  nan_free update = true ->
  nan_free (store s) = true -> nan_free (current cs) = true ->
  reducer opt = None \/ includes "type" (keys update) = false ->
  setStore P (setStore P s update) update = setStore P s update /\
  set P opt (set P opt cs update) update = set P opt cs update.
Proof.
  intros Hu Hf Hs Hc Hnu Hns Hnc Hred. split.
  - unfold setStore at 2 3.
    destruct (negb (deepEqual (store s) (nextState P (store s) update))) eqn:Hacc.
    + unfold setStore. cbn -[nextState deepEqual deepClone].
      rewrite nextState_again by done.
      rewrite deepEqual_refl by (by apply nextState_wf || by apply nextState_nan_free).
      done.
    + unfold setStore. by rewrite Hacc.
  - unfold set at 2 3.
    destruct (negb (deepEqual (current cs) (ctx_nextState P opt (current cs) update)))
      eqn:Hacc.
    + destruct (saveState P opt _ (localStorage cs)) as [ls saved].
      unfold set. cbn -[ctx_nextState deepEqual saveState].
      rewrite !ctx_nextState_data by done.
      rewrite nextState_again by done.
      rewrite deepEqual_refl by (by apply nextState_wf || by apply nextState_nan_free).
      done.
    + unfold set. by rewrite Hacc.
Qed.

Lemma same_update_twice_witness :
  let update := VObj [("columnVisibility", VObj [("id", VBool false)])] in
  let s := createDataStore demo (VObj [("columnVisibility", VObj []); ("rows", VNum 3)]) in
  let cs := {| current := VObj [("columnVisibility", VObj [])]; subscribers := [1%nat];
               localStorage := storage_with EmptyString; effects := [] |} in
  frames (setStore demo s update) = 1%nat /\
  frames (setStore demo (setStore demo s update) update) = 1%nat /\
  set demo (persisted ["columnVisibility"]) (set demo (persisted ["columnVisibility"]) cs update) update
  = set demo (persisted ["columnVisibility"]) cs update.
Proof.
  split; [reflexivity|].
  pose proof (same_update_twice demo (persisted ["columnVisibility"])
    {| current := VObj [("columnVisibility", VObj [])]; subscribers := [1%nat];
       localStorage := storage_with EmptyString; effects := [] |}
    (createDataStore demo (VObj [("columnVisibility", VObj []); ("rows", VNum 3)]))
    (VObj [("columnVisibility", VObj [("id", VBool false)])])
    eq_refl ltac:(discriminate) eq_refl eq_refl eq_refl eq_refl eq_refl
    (or_introl eq_refl)) as [H1 H2].
  split; [by rewrite H1|exact H2].
Defined.

(** X8 — [setStore] and [set]: subscribers are told of real changes
    only, when no [NaN] is inside the value held.  Whenever a call asks
    for a frame (or, in the context store, adds an effect), the value
    held afterwards differs from the one held before; otherwise the
    whole state is as it was. *)
Theorem notified_only_of_changes (P : Platform) (opt : ContextStoreOption)
    (cs : ContextStore) (s : DataStore) (update : value) :
  wf_value (store s) = true -> wf_value (current cs) = true ->
  nan_free (store s) = true -> nan_free (current cs) = true ->
  (setStore P s update = s \/
   (store (setStore P s update) <> store s /\
    frames (setStore P s update) = S (frames s))) /\
  (set P opt cs update = cs \/
   (current (set P opt cs update) <> current cs /\
    exists saved, effects (set P opt cs update)
                  = effects cs ++ saved ++ map Notified (subscribers cs))).
Proof.
  intros Hs Hc Hns Hnc. split.
  - unfold setStore.
    destruct (deepEqual (store s) (nextState P (store s) update)) eqn:Heq; [by left|].
    right. cbn -[nextState deepClone]. split; [|done].
    intros Hsame. rewrite Hsame, deepEqual_refl in Heq; done.
  - unfold set.
    destruct (deepEqual (current cs) (ctx_nextState P opt (current cs) update)) eqn:Heq;
      [by left|].
    right. cbn -[ctx_nextState saveState].
    destruct (saveState P opt _ (localStorage cs)) as [ls saved].
    cbn -[ctx_nextState]. split; [|by exists saved].
    intros Hsame. rewrite Hsame, deepEqual_refl in Heq; done.
Qed.

Lemma notified_only_of_changes_witness :
  let s := createDataStore demo (VObj [("count", VNum 9)]) in
  let cs := {| current := VObj [("count", VNum 9)]; subscribers := [7%nat];
               localStorage := storage_with "{}"; effects := [] |} in
  (setStore demo s (VFun 1) = s \/
   (store (setStore demo s (VFun 1)) <> store s /\
    frames (setStore demo s (VFun 1)) = S (frames s))) /\
  frames (setStore demo s (VFun 1)) = 0%nat.
Proof.
  split; [|reflexivity].
  apply (notified_only_of_changes demo no_options
           {| current := VObj [("count", VNum 9)]; subscribers := [7%nat];
              localStorage := storage_with "{}"; effects := [] |}
           (createDataStore demo (VObj [("count", VNum 9)])) (VFun 1));
    reflexivity.
Defined.

(** ** Subscriptions and snapshots *)

Lemma set_delete_spec {A} (c c' : A) (l : list A) `{EqDecision A} :
  c' ∈ filter (fun x => x <> c) l <-> c' <> c /\ c' ∈ l.
Proof. rewrite list_elem_of_filter. tauto. Qed.

Lemma set_delete_absent {A} (c : A) (l : list A) `{EqDecision A} :
  c ∉ l -> filter (fun x => x <> c) l = l.
Proof.
  induction l as [|x l IH]; [done|]. intros Hout.
  apply not_elem_of_cons in Hout as [Hne Hout].
  rewrite filter_cons_True by done. by rewrite IH.
Qed.

Lemma saveState_effects P opt state ls :
  Forall (fun e => forall c, e <> Notified c) (saveState P opt state ls).2.
Proof.
  unfold saveState. destruct (usable_key (persistKey opt)) as [k|]; [|by constructor].
  assert (Hw : forall payload,
    Forall (fun e => forall c, e <> Notified c)
      (match (ls' ← setItem ls k payload; Ok (ls', [Written k payload])) with
       | Ok r => r | Throw => (ls, [Warned]) end).2).
  { intros payload. unfold setItem. destruct (write_denied ls); simpl;
      by repeat constructor. }
  destruct (negb (jstype_eqb (typeof state) TObject && negb (is_nullish state)));
    [apply Hw|].
  destruct (negb (hasPersistFields opt)); [apply Hw|].
  destruct (pick_fields P (persistFields opt) state (VObj [])) as [o|]; simpl.
  - apply Hw.
  - by repeat constructor.
Qed.

(** X9 — [subscribe] of the context store: the subscribers form a set.
    Subscribing twice is subscribing once, the function returned removes
    the callback and nothing else, and a change calls each subscriber
    once, in the order of subscription, after the state is saved. *)
Theorem subscribers_form_a_set (P : Platform) (opt : ContextStoreOption)
    (cs : ContextStore) (callback : nat) (update : value) :
  NoDup (subscribers cs) ->
  let cs1 := ctx_subscribe cs callback in
  let cs0 := ctx_unsubscribe cs callback in
  (NoDup (subscribers cs1) /\ (callback ∈ subscribers cs1) /\
   ctx_subscribe cs1 callback = cs1) /\
  (NoDup (subscribers cs0) /\ (callback ∉ subscribers cs0) /\
   forall c, c <> callback -> (c ∈ subscribers cs0 <-> c ∈ subscribers cs)) /\
  ((callback ∉ subscribers cs) ->
   subscribers (ctx_unsubscribe cs1 callback) = subscribers cs) /\
  (deepEqual (current cs1) (ctx_nextState P opt (current cs1) update) = false ->
   exists saved,
     effects (set P opt cs1 update)
     = effects cs ++ saved ++ map Notified (subscribers cs1) /\
     Forall (fun e => forall c, e <> Notified c) saved).
Proof.
  intros Hnd cs1 cs0. split; [|split; [|split]].
  - subst cs1. unfold ctx_subscribe. simpl.
    destruct (decide (callback ∈ subscribers cs)) as [Hin|Hout].
    + split; [done|]. split; [done|]. simpl. by rewrite decide_True.
    + split; [|split].
      * apply NoDup_app. split; [done|]. split; [|apply NoDup_singleton].
        intros x Hx ->%list_elem_of_singleton. done.
      * apply elem_of_app. right. by apply list_elem_of_singleton.
      * simpl. rewrite decide_True; [done|].
        apply elem_of_app. right. by apply list_elem_of_singleton.
  - subst cs0. simpl. split; [by apply NoDup_filter|]. split.
    + rewrite set_delete_spec. tauto.
    + intros c Hc. rewrite set_delete_spec. tauto.
  - intros Hout. subst cs1. simpl. rewrite decide_False by done.
    rewrite filter_app, set_delete_absent by done.
    rewrite filter_cons_False by tauto. by rewrite filter_nil, app_nil_r.
  - intros Hacc. unfold set. rewrite Hacc. cbn [negb].
    pose proof (saveState_effects P opt
                  (ctx_nextState P opt (current cs1) update) (localStorage cs1)) as Hsaved.
    destruct (saveState P opt _ (localStorage cs1)) as [ls saved].
    exists saved. split; [reflexivity|exact Hsaved].
Qed.

Lemma subscribers_form_a_set_witness :
  let cs := {| current := VNum 0; subscribers := [4%nat; 2%nat];
               localStorage := storage_with EmptyString; effects := [] |} in
  NoDup (subscribers cs) /\
  subscribers (ctx_subscribe (ctx_subscribe cs 7%nat) 7%nat) = [4%nat; 2%nat; 7%nat] /\
  subscribers (ctx_unsubscribe (ctx_subscribe cs 7%nat) 7%nat) = [4%nat; 2%nat] /\
  effects (set demo no_options (ctx_subscribe cs 7%nat) (VNum 1))
  = [Notified 4; Notified 2; Notified 7].
Proof.
  assert (Hnd : NoDup [4%nat; 2%nat]).
  { apply NoDup_cons. split; [|apply NoDup_singleton].
    intros H%list_elem_of_singleton. discriminate. }
  split; [exact Hnd|]. split; [reflexivity|]. split; [|reflexivity].
  refine (proj1 (proj2 (proj2 (subscribers_form_a_set demo no_options
                {| current := VNum 0; subscribers := [4%nat; 2%nat];
                   localStorage := storage_with EmptyString; effects := [] |}
                7%nat (VNum 1) Hnd))) _).
  simpl. intros H. repeat (apply elem_of_cons in H as [H|H]; [discriminate|]).
  by apply elem_of_nil in H.
Defined.

(** X10 — the snapshot function of [useContextStore] and
    [useDataStore], on a selection without [NaN]: what it returns is
    [deepEqual] to the current selection; asked again with no change in
    between it returns the same snapshot; and while the selection stays
    [deepEqual] to the last snapshot, the last snapshot is what it
    returns. *)
Theorem getSnapshot_stable (selector : value -> value) (lastSelected state : value) :
  wf_value (selector state) = true -> nan_free (selector state) = true ->
  let snapshot := getSnapshot selector lastSelected state in
  deepEqual snapshot (selector state) = true /\
  getSnapshot selector snapshot state = snapshot /\
  (deepEqual lastSelected (selector state) = true -> snapshot = lastSelected) /\
  (deepEqual lastSelected (selector state) = false -> snapshot = selector state).
Proof.
  intros Hwf Hnan snapshot. subst snapshot. unfold getSnapshot.
  destruct (deepEqual lastSelected (selector state)) eqn:Heq; simpl.
  - by rewrite !Heq.
  - by rewrite !(deepEqual_refl _ Hwf Hnan).
Qed.

Lemma getSnapshot_stable_witness :
  let selector := fun st => get_prop st "columnVisibility" in
  let state := VObj [("columnVisibility", VObj [("id", VBool false)]); ("rows", VNum 3)] in
  wf_value (selector state) = true /\ nan_free (selector state) = true /\
  getSnapshot selector (VObj []) state = VObj [("id", VBool false)] /\
  getSnapshot selector (getSnapshot selector (VObj []) state) state
  = getSnapshot selector (VObj []) state.
Proof.
  split; [reflexivity|]. split; [reflexivity|]. split; [reflexivity|].
  exact (proj1 (proj2 (getSnapshot_stable
           (fun st => get_prop st "columnVisibility") (VObj [])
           (VObj [("columnVisibility", VObj [("id", VBool false)]); ("rows", VNum 3)])
           eq_refl eq_refl))).
Defined.

(** ** History of the singleton store *)

(** X11 — [undo] and [redo] on an integer cursor: in every state the
    store reaches with [rollbackTo] called at integers, [undo] is
    [rollbackTo] the version before the current one and [redo]
    [rollbackTo] the version after it; [rollbackTo] an integer outside
    the history, or [NaN], does nothing. *)
Theorem undo_redo_are_rollbacks (P : Platform) (initialState : value) (ops : list op) :
  integer_indices ops = true ->
  let s := run P initialState ops in
  undo P s = rollbackTo P s (getCurrentVersion s - 1) /\
  redo P s = rollbackTo P s (getCurrentVersion s + 1) /\
  (forall i : Z, i < 0 \/ Z.of_nat (length (history s)) <= i -> rollbackTo P s i = s) /\
  rollbackTo P s nan = s /\
  (getCurrentVersion s = 0 -> undo P s = s) /\
  (getCurrentVersion s = Z.of_nat (length (history s)) - 1 -> redo P s = s).
Proof.
  intros Hint s. pose proof (history_inv_run P initialState ops Hint) as (Hlen & c & Hcur & Hidx).
  fold s in Hlen, Hcur, Hidx. unfold getCurrentVersion.
  pose proof Hlen as Hlen'. unfold MAX_HISTORY in Hlen'.
  split; [|split; [|split; [|split; [|split]]]].
  - rewrite (undo_at P s c), Hcur, Number_pred by (done || lia).
    destruct (Z.ltb_spec 0 c); [done|].
    rewrite rollbackTo_at by done.
    by destruct (Z.leb_spec 0 (c - 1)); [lia|].
  - rewrite (redo_at P s c), Hcur, Number_succ by (done || lia).
    destruct (Z.ltb_spec c (Z.of_nat (length (history s)) - 1)); [done|].
    rewrite rollbackTo_at by done.
    destruct (Z.ltb_spec (c + 1) (Z.of_nat (length (history s)))); [lia|].
    by rewrite andb_false_r.
  - intros i Hi. rewrite rollbackTo_at by done.
    destruct (Z.leb_spec 0 i); [|done].
    by destruct (Z.ltb_spec i (Z.of_nat (length (history s)))); [lia|].
  - done.
  - intros H0. by apply undo_at_bottom.
  - intros Htop. by apply redo_at_top.
Qed.

Lemma undo_redo_are_rollbacks_witness :
  let ops := [OpSetStore (VNum 1); OpElapse 200; OpSetStore (VNum 2); OpElapse 200;
              OpRollbackTo 1] in
  let s := run demo (VNum 0) ops in
  integer_indices ops = true /\
  history s = [VNum 0; VNum 1; VNum 2] /\ getCurrentVersion s = 1 /\
  undo demo s = rollbackTo demo s 0 /\ store (undo demo s) = VNum 0 /\
  redo demo s = rollbackTo demo s 2 /\ store (redo demo s) = VNum 2.
Proof.
  pose proof (undo_redo_are_rollbacks demo (VNum 0)
                [OpSetStore (VNum 1); OpElapse 200; OpSetStore (VNum 2); OpElapse 200;
                 OpRollbackTo 1] eq_refl) as (Hu & Hr & _).
  split; [reflexivity|]. split; [vm_compute; reflexivity|].
  split; [vm_compute; reflexivity|].
  split; [rewrite Hu; vm_compute; reflexivity|]. split; [vm_compute; reflexivity|].
  split; [rewrite Hr; vm_compute; reflexivity|]. vm_compute; reflexivity.
Defined.

Lemma at_index_last (h : list value) (v : value) (n : nat) :
  (n <= length h)%nat -> (length h - n <= 101)%nat ->
  at_index (drop n (h ++ [v])) (Number (Z.of_nat (length (drop n (h ++ [v]))) - 1)) = v.
Proof.
  intros Hn Hle. rewrite length_drop, length_app. simpl.
  apply (at_index_lookup _ _ (length h - n)); [lia|lia|].
  rewrite lookup_drop. replace (n + (length h - n))%nat with (length h) by lia.
  by rewrite lookup_app_r, Nat.sub_diag.
Qed.

(** X12 — the callback of the debounce timer: in every state the store
    reaches, pushing a version leaves it as the newest entry under the
    cursor, so that [redo] does nothing afterwards; with the cursor on
    an integer, the versions that were ahead of the cursor are gone,
    those up to it are kept while the history is not full. *)
Theorem push_ends_redo (P : Platform) (initialState : value) (ops : list op)
    (latestVersion : value) :
  let s := run P initialState ops in
  let s' := pushHistory latestVersion s in
  currentIndex s' = Z.of_nat (length (history s')) - 1 /\
  at_index (history s') (currentIndex s') = latestVersion /\
  redo P s' = s' /\
  (forall i : Z, currentIndex s = i -> 0 <= i < Z.of_nat (length (history s)) ->
     Z.of_nat (length (history s')) <= i + 2 /\
     (i + 2 <= MAX_HISTORY ->
      history s' = take (Z.to_nat (i + 1)) (history s) ++ [latestVersion])) /\
  store s' = store s.
Proof.
  intros s s'. pose proof (history_length_run P initialState ops) as Hmax. fold s in Hmax.
  destruct (pushHistory_length latestVersion s Hmax) as (Hlen & Hi & Hlast).
  fold s' in Hlen, Hi, Hlast. unfold MAX_HISTORY in *.
  split; [exact Hi|]. split; [|split; [|split]].
  - rewrite Hi.
    apply (at_index_lookup _ _ (length (history s') - 1)); [lia|lia|done].
  - by apply redo_at_top.
  - intros i Hcur Hidx.
    destruct (pushHistory_history latestVersion s i Hmax Hcur Hidx) as (Hh & _ & _).
    fold s' in Hh. cbv zeta in Hh.
    assert (Htake : length (take (Z.to_nat (i + 1)) (history s)) = Z.to_nat (i + 1)).
    { rewrite length_take. lia. }
    split.
    + rewrite Hh, length_drop, length_app, Htake. simpl. lia.
    + intros Hroom. rewrite Hh.
      replace (_ - _)%nat with 0%nat; [done|].
      rewrite length_app, Htake. unfold MAX_HISTORY. simpl. lia.
  - apply pushHistory_frame.
Qed.

(** [n] calls of [undo] in a row. *)
Lemma undo_iter P n s (i : Z) :
  Z.of_nat (length (history s)) <= MAX_HISTORY ->
  currentIndex s = Number i -> 0 <= i < Z.of_nat (length (history s)) ->
  let u := Nat.iter n (undo P) s in
  history u = history s /\
  currentIndex u = Number (Z.max 0 (i - Z.of_nat n)) /\
  frames u = (frames s + Z.to_nat (Z.min (Z.of_nat n) i))%nat /\
  pushHistoryDebouncedTimeout u = pushHistoryDebouncedTimeout s /\
  (0 < Z.of_nat n -> 0 < i ->
   store u = deepClone (has_structuredClone P) (at_index (history s) (currentIndex u))).
Proof.
  intros Hlen Hcur Hidx. induction n as [|n IH]; simpl.
  - split; [done|]. split; [by rewrite Z.max_r by lia; rewrite Z.sub_0_r|].
    split; [lia|]. split; [done|]. lia.
  - destruct IH as (Hh & Hi & Hf & Ht & Hs).
    set (u := Nat.iter n (undo P) s) in *.
    rewrite (undo_at P u (Z.max 0 (i - Z.of_nat n))) by (rewrite ?Hh; done || lia).
    destruct (Z.ltb_spec 0 (Z.max 0 (i - Z.of_nat n))) as [Hpos|Hzero].
    + rewrite rollbackTo_at by (by rewrite Hh).
      rewrite Hh.
      destruct (Z.leb_spec 0 (Z.max 0 (i - Z.of_nat n) - 1)); [|lia].
      destruct (Z.ltb_spec (Z.max 0 (i - Z.of_nat n) - 1) (Z.of_nat (length (history s))));
        [|lia].
      cbn [andb notifySubscribers history currentIndex frames store
           pushHistoryDebouncedTimeout].
      replace (Z.max 0 (i - Z.of_nat n) - 1) with (Z.max 0 (i - Z.of_nat (S n))) by lia.
      split; [done|]. split; [done|]. split; [lia|]. split; [done|]. done.
    + split; [done|]. split; [rewrite Hi; f_equal; lia|]. split; [lia|].
      split; [done|].
      intros _ Hpos. destruct n as [|n]; [simpl in *; lia|].
      by rewrite Hs by lia.
Qed.

(** X13 — [undo] called [n] times in a row, in a state the store
    reaches with [rollbackTo] called at integers: the cursor, an integer
    [i], moves back by [n] and stops at the oldest version; the history
    is untouched; one frame is asked for by each call that moved; and
    the store holds a copy of the version under the cursor, as after one
    [rollbackTo] that far back. *)
Theorem undo_n_times (P : Platform) (initialState : value) (ops : list op) (n : nat) :
  integer_indices ops = true ->
  let s := run P initialState ops in
  let u := Nat.iter n (undo P) s in
  exists i : Z,
    getCurrentVersion s = i /\ 0 <= i < Z.of_nat (length (history s)) /\
    history u = history s /\
    getCurrentVersion u = Z.max 0 (i - Z.of_nat n) /\
    frames u = (frames s + Z.to_nat (Z.min (Z.of_nat n) i))%nat /\
    (0 < Z.of_nat n <= i ->
     store u = store (rollbackTo P s (i - Z.of_nat n)%Z) /\
     getCurrentVersion u = getCurrentVersion (rollbackTo P s (i - Z.of_nat n)%Z)) /\
    undo P (Nat.iter (Z.to_nat i) (undo P) s) = Nat.iter (Z.to_nat i) (undo P) s.
Proof.
  intros Hint s u.
  pose proof (history_inv_run P initialState ops Hint) as (Hlen & i & Hcur & Hidx).
  fold s in Hlen, Hcur, Hidx. unfold getCurrentVersion.
  exists i. split; [done|]. split; [done|].
  destruct (undo_iter P n s i Hlen Hcur Hidx) as (Hh & Hi & Hf & _ & Hs).
  fold u in Hh, Hi, Hf, Hs.
  split; [done|]. split; [done|]. split; [done|]. split.
  - intros [Hn Hle]. rewrite rollbackTo_at by done.
    destruct (Z.leb_spec 0 (i - Z.of_nat n)); [|lia].
    destruct (Z.ltb_spec (i - Z.of_nat n) (Z.of_nat (length (history s)))); [|lia].
    cbn [andb notifySubscribers store currentIndex].
    rewrite Hs by lia. rewrite Hi.
    replace (Z.max 0 (i - Z.of_nat n)) with (i - Z.of_nat n) by lia. done.
  - apply undo_at_bottom.
    destruct (undo_iter P (Z.to_nat i) s i Hlen Hcur Hidx) as (_ & Hi0 & _).
    rewrite Hi0. f_equal. lia.
Qed.

Lemma undo_n_times_witness :
  let ops := [OpSetStore (VNum 1); OpElapse 200; OpSetStore (VNum 2); OpElapse 200;
              OpSetStore (VNum 3); OpElapse 200] in
  let s := run demo (VNum 0) ops in
  integer_indices ops = true /\
  history s = [VNum 0; VNum 1; VNum 2; VNum 3] /\
  getCurrentVersion s = 3 /\
  getCurrentVersion (Nat.iter 2 (undo demo) s) = 1 /\
  store (Nat.iter 2 (undo demo) s) = VNum 1 /\
  exists i : Z, getCurrentVersion s = i /\
                history (Nat.iter 2 (undo demo) s) = history s /\
                getCurrentVersion (Nat.iter 2 (undo demo) s) = Z.max 0 (i - 2).
Proof.
  destruct (undo_n_times demo (VNum 0)
              [OpSetStore (VNum 1); OpElapse 200; OpSetStore (VNum 2); OpElapse 200;
               OpSetStore (VNum 3); OpElapse 200] 2 eq_refl)
    as (i & Hi & _ & Hh & Hc & _).
  split; [reflexivity|]. split; [vm_compute; reflexivity|].
  split; [vm_compute; reflexivity|]. split; [vm_compute; reflexivity|].
  split; [vm_compute; reflexivity|].
  exists i. split; [exact Hi|]. split; [exact Hh|exact Hc].
Defined.

(** ** Keyboard shortcuts *)

Lemma lower_is (c : Ascii.ascii) (l u : string) :
  (l = "z"%string /\ u = "Z"%string) \/ (l = "y"%string /\ u = "Y"%string) ->
  String (lower c) EmptyString = l <-> String c EmptyString = l \/ String c EmptyString = u.
Proof.
  intros [[-> ->]|[-> ->]];
    destruct c as [[] [] [] [] [] [] [] []]; vm_compute;
    (split; [intros H; first [discriminate H | by left | by right]
            |intros [H|H]; first [discriminate H | reflexivity]]).
Qed.

Lemma toLowerCase_is (s l u : string) :
  (l = "z"%string /\ u = "Z"%string) \/ (l = "y"%string /\ u = "Y"%string) ->
  String.eqb (toLowerCase s) l = true <-> s = l \/ s = u.
Proof.
  intros Hlu. rewrite String.eqb_eq.
  destruct s as [|c [|c' r]]; simpl.
  - destruct Hlu as [[-> ->]|[-> ->]]; (split; [discriminate|]; intros [H|H]; discriminate H).
  - by apply lower_is.
  - destruct Hlu as [[-> ->]|[-> ->]]; (split; [discriminate|]; intros [H|H]; discriminate H).
Qed.

(** X14 — the [keydown] handler of [registerShortcuts]: with Ctrl or
    Meta held, Z without Shift undoes, and Z with Shift or Y redoes, in
    either letter case; it then calls [preventDefault].  Without Ctrl and
    Meta, or on any other key, it leaves the store alone and does not
    call [preventDefault].  It never does both an undo and a redo. *)
Theorem shortcut_handler (P : Platform) (s : DataStore) (event : KeyboardEvent) :
  let modifier := ctrlKey event || metaKey event in
  let z := key event = "z"%string \/ key event = "Z"%string in
  let y := key event = "y"%string \/ key event = "Y"%string in
  (modifier = true -> z -> shiftKey event = false ->
   handler P s event = (undo P s, true)) /\
  (modifier = true -> (z /\ shiftKey event = true) \/ y ->
   handler P s event = (redo P s, true)) /\
  (modifier = false \/ (~ z /\ ~ y) -> handler P s event = (s, false)) /\
  (handler P s event = (undo P s, true) \/ handler P s event = (redo P s, true) \/
   handler P s event = (s, false)).
Proof.
  intros modifier z y.
  pose proof (toLowerCase_is (key event) "z" "Z" (or_introl (conj eq_refl eq_refl))) as Hz.
  pose proof (toLowerCase_is (key event) "y" "Y" (or_intror (conj eq_refl eq_refl))) as Hy.
  fold z in Hz. fold y in Hy.
  assert (Hzy : z -> y -> False).
  { intros [Ez|Ez] [Ey|Ey]; rewrite Ez in Ey; discriminate. }
  unfold handler. fold modifier.
  destruct (String.eqb (toLowerCase (key event)) "z") eqn:Ez;
    destruct (String.eqb (toLowerCase (key event)) "y") eqn:Ey;
    destruct modifier; destruct (shiftKey event); simpl;
    repeat split; try tauto; try congruence; try (intros; exfalso; intuition congruence).
Qed.

(** ** Persistence of the context store *)

Lemma saveState_denied P opt state ls key :
  usable_key (persistKey opt) = Some key -> write_denied ls = true ->
  saveState P opt state ls = (ls, [Warned]).
Proof.
  intros Hkey Hden. unfold saveState, setItem. rewrite Hkey, Hden. simpl.
  destruct (negb (jstype_eqb (typeof state) TObject && negb (is_nullish state))); [done|].
  destruct (negb (hasPersistFields opt)); [done|].
  by destruct (pick_fields P (persistFields opt) state (VObj [])).
Qed.

(** X15 — [set] when the storage refuses the write: the new value is
    taken all the same and every subscriber is called; the storage is
    left as it was and one warning is logged, before the calls. *)
Theorem set_survives_write_failure (P : Platform) (opt : ContextStoreOption)
    (cs : ContextStore) (update : value) (key : string) :
  usable_key (persistKey opt) = Some key ->
  write_denied (localStorage cs) = true ->
  deepEqual (current cs) (ctx_nextState P opt (current cs) update) = false ->
  let cs' := set P opt cs update in
  current cs' = ctx_nextState P opt (current cs) update /\
  localStorage cs' = localStorage cs /\
  effects cs' = effects cs ++ [Warned] ++ map Notified (subscribers cs) /\
  subscribers cs' = subscribers cs.
Proof.
  intros Hkey Hden Hacc cs'. subst cs'. unfold set. rewrite Hacc. cbn [negb].
  by rewrite (saveState_denied P opt _ _ key Hkey Hden).
Qed.

Lemma set_survives_write_failure_witness :
  let cs := {| current := VObj [("columnVisibility", VObj [])]; subscribers := [1%nat; 2%nat];
               localStorage := {| slots := ∅; read_denied := false; write_denied := true |};
               effects := [] |} in
  let update := VObj [("columnVisibility", VObj [("id", VBool false)])] in
  current (set demo (persisted ["columnVisibility"]) cs update)
  = VObj [("columnVisibility", VObj [("id", VBool false)])] /\
  effects (set demo (persisted ["columnVisibility"]) cs update)
  = [Warned; Notified 1; Notified 2].
Proof.
  pose proof (set_survives_write_failure demo (persisted ["columnVisibility"])
    {| current := VObj [("columnVisibility", VObj [])]; subscribers := [1%nat; 2%nat];
       localStorage := {| slots := ∅; read_denied := false; write_denied := true |};
       effects := [] |}
    (VObj [("columnVisibility", VObj [("id", VBool false)])]) "grid"
    eq_refl eq_refl eq_refl) as (H1 & _ & H3 & _).
  split; [exact H1|exact H3].
Defined.

(** [key in from] and [from[key]] on a record. *)
Lemma has_in_record P k ps : exists b, has_in P k (VObj ps) = Ok b.
Proof. by eexists. Qed.

Lemma has_in_own P k ps :
  k ∈ ps.*1 ->
  has_in P k (VObj ps) = Ok true /\ get P (VObj ps) k = get_prop (VObj ps) k.
Proof. intros Hin%includes_true. unfold has_in, get, keys. simpl. by rewrite Hin. Qed.

Lemma has_in_hidden P k ps v :
  k ∉ ps.*1 -> hidden P (VObj ps) k = Some v ->
  has_in P k (VObj ps) = Ok true /\ get P (VObj ps) k = v.
Proof.
  intros Hout Hh. unfold has_in, get, keys. simpl. rewrite Hh.
  destruct (includes k ps.*1) eqn:E; [by apply includes_true in E|done].
Qed.

Lemma has_in_absent P k ps :
  k ∉ ps.*1 -> hidden P (VObj ps) k = None -> has_in P k (VObj ps) = Ok false.
Proof.
  intros Hout Hh. unfold has_in, keys. simpl. rewrite Hh.
  destruct (includes k ps.*1) eqn:E; [by apply includes_true in E|done].
Qed.

(** What [pick_fields] leaves in the record it fills. *)
Lemma pick_fields_record P fields ps : forall acc,
  exists acc', pick_fields P fields (VObj ps) (VObj acc) = Ok (VObj acc') /\
    (NoDup acc.*1 -> NoDup acc'.*1) /\
    forall k,
      (k ∈ fields -> has_in P k (VObj ps) = Ok true ->
       assoc k acc' = Some (get P (VObj ps) k)) /\
      (k ∉ fields \/ has_in P k (VObj ps) = Ok false -> assoc k acc' = assoc k acc).
Proof.
  induction fields as [|f rest IH]; intros acc; cbn [pick_fields].
  - exists acc. split; [done|]. split; [done|]. intros k. split.
    + by intros ?%elem_of_nil.
    + done.
  - destruct (has_in_record P f ps) as [b Hf]. rewrite Hf. cbn [mbind outcome_bind].
    destruct b.
    + destruct (IH (assoc_set f (get P (VObj ps) f) acc)) as (acc' & Hacc' & Hnd & Hk).
      cbn [set_prop]. rewrite Hacc'.
      exists acc'. split; [done|]. split.
      { intros Hacc. apply Hnd. by apply assoc_set_NoDup. }
      intros k. destruct (Hk k) as [Hin Hout]. split.
      * intros Hkf Hkp. destruct (decide (k ∈ rest)) as [Hr|Hr]; [by apply Hin|].
        apply elem_of_cons in Hkf as [->|Hkf]; [|done].
        rewrite Hout by (by left). apply assoc_set_lookup_eq.
      * intros Hno. assert (k <> f) as Hne.
        { intros ->. destruct Hno as [Hno|Hno].
          - apply Hno. by left.
          - congruence. }
        rewrite Hout.
        -- by apply assoc_set_lookup_ne.
        -- destruct Hno as [Hno|Hno]; [left|by right].
           intros Hr. apply Hno. by right.
    + destruct (IH acc) as (acc' & Hacc' & Hnd & Hk). rewrite Hacc'.
      exists acc'. split; [done|]. split; [done|].
      intros k. destruct (Hk k) as [Hin Hout]. split.
      * intros Hkf Hkp. apply elem_of_cons in Hkf as [->|Hkf]; [|by apply Hin].
        congruence.
      * intros Hno. apply Hout. destruct Hno as [Hno|Hno]; [left|by right].
        intros Hr. apply Hno. by right.
Qed.

Lemma assoc_app {V} k (l1 l2 : list (string * V)) :
  assoc k (l1 ++ l2) = match assoc k l1 with Some v => Some v | None => assoc k l2 end.
Proof.
  induction l1 as [|[k' v'] r IH]; simpl; [done|].
  by destruct (String.eqb k k').
Qed.

(** A later property of the same name wins in a spread. *)
Lemma assoc_spread {V} k (l : list (string * V)) : forall acc,
  assoc k (fold_left (fun acc kv => assoc_set kv.1 kv.2 acc) l acc)
  = match assoc k (reverse l) with Some v => Some v | None => assoc k acc end.
Proof.
  induction l as [|[k' v'] r IH]; intros acc; simpl; [done|].
  rewrite IH, reverse_cons, assoc_app. simpl.
  destruct (assoc k (reverse r)); [done|].
  destruct (String.eqb_spec k k') as [->|Hne].
  - apply assoc_set_lookup_eq.
  - by apply assoc_set_lookup_ne.
Qed.

Lemma assoc_reverse {V} k (l : list (string * V)) :
  NoDup l.*1 -> assoc k (reverse l) = assoc k l.
Proof.
  intros Hnd. destruct (assoc k l) as [v|] eqn:Hk.
  - apply assoc_NoDup.
    + by rewrite fmap_reverse, reverse_Permutation.
    + apply elem_of_reverse. by apply assoc_Some_elem.
  - apply assoc_None. rewrite fmap_reverse, elem_of_reverse. by apply assoc_None.
Qed.

Lemma get_prop_spread2 pa pb k :
  NoDup pa.*1 -> NoDup pb.*1 ->
  get_prop (spread2 (VObj pa) (VObj pb)) k
  = match assoc k pb with Some v => v | None => get_prop (VObj pa) k end.
Proof.
  intros Ha Hb. unfold spread2. rewrite get_prop_obj, assoc_spread. simpl.
  rewrite reverse_app, assoc_app, !assoc_reverse by done.
  destruct (assoc k pb); [done|]. rewrite get_prop_obj. by destruct (assoc k pa).
Qed.

(** What [loadState] returns from a stored record. *)
Lemma loadState_record P opt pi ls key text pp :
  usable_key (persistKey opt) = Some key ->
  read_denied ls = false -> slots ls !! key = Some text -> text <> EmptyString ->
  JSON_parse P text = Some (VObj pp) ->
  NoDup pi.*1 -> NoDup pp.*1 ->
  exists r, loadState P opt (VObj pi) ls = Ok r /\
    forall k,
      ((hasPersistFields opt = false \/ k ∈ persistFields opt) -> k ∈ pp.*1 ->
       get_prop r k = get_prop (VObj pp) k) /\
      (k ∈ persistFields opt -> k ∉ pp.*1 ->
       forall v, hidden P (VObj pp) k = Some v -> get_prop r k = v) /\
      ((hasPersistFields opt = true /\ k ∉ persistFields opt) \/
       ((hasPersistFields opt = false \/ hidden P (VObj pp) k = None) /\ k ∉ pp.*1) ->
       get_prop r k = get_prop (VObj pi) k).
Proof.
  intros Hkey Hread Hslot Htext Hparse Hpi Hpp.
  unfold loadState, getItem. rewrite Hkey, Hread. simpl. rewrite Hslot.
  destruct (String.eqb_spec text EmptyString) as [|_]; [done|]. rewrite Hparse.
  destruct (hasPersistFields opt) eqn:Hfields.
  - destruct (pick_fields_record P (persistFields opt) pp []) as (acc & -> & Hnd & Hk).
    simpl. eexists. split; [done|]. intros k.
    rewrite get_prop_spread2; [|done|apply Hnd; apply NoDup_nil_2].
    destruct (Hk k) as [Hin Hout]. split; [|split].
    + intros [|Hf] Hp; [done|]. destruct (has_in_own P k pp Hp) as [Hhas Hget].
      by rewrite Hin, Hget.
    + intros Hf Hp v Hv. destruct (has_in_hidden P k pp v Hp Hv) as [Hhas Hget].
      by rewrite Hin, Hget.
    + intros Hno. rewrite Hout; [done|].
      destruct Hno as [[_ ?]|[[?|Hh] Hp]]; [by left|done|].
      right. by apply has_in_absent.
  - simpl. eexists. split; [done|]. intros k.
    rewrite get_prop_spread2 by done. split; [|split].
    + intros _ Hp. rewrite (get_prop_obj pp).
      destruct (assoc k pp) eqn:E; [done|]. by apply assoc_None in E.
    + intros Hf. unfold hasPersistFields in Hfields.
      destruct (persistFields opt); [by apply elem_of_nil in Hf|done].
    + intros [[? _]|[_ Hno]]; [done|]. apply assoc_None in Hno. by rewrite Hno.
Qed.

(** X16 — [loadState] with [persistFields]: of a stored record the
    listed properties are taken, and for a listed name the record does
    not hold itself, the property it has all the same (from its
    prototype), if any; every other property of the result, stored or
    not, has the initial value.  Without [persistFields] every stored
    property is taken, and nothing else. *)
Theorem hydration_is_selective (P : Platform) (opt : ContextStoreOption)
    (pi pp : list (string * value)) (ls : LocalStorage) (key text : string) :
  usable_key (persistKey opt) = Some key ->
  read_denied ls = false -> slots ls !! key = Some text -> text <> EmptyString ->
  JSON_parse P text = Some (VObj pp) ->
  wf_value (VObj pi) = true -> wf_value (VObj pp) = true ->
  exists r, loadState P opt (VObj pi) ls = Ok r /\
    forall k,
      ((hasPersistFields opt = false \/ k ∈ persistFields opt) -> k ∈ pp.*1 ->
       get_prop r k = get_prop (VObj pp) k) /\
      (k ∈ persistFields opt -> k ∉ pp.*1 ->
       forall v, hidden P (VObj pp) k = Some v -> get_prop r k = v) /\
      ((hasPersistFields opt = true /\ k ∉ persistFields opt) \/
       ((hasPersistFields opt = false \/ hidden P (VObj pp) k = None) /\ k ∉ pp.*1) ->
       get_prop r k = get_prop (VObj pi) k).
Proof.
  intros Hkey Hread Hslot Htext Hparse [Hpi _]%wf_value_obj [Hpp _]%wf_value_obj.
  by apply (loadState_record P opt pi ls key text pp).
Qed.

Lemma hydration_is_selective_witness :
  let stored := [("columnVisibility", VObj [("id", VBool false)]); ("rows", VNum 9)] in
  let init := VObj [("columnVisibility", VObj []); ("rows", VNum 0);
                    ("toString", VStr "mine")] in
  let fields := ["columnVisibility"; "toString"] in
  loadState (one_document (VObj stored)) (persisted fields) init (storage_with "#")
  = Ok (VObj [("columnVisibility", VObj [("id", VBool false)]); ("rows", VNum 0);
              ("toString", VFun 8)]) /\
  exists r, loadState (one_document (VObj stored)) (persisted fields) init
              (storage_with "#") = Ok r /\
            get_prop r "rows" = VNum 0 /\ get_prop r "toString" = VFun 8.
Proof.
  split; [reflexivity|].
  destruct (hydration_is_selective
              (one_document (VObj [("columnVisibility", VObj [("id", VBool false)]);
                                   ("rows", VNum 9)]))
              (persisted ["columnVisibility"; "toString"])
              [("columnVisibility", VObj []); ("rows", VNum 0); ("toString", VStr "mine")]
              [("columnVisibility", VObj [("id", VBool false)]); ("rows", VNum 9)]
              (storage_with "#") "grid" "#"
              eq_refl eq_refl eq_refl ltac:(discriminate) eq_refl eq_refl eq_refl)
    as (r & Hr & Hk).
  exists r. split; [exact Hr|].
  destruct (Hk "rows"%string) as (_ & _ & Hrows).
  destruct (Hk "toString"%string) as (_ & Hhidden & _).
  split.
  - apply Hrows. left. split; [reflexivity|].
    intros H. repeat (apply elem_of_cons in H as [H|H]; [discriminate|]).
    by apply elem_of_nil in H.
  - apply Hhidden.
    + apply elem_of_cons. right. apply elem_of_cons. by left.
    + simpl. intros H. repeat (apply elem_of_cons in H as [H|H]; [discriminate|]).
      by apply elem_of_nil in H.
    + reflexivity.
Defined.

Lemma saveState_written P opt state ls key doc :
  usable_key (persistKey opt) = Some key -> write_denied ls = false ->
  persistObject P opt state = Ok doc ->
  saveState P opt state ls
  = ({| slots := <[key := JSON_stringify P doc]> (slots ls);
        read_denied := read_denied ls; write_denied := write_denied ls |},
     [Written key (JSON_stringify P doc)]).
Proof.
  intros Hkey Hden. unfold persistObject, saveState, setItem. rewrite Hkey, Hden.
  destruct (jstype_eqb (typeof state) TObject && negb (is_nullish state)); simpl.
  - destruct (hasPersistFields opt); simpl.
    + by intros ->.
    + by intros [= ->].
  - by intros [= ->].
Qed.

(** X17 — [saveState] then [loadState]: when [set] has saved a record
    state and the codec gives back the document it wrote, a store built
    afterwards from any initial record starts with the saved value under
    every persisted property of that state, and with the initial value
    under the properties left out of [persistFields]. *)
Theorem saved_state_comes_back (P : Platform) (opt : ContextStoreOption)
    (cs : ContextStore) (update : value) (key : string)
    (pn pi : list (string * value)) (doc : value) :
  usable_key (persistKey opt) = Some key ->
  write_denied (localStorage cs) = false -> read_denied (localStorage cs) = false ->
  deepEqual (current cs) (ctx_nextState P opt (current cs) update) = false ->
  ctx_nextState P opt (current cs) update = VObj pn -> wf_value (VObj pn) = true ->
  wf_value (VObj pi) = true ->
  persistObject P opt (VObj pn) = Ok doc ->
  JSON_parse P (JSON_stringify P doc) = Some doc ->
  JSON_stringify P doc <> EmptyString ->
  let cs' := set P opt cs update in
  effects cs' = effects cs ++ [Written key (JSON_stringify P doc)]
                ++ map Notified (subscribers cs) /\
  exists r, loadState P opt (VObj pi) (localStorage cs') = Ok r /\
    forall k,
      ((hasPersistFields opt = false \/ k ∈ persistFields opt) -> k ∈ pn.*1 ->
       get_prop r k = get_prop (VObj pn) k) /\
      (hasPersistFields opt = true -> k ∉ persistFields opt ->
       get_prop r k = get_prop (VObj pi) k).
Proof.
  intros Hkey Hwrite Hread Hacc Hnext Hwn Hwi Hdoc Hcodec Htext cs'.
  subst cs'. unfold set. rewrite Hacc, Hnext. cbn [negb].
  rewrite (saveState_written P opt _ _ key doc Hkey Hwrite Hdoc). cbn.
  split; [done|].
  pose proof Hwn as [Hpn _]%wf_value_obj. pose proof Hwi as [Hpi _]%wf_value_obj.
  assert (Hshape : exists pd, doc = VObj pd /\ NoDup pd.*1 /\
            forall k, ((hasPersistFields opt = false \/ k ∈ persistFields opt) ->
                       k ∈ pn.*1 -> k ∈ pd.*1 /\ get_prop (VObj pd) k = get_prop (VObj pn) k)).
  { unfold persistObject in Hdoc. simpl in Hdoc.
    destruct (hasPersistFields opt) eqn:Hf.
    - destruct (pick_fields_record P (persistFields opt) pn []) as (pd & Hpick & Hnd & Hk).
      rewrite Hpick in Hdoc. injection Hdoc as <-.
      exists pd. split; [done|]. split; [apply Hnd; constructor|].
      intros k [|Hin] Hkn; [done|]. destruct (Hk k) as [Hsome _].
      destruct (has_in_own P k pn Hkn) as [Hhas Hget].
      specialize (Hsome Hin Hhas). rewrite Hget in Hsome. split.
      + apply keys_obj_elem. by rewrite Hsome.
      + rewrite (get_prop_obj pd), Hsome. done.
    - injection Hdoc as <-. exists pn. by repeat split. }
  destruct Hshape as (pd & -> & Hpd & Hkeep).
  destruct (loadState_record P opt pi
              {| slots := <[key := JSON_stringify P (VObj pd)]> (slots (localStorage cs));
                 read_denied := read_denied (localStorage cs);
                 write_denied := write_denied (localStorage cs) |}
              key (JSON_stringify P (VObj pd)) pd Hkey) as (r & Hr & Hk); try done.
  { simpl. by rewrite lookup_insert_eq. }
  exists r. split; [exact Hr|]. intros k. destruct (Hk k) as (Htaken & _ & Hinit). split.
  - intros Hsel Hkn. destruct (Hkeep k Hsel Hkn) as [Hkd <-]. by apply Htaken.
  - intros Hf Hout. apply Hinit. left. done.
Qed.

Lemma saved_state_comes_back_witness :
  let doc := VObj [("columnVisibility", VObj [("id", VBool false)])] in
  let cs := {| current := VObj [("columnVisibility", VObj []); ("rows", VNum 3)];
               subscribers := [1%nat];
               localStorage := storage_with EmptyString; effects := [] |} in
  let cs' := set (one_document doc) (persisted ["columnVisibility"]) cs doc in
  current cs' = VObj [("columnVisibility", VObj [("id", VBool false)]); ("rows", VNum 3)] /\
  effects cs' = [Written "grid" "#"; Notified 1] /\
  loadState (one_document doc) (persisted ["columnVisibility"])
    (VObj [("columnVisibility", VObj []); ("rows", VNum 0)]) (localStorage cs')
  = Ok (VObj [("columnVisibility", VObj [("id", VBool false)]); ("rows", VNum 0)]).
Proof.
  split; [reflexivity|].
  pose proof (saved_state_comes_back
    (one_document (VObj [("columnVisibility", VObj [("id", VBool false)])]))
    (persisted ["columnVisibility"])
    {| current := VObj [("columnVisibility", VObj []); ("rows", VNum 3)];
       subscribers := [1%nat];
       localStorage := storage_with EmptyString; effects := [] |}
    (VObj [("columnVisibility", VObj [("id", VBool false)])]) "grid"
    [("columnVisibility", VObj [("id", VBool false)]); ("rows", VNum 3)]
    [("columnVisibility", VObj []); ("rows", VNum 0)]
    (VObj [("columnVisibility", VObj [("id", VBool false)])])
    eq_refl eq_refl eq_refl eq_refl eq_refl eq_refl eq_refl eq_refl eq_refl
    ltac:(discriminate)) as [Heff _].
  split; [exact Heff|reflexivity].
Defined.

(** ** [createMirrorObject] *)






(** ** [clsx] *)

Lemma set_add_spec c c' s : c' ∈ set_add c s <-> c' = c \/ c' ∈ s.
Proof.
  unfold set_add. destruct (decide (c ∈ s)) as [Hin|Hout].
  - split; [by right|]. by intros [->|].
  - rewrite elem_of_app, list_elem_of_singleton. tauto.
Qed.

Lemma set_add_NoDup c s : NoDup s -> NoDup (set_add c s).
Proof.
  intros Hnd. unfold set_add. destruct (decide (c ∈ s)) as [Hin|Hout]; [done|].
  apply NoDup_app. split; [done|]. split; [|apply NoDup_singleton].
  by intros x Hx ->%list_elem_of_singleton.
Qed.

Lemma class_entries_NoDup entries : forall s, NoDup s -> NoDup (class_entries entries s).
Proof.
  induction entries as [|[k v] rest IH]; intros s Hnd; simpl; [done|].
  destruct v as [| |[]| | | | |]; try done; apply IH;
    [by apply set_add_NoDup | by apply NoDup_filter].
Qed.

Lemma class_of_NoDup trim className s : NoDup s -> NoDup (class_of trim className s).
Proof.
  intros Hnd. destruct className; simpl; try done.
  - by apply set_add_NoDup.
  - by apply set_add_NoDup.
  - by apply class_entries_NoDup.
Qed.

Lemma class_entries_mentions entries : forall s,
  class_entries entries s = after_mentions (read_entries entries) s.
Proof.
  induction entries as [|[k v] rest IH]; intros s; simpl; [done|].
  destruct v; try done.
Qed.

Lemma class_of_mentions trim classList : forall s,
  forallb is_flat classList = true ->
  fold_left (fun acc c => class_of trim c acc) classList s
  = after_mentions (mentions classList) s.
Proof.
  induction classList as [|c rest IH]; intros s Hflat; simpl; [done|].
  simpl in Hflat. apply andb_true_iff in Hflat as [Hc Hrest].
  rewrite IH by done. unfold after_mentions. rewrite fold_left_app. f_equal.
  destruct c; try done. simpl. apply class_entries_mentions.
Qed.

Lemma after_mentions_spec c said : forall s,
  c ∈ after_mentions said s <->
  match last_mention c said with
  | Some on => on = true
  | None => c ∈ s
  end.
Proof.
  induction said as [|[c' on] rest IH]; intros s; simpl; [done|].
  unfold after_mentions in *. rewrite IH.
  destruct (last_mention c rest) as [later|]; [done|].
  destruct (String.eqb_spec c c') as [->|Hne]; destruct on; simpl.
  - rewrite set_add_spec. split; auto.
  - unfold set_delete. rewrite set_delete_spec. split; [tauto|done].
  - rewrite set_add_spec. split; [|auto]. by intros [|].
  - unfold set_delete. rewrite set_delete_spec. tauto.
Qed.

(** X19 — [clsx]: the class names it joins form a set, and for
    arguments that are strings and records of booleans (no nested list)
    a name is in it exactly when the last thing said of it, reading the
    arguments in order, switches it on: a later [false] removes a class
    an earlier argument added, a later mention adds it again. *)
Theorem clsx_last_mention_wins (trim : string -> string) (classList : list value)
    (c : string) :
  forallb is_flat classList = true ->
  clsx trim classList = trim (String.concat " " (classListSet trim classList)) /\
  NoDup (classListSet trim classList) /\
  (c ∈ classListSet trim classList <->
   last_mention c (mentions classList) = Some true).
Proof.
  intros Hflat. split; [done|]. split.
  - unfold classListSet.
    apply (fold_left_inv (fun s => NoDup s)); [|apply NoDup_nil_2].
    intros acc x _ Hacc. by apply class_of_NoDup.
  - unfold classListSet. rewrite class_of_mentions by done.
    rewrite after_mentions_spec.
    destruct (last_mention c (mentions classList)) as [on|].
    + split; [by intros ->|by intros [= ->]].
    + split; [by intros ?%elem_of_nil|done].
Qed.

Lemma clsx_last_mention_wins_witness :
  let classList := [VStr "w-4"; VStr "rotate"; VObj [("rotate", VBool false); ("ml-1", VBool true)];
                    VUndef; VStr "w-4"] in
  forallb is_flat classList = true /\
  classListSet (fun s => s) classList = ["w-4"; "ml-1"]%string /\
  clsx (fun s => s) classList = "w-4 ml-1"%string /\
  ("rotate"%string ∉ classListSet (fun s => s) classList).
Proof.
  split; [reflexivity|]. split; [reflexivity|]. split; [reflexivity|].
  intros Hin.
  apply (clsx_last_mention_wins (fun s => s)
           [VStr "w-4"; VStr "rotate"; VObj [("rotate", VBool false); ("ml-1", VBool true)];
            VUndef; VStr "w-4"] "rotate" eq_refl) in Hin.
  vm_compute in Hin. discriminate.
Defined.

(** ** Paging *)

Lemma slice_page {A} (l : list A) (start size : Z) :
  0 <= start -> 0 <= size ->
  slice start (start + size) l = take (Z.to_nat size) (drop (Z.to_nat start) l).
Proof.
  intros Hstart Hsize. unfold slice.
  destruct (Z.ltb_spec start 0) as [|_]; [lia|].
  destruct (Z.ltb_spec (start + size) 0) as [|_]; [lia|].
  destruct (Z_le_gt_dec (Z.of_nat (length l)) start) as [Hout|Hin].
  - rewrite !drop_ge by lia. by rewrite !take_nil.
  - rewrite (Z.min_l start) by lia.
    destruct (Z_le_gt_dec (start + size) (Z.of_nat (length l))) as [Hfit|Hover].
    + rewrite (Z.min_l (start + size)) by lia. f_equal. lia.
    + rewrite (Z.min_r (start + size)) by lia.
      rewrite !take_ge; [done| |]; rewrite length_drop; lia.
Qed.

Lemma pages_iter fetched sort_rows sorting fetchSize n :
  0 <= fetchSize ->
  let sorted := match sorting with
                | [] => fetched
                | sort :: _ => sort_rows sort fetched
                end in
  let pages := Nat.iter n (fetchNextPage (fetchData (Ok fetched) sort_rows)
                             fetchSize sorting) [] in
  length pages = n /\
  flatData pages = take (n * Z.to_nat fetchSize) sorted /\
  Forall (fun page => totalRowCount page = Z.of_nat (length sorted)) pages.
Proof.
  intros Hsize sorted. induction n as [|n IH]; simpl.
  - split; [done|]. split; [by rewrite take_0|constructor].
  - destruct IH as (Hlen & Hflat & Hmeta).
    set (pages := Nat.iter n _ []) in *.
    unfold fetchNextPage, queryFn, fetchData. simpl. fold sorted.
    rewrite length_app. simpl. split; [lia|]. split.
    + unfold flatData in *. rewrite flat_map_app. simpl. rewrite app_nil_r.
      rewrite Hflat, Hlen. rewrite slice_page by lia.
      replace (Z.to_nat (Z.of_nat n * fetchSize)) with (n * Z.to_nat fetchSize)%nat by lia.
      rewrite take_take_drop. f_equal. lia.
    + apply Forall_app. split; [done|]. by repeat constructor.
Qed.

(** X20 — paging of the table over [fetchData]: with the request
    answering the same rows each time, the pages that [fetchNextPage]
    has gathered, laid end to end, are the first [n * fetchSize] rows of
    the (sorted) response, with no gap and no row twice; the total is
    the number of rows; and the table stops asking for more exactly when
    it holds every row.  A request that fails adds no page. *)
Theorem pages_tile_the_rows (fetched : list value)
    (sort_rows : value -> list value -> list value) (sorting : list value)
    (fetchSize : Z) (n : nat) :
  0 <= fetchSize ->
  let sorted := match sorting with
                | [] => fetched
                | sort :: _ => sort_rows sort fetched
                end in
  let pages := Nat.iter (S n) (fetchNextPage (fetchData (Ok fetched) sort_rows)
                                 fetchSize sorting) [] in
  length pages = S n /\
  flatData pages = take (S n * Z.to_nat fetchSize) sorted /\
  totalDBRowCount pages = Z.of_nat (length sorted) /\
  (more_to_fetch pages = false <-> flatData pages = sorted) /\
  (forall held, fetchNextPage (fetchData Throw sort_rows) fetchSize sorting held = held).
Proof.
  intros Hsize sorted pages.
  destruct (pages_iter fetched sort_rows sorting fetchSize (S n) Hsize)
    as (Hlen & Hflat & Hmeta).
  fold sorted in Hflat, Hmeta. fold pages in Hlen, Hflat, Hmeta.
  assert (Htotal : totalDBRowCount pages = Z.of_nat (length sorted)).
  { destruct pages as [|first rest]; [done|]. simpl. by apply Forall_cons in Hmeta as [? _]. }
  split; [done|]. split; [done|]. split; [done|]. split; [|done].
  unfold more_to_fetch. rewrite Htotal, Hflat, Z.ltb_ge, length_take. split.
  - intros Hall. apply take_ge. lia.
  - intros Hall. apply (f_equal length) in Hall. rewrite length_take in Hall. lia.
Qed.

Lemma pages_tile_the_rows_witness :
  let rows := [VNum 1; VNum 2; VNum 3; VNum 4; VNum 5] in
  let fetchFn := fetchData (Ok rows) (fun _ l => l) in
  let two := Nat.iter 2 (fetchNextPage fetchFn 2 []) [] in
  let three := Nat.iter 3 (fetchNextPage fetchFn 2 []) [] in
  0 <= 2 /\
  flatData two = [VNum 1; VNum 2; VNum 3; VNum 4] /\ more_to_fetch two = true /\
  flatData three = rows /\ more_to_fetch three = false.
Proof.
  split; [lia|]. split; [reflexivity|]. split; [reflexivity|]. split; [reflexivity|].
  apply (pages_tile_the_rows [VNum 1; VNum 2; VNum 3; VNum 4; VNum 5] (fun _ l => l) [] 2 2);
    [lia|reflexivity].
Defined.

Lemma spread_fresh {V} (l : list (string * V)) : forall acc,
  NoDup (acc.*1 ++ l.*1) ->
  fold_left (fun acc kv => assoc_set kv.1 kv.2 acc) l acc = acc ++ l.
Proof.
  induction l as [|[k v] r IH]; intros acc Hnd; simpl.
  - by rewrite app_nil_r.
  - simpl in Hnd. rewrite assoc_set_fresh.
    + rewrite IH; [by rewrite <- app_assoc|].
      rewrite fmap_app. simpl. by rewrite <- app_assoc.
    + intros Hin. apply NoDup_app in Hnd as (_ & Hdis & _). apply (Hdis k Hin). by left.
Qed.

(** X21 — [loadState] when the stored text decodes to a scalar that is
    not a string ([null], a boolean, a number): the store starts from a
    copy of the initial record, with or without [persistFields]; the
    stored value never replaces the state. *)
Theorem hydration_ignores_scalars (P : Platform) (opt : ContextStoreOption)
    (pi : list (string * value)) (ls : LocalStorage) (key text : string)
    (parsed : value) :
  usable_key (persistKey opt) = Some key ->
  read_denied ls = false -> slots ls !! key = Some text ->
  JSON_parse P text = Some parsed ->
  is_scalar parsed = true -> typeof parsed <> TString ->
  typeof parsed <> TFunction ->
  wf_value (VObj pi) = true ->
  loadState P opt (VObj pi) ls = Ok (VObj pi).
Proof.
  intros Hkey Hread Hslot Hparse Hscalar Hstr Hfun [Hpi _]%wf_value_obj.
  unfold loadState, getItem. rewrite Hkey, Hread. simpl. rewrite Hslot.
  destruct (String.eqb text EmptyString); [done|]. rewrite Hparse.
  unfold hasPersistFields.
  destruct (persistFields opt) as [|f rest] eqn:Hfields; cbn -[spread2].
  - destruct parsed; try done; unfold spread2; simpl; rewrite app_nil_r;
      by rewrite (spread_fresh pi []).
  - by destruct parsed.
Qed.

Lemma hydration_ignores_scalars_witness :
  let init := VObj [("columnVisibility", VObj []); ("rows", VNum 0)] in
  loadState demo (persisted ["columnVisibility"]) init (storage_with "7") = Ok init /\
  loadState demo (persisted []) init (storage_with "7") = Ok init.
Proof.
  split.
  - apply (hydration_ignores_scalars demo (persisted ["columnVisibility"])
             [("columnVisibility", VObj []); ("rows", VNum 0)] (storage_with "7")
             "grid" "7" (VNum 7)); try reflexivity; discriminate.
  - reflexivity.
Defined.
